(** * NovelSync: the crawl controller and its two service clients

    A shallow embedding of the TypeScript sources

    - [App.tsx], kept as [src/unnamed/part_000] (the crawl controller:
      [startCrawling], [stopCrawling], the crawler effect with its
      [processNextChapter] closure, [sanitize] and the composition of
      [fileName]),
    - [services/geminiService.ts] ([fetchChapterContent]),
    - [services/githubService.ts] ([uploadFileToGitHub]),
    - [types.ts] (the records and enumerations),

    the last three kept one after the other in
    [src/Body/services/geminiService.ts], whose line numbers are the ones
    quoted for them,

    together with the ECMAScript and HTML built-ins these functions call
    ([String.prototype.replace] with the regular expressions of the
    source, [trim], [split], [join], [padStart], [encodeURIComponent],
    [unescape], [btoa] and, for the decoding direction, [atob], [escape] and
    [decodeURIComponent]).

    A JavaScript string is a sequence of UTF-16 code units; it is modelled
    as a list of numbers, one per code unit. *)

From Stdlib Require Import List NArith Lia Bool String Ascii QArith.
From Stdlib Require DecimalN.
From stdpp Require Import base list.
Import ListNotations.

Local Open Scope N_scope.

(** ** JavaScript strings *)

Module JS.

Definition jsstring := list N.

(** A code unit is a 16-bit number. *)
Definition code_unit (c : N) : Prop := c < 65536.

(** ASCII literals of the source, as code units. *)
Definition lit (s : String.string) : jsstring :=
  List.map N_of_ascii (list_ascii_of_string s).
Arguments lit : simpl never.

(** What a function call produces: a value, or a thrown exception. An
    exception carries what the source reads from it: its [message] member
    and its rendering inside a template literal. *)
Record JsError := { err_message : jsstring; err_toString : jsstring }.

Inductive outcome (A : Type) : Type :=
| Returned (a : A)
| Thrown (e : JsError).
Arguments Returned {A} a.
Arguments Thrown {A} e.

Definition bind {A B} (m : outcome A) (k : A -> outcome B) : outcome B :=
  match m with
  | Returned a => k a
  | Thrown e => Thrown e
  end.

(** [try { body } catch (error) { handler }] *)
Definition try_catch {A} (body : outcome A) (handler : JsError -> outcome A)
  : outcome A :=
  match body with
  | Returned a => Returned a
  | Thrown e => handler e
  end.

Definition URIError : JsError :=
  {| err_message := lit "URI malformed";
     err_toString := lit "URIError: URI malformed" |}.

Definition InvalidCharacterError : JsError :=
  {| err_message := lit "The string to be encoded contains characters outside of the Latin1 range.";
     err_toString := lit "InvalidCharacterError: The string to be encoded contains characters outside of the Latin1 range." |}.

(** *** [replace] with a global character-class pattern [/[...]+/g]

    Every maximal run of characters of the class is replaced by [repl].
    [in_run] tells that the previous character belonged to a run whose
    replacement has been emitted already. *)
Fixpoint replace_runs_from (in_run : bool) (cls : N -> bool) (repl : jsstring)
  (s : jsstring) : jsstring :=
  match s with
  | [] => []
  | c :: t =>
      if cls c
      then (if in_run then [] else repl) ++ replace_runs_from true cls repl t
      else c :: replace_runs_from false cls repl t
  end.

Definition replace_runs := replace_runs_from false.

(** [s.replace(/^\//, '')] *)
Definition strip_leading_slash (s : jsstring) : jsstring :=
  match s with
  | c :: t => if c =? 47 then t else s
  | [] => []
  end.

(** *** [trim]

    The characters removed by [trim] are ECMAScript's WhiteSpace and
    LineTerminator code points. *)
Definition isWhiteSpace (c : N) : bool :=
  ((9 <=? c) && (c <=? 13)) || (c =? 32) || (c =? 160) || (c =? 5760)
  || ((8192 <=? c) && (c <=? 8202)) || (c =? 8232) || (c =? 8233)
  || (c =? 8239) || (c =? 8287) || (c =? 12288) || (c =? 65279).

Fixpoint trimStart (s : jsstring) : jsstring :=
  match s with
  | c :: t => if isWhiteSpace c then trimStart t else s
  | [] => []
  end.

Definition trimEnd (s : jsstring) : jsstring := rev (trimStart (rev s)).

Definition trim (s : jsstring) : jsstring := trimEnd (trimStart s).

(** *** [String(n)] for a non-negative integer, and [padStart] *)
Definition digit_unit (d : N) : N := 48 + d.

Fixpoint uint_units (u : Decimal.uint) : jsstring :=
  match u with
  | Decimal.Nil => []
  | Decimal.D0 u => digit_unit 0 :: uint_units u
  | Decimal.D1 u => digit_unit 1 :: uint_units u
  | Decimal.D2 u => digit_unit 2 :: uint_units u
  | Decimal.D3 u => digit_unit 3 :: uint_units u
  | Decimal.D4 u => digit_unit 4 :: uint_units u
  | Decimal.D5 u => digit_unit 5 :: uint_units u
  | Decimal.D6 u => digit_unit 6 :: uint_units u
  | Decimal.D7 u => digit_unit 7 :: uint_units u
  | Decimal.D8 u => digit_unit 8 :: uint_units u
  | Decimal.D9 u => digit_unit 9 :: uint_units u
  end.

Definition String_of_number (n : N) : jsstring := uint_units (N.to_uint n).

(** [s.padStart(len, fill)] for a one-character [fill]. *)
Definition padStart (len : nat) (fill : N) (s : jsstring) : jsstring :=
  repeat fill (len - length s)%nat ++ s.

(** *** [split] and [join] on a one-character separator *)
Fixpoint split (sep : N) (s : jsstring) : list jsstring :=
  match s with
  | [] => [[]]
  | c :: t =>
      if c =? sep then [] :: split sep t
      else match split sep t with
           | seg :: segs => (c :: seg) :: segs
           | [] => [[c]]
           end
  end.

Fixpoint join (sep : N) (segs : list jsstring) : jsstring :=
  match segs with
  | [] => []
  | [seg] => seg
  | seg :: segs' => seg ++ sep :: join sep segs'
  end.

(** *** Hexadecimal digits *)
Definition hexDigit (v : N) : N := if v <? 10 then 48 + v else 55 + v.

Definition hexValue (c : N) : option N :=
  if (48 <=? c) && (c <=? 57) then Some (c - 48)
  else if (65 <=? c) && (c <=? 70) then Some (c - 55)
  else if (97 <=? c) && (c <=? 102) then Some (c - 87)
  else None.

(** A percent sign and two upper-case hexadecimal digits. *)
Definition percentOctet (b : N) : jsstring :=
  [37; hexDigit (b / 16); hexDigit (b mod 16)].

(** Two hexadecimal digits at the head of [s], with what follows them. *)
Definition parseHexOctet (s : jsstring) : option (N * jsstring) :=
  match s with
  | h :: l :: rest =>
      match hexValue h, hexValue l with
      | Some x, Some y => Some (16 * x + y, rest)
      | _, _ => None
      end
  | _ => None
  end.

(** *** UTF-16 and UTF-8 *)
Definition isLeadSurrogate (c : N) : bool := (55296 <=? c) && (c <=? 56319).
Definition isTrailSurrogate (c : N) : bool := (56320 <=? c) && (c <=? 57343).

Definition UTF16SurrogatePairToCodePoint (lead trail : N) : N :=
  (lead - 55296) * 1024 + (trail - 56320) + 65536.

Definition UTF16EncodeCodePoint (cp : N) : jsstring :=
  if cp <=? 65535 then [cp]
  else [(cp - 65536) / 1024 + 55296; (cp - 65536) mod 1024 + 56320].

Definition utf8Octets (cp : N) : list N :=
  if cp <? 128 then [cp]
  else if cp <? 2048 then [192 + cp / 64; 128 + cp mod 64]
  else if cp <? 65536
       then [224 + cp / 4096; 128 + (cp / 64) mod 64; 128 + cp mod 64]
  else [240 + cp / 262144; 128 + (cp / 4096) mod 64;
        128 + (cp / 64) mod 64; 128 + cp mod 64].

(** *** [encodeURIComponent]

    Characters of the unreserved set are copied; any other code point is
    written as the percent-escapes of its UTF-8 octets; an unpaired
    surrogate throws a URIError. *)
Definition uriUnescaped (c : N) : bool :=
  ((65 <=? c) && (c <=? 90)) || ((97 <=? c) && (c <=? 122))
  || ((48 <=? c) && (c <=? 57))
  || (c =? 45) || (c =? 95) || (c =? 46) || (c =? 33) || (c =? 126)
  || (c =? 42) || (c =? 39) || (c =? 40) || (c =? 41).

Definition percentOctets (bs : list N) : jsstring :=
  concat (List.map percentOctet bs).

Fixpoint encodeURIComponent (s : jsstring) : outcome jsstring :=
  match s with
  | [] => Returned []
  | c :: t =>
      if uriUnescaped c then
        bind (encodeURIComponent t) (fun r => Returned (c :: r))
      else if isTrailSurrogate c then Thrown URIError
      else if isLeadSurrogate c then
        match t with
        | d :: t' =>
            if isTrailSurrogate d then
              bind (encodeURIComponent t') (fun r =>
                Returned (percentOctets
                            (utf8Octets (UTF16SurrogatePairToCodePoint c d)) ++ r))
            else Thrown URIError
        | [] => Thrown URIError
        end
      else
        bind (encodeURIComponent t) (fun r =>
          Returned (percentOctets (utf8Octets c) ++ r))
  end.

(** *** [unescape]

    [%uXXXX] and [%XX] with hexadecimal digits become the code unit they
    name; a [%] that starts neither stays as it is. *)
Fixpoint unescape (s : jsstring) : jsstring :=
  match s with
  | [] => []
  | c :: t =>
      if c =? 37 then
        match t with
        | u :: t1 =>
            if u =? 117 then
              match t1 with
              | h1 :: h2 :: h3 :: h4 :: t' =>
                  match hexValue h1, hexValue h2, hexValue h3, hexValue h4 with
                  | Some a, Some b, Some x, Some y =>
                      (4096 * a + 256 * b + 16 * x + y) :: unescape t'
                  | _, _, _, _ => c :: unescape t
                  end
              | _ => c :: unescape t
              end
            else
              match t1 with
              | l :: t' =>
                  match hexValue u, hexValue l with
                  | Some x, Some y => (16 * x + y) :: unescape t'
                  | _, _ => c :: unescape t
                  end
              | [] => c :: unescape t
              end
        | [] => c :: unescape t
        end
      else c :: unescape t
  end.

(** *** [escape]: the inverse direction of [unescape] *)
Definition escapeUnescaped (c : N) : bool :=
  ((65 <=? c) && (c <=? 90)) || ((97 <=? c) && (c <=? 122))
  || ((48 <=? c) && (c <=? 57))
  || (c =? 64) || (c =? 42) || (c =? 95) || (c =? 43) || (c =? 45)
  || (c =? 46) || (c =? 47).

Definition escapeUnit (c : N) : jsstring :=
  if escapeUnescaped c then [c]
  else if c <? 256 then percentOctet c
  else [37; 117; hexDigit (c / 4096); hexDigit ((c / 256) mod 16);
        hexDigit ((c / 16) mod 16); hexDigit (c mod 16)].

Definition escape (s : jsstring) : jsstring := concat (List.map escapeUnit s).

(** *** [btoa] and [atob] *)
Definition base64Char (v : N) : N :=
  if v <? 26 then 65 + v
  else if v <? 52 then 97 + (v - 26)
  else if v <? 62 then 48 + (v - 52)
  else if v =? 62 then 43 else 47.

Definition base64Value (c : N) : option N :=
  if (65 <=? c) && (c <=? 90) then Some (c - 65)
  else if (97 <=? c) && (c <=? 122) then Some (c - 97 + 26)
  else if (48 <=? c) && (c <=? 57) then Some (c - 48 + 52)
  else if c =? 43 then Some 62
  else if c =? 47 then Some 63
  else None.

(** Base64 of a sequence of octets, three octets to four characters, the
    last group padded with [=]. *)
Fixpoint base64Encode (bs : list N) : jsstring :=
  match bs with
  | [] => []
  | [a] => [base64Char (a / 4); base64Char ((a mod 4) * 16); 61; 61]
  | [a; b] =>
      [base64Char (a / 4); base64Char ((a mod 4) * 16 + b / 16);
       base64Char ((b mod 16) * 4); 61]
  | a :: b :: c :: rest =>
      base64Char (a / 4) :: base64Char ((a mod 4) * 16 + b / 16)
      :: base64Char ((b mod 16) * 4 + c / 64) :: base64Char (c mod 64)
      :: base64Encode rest
  end.

(** [btoa] throws on a character above U+00FF. *)
Definition btoa (s : jsstring) : outcome jsstring :=
  if forallb (fun c => c <=? 255) s then Returned (base64Encode s)
  else Thrown InvalidCharacterError.

(** [atob] is the forgiving-base64 decode of the HTML standard. *)
Definition isAsciiWhitespace (c : N) : bool :=
  (c =? 9) || (c =? 10) || (c =? 12) || (c =? 13) || (c =? 32).

Definition stripPadding (s : jsstring) : jsstring :=
  match rev s with
  | p :: q :: r =>
      if p =? 61 then (if q =? 61 then rev r else rev (q :: r)) else s
  | [p] => if p =? 61 then [] else s
  | [] => s
  end.

Fixpoint sextets (s : jsstring) : option (list N) :=
  match s with
  | [] => Some []
  | c :: t =>
      match base64Value c, sextets t with
      | Some v, Some vs => Some (v :: vs)
      | _, _ => None
      end
  end.

Fixpoint base64Decode (vs : list N) : list N :=
  match vs with
  | a :: b :: c :: d :: rest =>
      (a * 4 + b / 16) :: ((b mod 16) * 16 + c / 4) :: ((c mod 4) * 64 + d)
      :: base64Decode rest
  | [a; b; c] => [a * 4 + b / 16; (b mod 16) * 16 + c / 4]
  | [a; b] => [a * 4 + b / 16]
  | _ => []
  end.

Definition atob (data : jsstring) : outcome jsstring :=
  let d := List.filter (fun c => negb (isAsciiWhitespace c)) data in
  let d := if (N.of_nat (length d) mod 4 =? 0) then stripPadding d else d in
  if N.of_nat (length d) mod 4 =? 1 then Thrown InvalidCharacterError
  else match sextets d with
       | Some vs => Returned (base64Decode vs)
       | None => Thrown InvalidCharacterError
       end.

(** *** [decodeURIComponent] *)

(** The number of leading one bits of an octet, for those octets that may
    start a UTF-8 sequence. *)
Definition leadingOnes (b : N) : nat :=
  if b <? 128 then 0
  else if b <? 192 then 1
  else if b <? 224 then 2
  else if b <? 240 then 3
  else if b <? 248 then 4
  else 5.

(** [j] continuation escapes [%XX] at the head of [s]. *)
Fixpoint continuationOctets (j : nat) (s : jsstring)
  : option (list N * jsstring) :=
  match j with
  | O => Some ([], s)
  | S j' =>
      match s with
      | p :: s1 =>
          if p =? 37 then
            match parseHexOctet s1 with
            | Some (b, s2) =>
                match continuationOctets j' s2 with
                | Some (bs, rest) => Some (b :: bs, rest)
                | None => None
                end
            | None => None
            end
          else None
      | [] => None
      end
  end.

Definition isContinuation (b : N) : bool := (128 <=? b) && (b <=? 191).

(** The code point of a well-formed UTF-8 sequence: continuation octets in
    range, shortest form, no surrogate, at most U+10FFFF. *)
Definition utf8CodePoint (octets : list N) : option N :=
  match octets with
  | [b0; b1] =>
      let v := (b0 - 192) * 64 + (b1 - 128) in
      if isContinuation b1 && (128 <=? v) then Some v else None
  | [b0; b1; b2] =>
      let v := (b0 - 224) * 4096 + (b1 - 128) * 64 + (b2 - 128) in
      if isContinuation b1 && isContinuation b2 && (2048 <=? v)
         && negb ((55296 <=? v) && (v <=? 57343))
      then Some v else None
  | [b0; b1; b2; b3] =>
      let v := (b0 - 240) * 262144 + (b1 - 128) * 4096 + (b2 - 128) * 64
               + (b3 - 128) in
      if isContinuation b1 && isContinuation b2 && isContinuation b3
         && (65536 <=? v) && (v <=? 1114111)
      then Some v else None
  | _ => None
  end.

(** The loop of Decode; [fuel] bounds the number of iterations, each of
    which consumes at least one code unit. *)
Fixpoint decodeLoop (fuel : nat) (s : jsstring) : outcome jsstring :=
  match s with
  | [] => Returned []
  | c :: t =>
      match fuel with
      | O => Thrown URIError
      | S fuel' =>
          if c =? 37 then
            match parseHexOctet t with
            | None => Thrown URIError
            | Some (b, rest) =>
                match leadingOnes b with
                | O => bind (decodeLoop fuel' rest) (fun r => Returned (b :: r))
                | S O => Thrown URIError
                | S n' =>
                    if (3 <? n')%nat then Thrown URIError
                    else
                      match continuationOctets n' rest with
                      | None => Thrown URIError
                      | Some (bs, rest') =>
                          match utf8CodePoint (b :: bs) with
                          | None => Thrown URIError
                          | Some v =>
                              bind (decodeLoop fuel' rest') (fun r =>
                                Returned (UTF16EncodeCodePoint v ++ r))
                          end
                      end
                end
            end
          else bind (decodeLoop fuel' t) (fun r => Returned (c :: r))
      end
  end.

Definition decodeURIComponent (s : jsstring) : outcome jsstring :=
  decodeLoop (length s) s.

End JS.

Import JS.

(** ** The types of [types.ts] *)

Record GitHubConfig := {
  token : jsstring;
  owner : jsstring;
  repo : jsstring;
  pathPrefix : jsstring
}.

Inductive Status := pending | crawling | success | error.

Record Chapter := {
  id : N;
  title : jsstring;
  status : Status;
  content : option jsstring
}.

Record NovelMetadata := {
  nm_title : jsstring;
  author : jsstring;
  description : jsstring;
  totalChaptersEstimate : N;
  nm_chapters : list jsstring;
  sources : option (list jsstring)
}.

Inductive LogLevel := INFO | SUCCESS | WARNING | ERROR.

(** A log entry also has a random [id] and a [timestamp]; nothing reads
    them but the display, and they are left out. *)
Record LogEntry := { level : LogLevel; message : jsstring }.

Inductive AppState := setup | search | preview | app_crawling | finished.

(** ** [sanitize] and the file name (App.tsx, lines 165-174) *)

(** The character class of the first pattern: less-than, greater-than,
    colon, double quote, slash, backslash, bar, question mark, star. *)
Definition unsafeChar (c : N) : bool :=
  (c =? 60) || (c =? 62) || (c =? 58) || (c =? 34) || (c =? 47)
  || (c =? 92) || (c =? 124) || (c =? 63) || (c =? 42).

(** The character class of the second pattern: carriage return and line
    feed. *)
Definition lineBreak (c : N) : bool := (c =? 13) || (c =? 10).

(** Line 167: every run of unsafe characters becomes one underscore, every
    run of line breaks is deleted, and the result is trimmed. *)
Definition sanitize (str : jsstring) : jsstring :=
  trim (replace_runs lineBreak [] (replace_runs unsafeChar [95] str)).

(** [`${safeNovelTitle}/${String(chapter.id).padStart(3, '0')}_${safeChapterTitle}.md`] *)
Definition fileName (novelTitle : jsstring) (chapter : Chapter) : jsstring :=
  let safeNovelTitle := sanitize novelTitle in
  let safeChapterTitle := sanitize (title chapter) in
  safeNovelTitle ++ [47] ++ padStart 3 48 (String_of_number (id chapter))
  ++ [95] ++ safeChapterTitle ++ lit ".md".

(** ** [fetchChapterContent] (services/geminiService.ts, lines 69-121) *)

(** What the function reads of the provider's response: [response.text]
    and [response.candidates?.[0]?.groundingMetadata?.groundingChunks],
    each chunk with its [chunk.web?.uri]. *)
Record GroundingChunk := { web_uri : option jsstring }.

Record GenerateContentResponse := {
  text : option jsstring;
  groundingChunks : option (list GroundingChunk)
}.

Definition jsstring_eqb (a b : jsstring) : bool :=
  bool_decide (a = b).

(** A string is truthy when it is defined and not empty. *)
Definition truthy (o : option jsstring) : option jsstring :=
  match o with
  | Some (_ :: _) => o
  | _ => None
  end.

(** [a || b] on strings. *)
Definition orElse (o : option jsstring) (d : jsstring) : jsstring :=
  match truthy o with
  | Some s => s
  | None => d
  end.

(** The loop of lines 99-106: the truthy uris, in order. *)
Fixpoint chunkSources (chunks : list GroundingChunk) : list jsstring :=
  match chunks with
  | [] => []
  | chunk :: rest =>
      match truthy (web_uri chunk) with
      | Some uri => uri :: chunkSources rest
      | None => chunkSources rest
      end
  end.

(** [[...new Set(sources)]]: the first occurrence of each element, in
    insertion order. *)
Fixpoint uniqueFrom (seen : list jsstring) (l : list jsstring) : list jsstring :=
  match l with
  | [] => []
  | x :: rest =>
      if existsb (jsstring_eqb x) seen then uniqueFrom seen rest
      else x :: uniqueFrom (x :: seen) rest
  end.

Definition unique := uniqueFrom [].

Definition noContent : jsstring := lit "Error: No content generated.".

(** The footer of line 113. *)
Definition sourcesFooter (uniqueSources : list jsstring) : jsstring :=
  [10; 10] ++ lit "---" ++ [10] ++ lit "**Sources:**" ++ [10]
  ++ join 10 (List.map (fun s => lit "- <" ++ s ++ lit ">") uniqueSources).

(** [generateContent] is the settled call [ai.models.generateContent(...)]
    of line 89: the response, or what it threw. *)
Definition fetchChapterContent (novelTitle chapterTitle : jsstring)
  (generateContent : outcome GenerateContentResponse) : outcome jsstring :=
  try_catch
    (bind generateContent (fun response =>
       let sources :=
         match groundingChunks response with
         | Some chunks => chunkSources chunks
         | None => []
         end in
       let content := orElse (text response) noContent in
       let content :=
         match sources with
         | [] => content
         | _ :: _ => content ++ sourcesFooter (unique sources)
         end in
       Returned content))
    (fun error =>
       Returned (lit "Error retrieving content for " ++ chapterTitle
                 ++ lit ". " ++ [10; 10] ++ lit "System Error: "
                 ++ err_toString error)).

(** ** [uploadFileToGitHub] (services/githubService.ts, lines 142-215 of the
    services file) *)

Record PutBody := {
  body_message : jsstring;
  body_content : jsstring;
  body_sha : option jsstring
}.

Inductive Request :=
| GET (url authorization : jsstring)
| PUT (url authorization : jsstring) (body : PutBody).

(** What the function reads of the response to the preliminary GET:
    [checkResponse.ok] and [(await checkResponse.json()).sha], the latter
    thrown when the body is not JSON. *)
Record GetResponse := {
  get_ok : bool;
  get_json_sha : outcome (option jsstring)
}.

(** What it reads of the response to the PUT: [ok], [status] and
    [await putResponse.text()]. *)
Record PutResponse := {
  put_ok : bool;
  put_status : N;
  put_text : outcome jsstring
}.

(** The host during one call: how the two [fetch]es settle, and
    [JSON.parse(errText).message]. *)
Record Host := {
  fetchGET : jsstring -> jsstring -> outcome GetResponse;
  fetchPUT : jsstring -> jsstring -> PutBody -> outcome PutResponse;
  JSON_parse_message : jsstring -> outcome (option jsstring)
}.

Record UploadResult := { ur_success : bool; ur_message : option jsstring }.

Definition isSlash (c : N) : bool := c =? 47.

(** Line 149: runs of slashes collapse to one slash, then one leading
    slash is dropped. *)
Definition rawPath (config : GitHubConfig) (fileName : jsstring) : jsstring :=
  strip_leading_slash (replace_runs isSlash [47] (pathPrefix config ++ fileName)).

Fixpoint mapEncode (segs : list jsstring) : outcome (list jsstring) :=
  match segs with
  | [] => Returned []
  | seg :: rest =>
      bind (encodeURIComponent seg) (fun e =>
        bind (mapEncode rest) (fun es => Returned (e :: es)))
  end.

(** Line 153: split at the slashes, encode each segment, join again. *)
Definition encodedPath (rawPath : jsstring) : outcome jsstring :=
  bind (mapEncode (split 47 rawPath)) (fun es => Returned (join 47 es)).

(** Line 155. *)
Definition contentsUrl (config : GitHubConfig) (encodedPath : jsstring) : jsstring :=
  lit "https://api.github.com/repos/" ++ owner config ++ [47] ++ repo config
  ++ lit "/contents/" ++ encodedPath.

(** Lines 158-172: the version token of the file, when the GET finds one. *)
Definition existingSha (host : Host) (url authorization : jsstring)
  : option jsstring :=
  match
    try_catch
      (bind (fetchGET host url authorization) (fun checkResponse =>
         if get_ok checkResponse
         then get_json_sha checkResponse
         else Returned None))
      (fun _ => Returned None)
  with
  | Returned sha => sha
  | Thrown _ => None
  end.

(** Line 176: [btoa(unescape(encodeURIComponent(content)))]. *)
Definition base64Content (content : jsstring) : outcome jsstring :=
  bind (encodeURIComponent content) (fun e => btoa (unescape e)).

(** Lines 180-186: the sha is added when it is truthy. *)
Definition putBody (commitMessage base64 : jsstring) (sha : option jsstring)
  : PutBody :=
  {| body_message := commitMessage;
     body_content := base64;
     body_sha := truthy sha |}.

(** Lines 198-210, once the PUT has answered. *)
Definition putResult (host : Host) (putResponse : PutResponse)
  : outcome UploadResult :=
  if negb (put_ok putResponse) then
    bind (put_text putResponse) (fun errText =>
      let friendlyError := lit "HTTP " ++ String_of_number (put_status putResponse) in
      let friendlyError :=
        match JSON_parse_message host errText with
        | Returned m => orElse m friendlyError
        | Thrown _ => friendlyError
        end in
      Returned {| ur_success := false; ur_message := Some friendlyError |})
  else Returned {| ur_success := true; ur_message := None |}.

(** The call: the requests it sends, in order, and how it settles. *)
Definition uploadFileToGitHub (host : Host) (config : GitHubConfig)
  (fileName content commitMessage : jsstring)
  : list Request * outcome UploadResult :=
  match encodedPath (rawPath config fileName) with
  | Thrown e => ([], Thrown e)
  | Returned path =>
      let url := contentsUrl config path in
      let authorization := lit "Bearer " ++ token config in
      let sha := existingSha host url authorization in
      match base64Content content with
      | Thrown e => ([GET url authorization], Thrown e)
      | Returned base64 =>
          let body := putBody commitMessage base64 sha in
          ([GET url authorization; PUT url authorization body],
           try_catch
             (bind (fetchPUT host url authorization body) (putResult host))
             (fun error =>
                Returned {| ur_success := false;
                            ur_message :=
                              Some (orElse (Some (err_message error))
                                      (lit "Network error")) |}))
      end
  end.

(** ** The crawl controller (App.tsx)

    The component keeps its data in React state ([chapters],
    [crawlingActive], [appState], [progress], [logs], [novel], [config]).
    The crawler effect (lines 127-220) has the dependency array
    [[crawlingActive, chapters, config, novel]]: after every render in
    which one of them changed, React runs the cleanup of the previous
    effect instance (line 217, [clearTimeout(timer)]) and then the effect
    body again, which arms a new 500 ms timer (line 214) for a new
    [processNextChapter] closure.  That closure reads the constants of the
    render it was created in; they are collected in [Closure].

    [processNextChapter] is asynchronous: it runs from the timer to the
    [await] of line 157, from there to the [await] of line 176, and from
    there to its end, where it arms a 2000 ms timer for itself (line 207).
    Between these three stretches the event loop runs whatever else is
    due.  The controller is therefore a transition system whose events are
    the two buttons, the timers and the settling of the two awaited
    calls. *)

#[global] Instance Status_eq_dec : EqDecision Status.
Proof. solve_decision. Defined.

Record Closure := {
  c_chapters : list Chapter;
  c_novel : option NovelMetadata;
  c_config : GitHubConfig;
  c_crawlingActive : bool
}.

(** An invocation of [processNextChapter] suspended at an [await], with
    its constants [chapterIndex] (line 136) and [chapter] (line 145). *)
Record Tick := {
  closure : Closure;
  chapterIndex : nat;
  chapter : Chapter
}.

Record App := {
  config : GitHubConfig;
  appState : AppState;
  logs : list LogEntry;
  novel : option NovelMetadata;
  chapters : list Chapter;
  crawlingActive : bool;
  progress : Q;
  (** [isMountedRef.current] *)
  isMounted : bool;
  (** the timer of the live effect instance (line 214), which the next
      cleanup clears *)
  effectTimer : option Closure;
  (** the timers armed at line 207; the effect instance whose [timer]
      variable holds them was cleaned up when the invocation's own
      [setChapters] of line 148 changed a dependency, so nothing clears
      them *)
  lateTimers : list Closure;
  (** invocations suspended at line 157 *)
  fetching : list Tick;
  (** invocations suspended at line 176, with their [content] *)
  uploading : list (Tick * jsstring);
  (** the HTTP requests sent so far *)
  requests : list Request
}.

Definition closureOf (s : App) : Closure :=
  {| c_chapters := chapters s; c_novel := novel s; c_config := config s;
     c_crawlingActive := crawlingActive s |}.

Definition addLog (message : jsstring) (level : LogLevel) (s : App) : App :=
  {| config := config s; appState := appState s;
     logs := logs s ++ [{| level := level; message := message |}];
     novel := novel s; chapters := chapters s;
     crawlingActive := crawlingActive s; progress := progress s;
     isMounted := isMounted s; effectTimer := effectTimer s;
     lateTimers := lateTimers s; fetching := fetching s;
     uploading := uploading s; requests := requests s |}.

Definition setAppState (a : AppState) (s : App) : App :=
  {| config := config s; appState := a; logs := logs s; novel := novel s;
     chapters := chapters s; crawlingActive := crawlingActive s;
     progress := progress s; isMounted := isMounted s;
     effectTimer := effectTimer s; lateTimers := lateTimers s;
     fetching := fetching s; uploading := uploading s;
     requests := requests s |}.

Definition setCrawlingActive (b : bool) (s : App) : App :=
  {| config := config s; appState := appState s; logs := logs s;
     novel := novel s; chapters := chapters s; crawlingActive := b;
     progress := progress s; isMounted := isMounted s;
     effectTimer := effectTimer s; lateTimers := lateTimers s;
     fetching := fetching s; uploading := uploading s;
     requests := requests s |}.

Definition setChapters (l : list Chapter) (s : App) : App :=
  {| config := config s; appState := appState s; logs := logs s;
     novel := novel s; chapters := l; crawlingActive := crawlingActive s;
     progress := progress s; isMounted := isMounted s;
     effectTimer := effectTimer s; lateTimers := lateTimers s;
     fetching := fetching s; uploading := uploading s;
     requests := requests s |}.

Definition setProgress (p : Q) (s : App) : App :=
  {| config := config s; appState := appState s; logs := logs s;
     novel := novel s; chapters := chapters s;
     crawlingActive := crawlingActive s; progress := p;
     isMounted := isMounted s; effectTimer := effectTimer s;
     lateTimers := lateTimers s; fetching := fetching s;
     uploading := uploading s; requests := requests s |}.

Definition setMounted (b : bool) (s : App) : App :=
  {| config := config s; appState := appState s; logs := logs s;
     novel := novel s; chapters := chapters s;
     crawlingActive := crawlingActive s; progress := progress s;
     isMounted := b; effectTimer := effectTimer s;
     lateTimers := lateTimers s; fetching := fetching s;
     uploading := uploading s; requests := requests s |}.

Definition setEffectTimer (t : option Closure) (s : App) : App :=
  {| config := config s; appState := appState s; logs := logs s;
     novel := novel s; chapters := chapters s;
     crawlingActive := crawlingActive s; progress := progress s;
     isMounted := isMounted s; effectTimer := t;
     lateTimers := lateTimers s; fetching := fetching s;
     uploading := uploading s; requests := requests s |}.

Definition setLateTimers (l : list Closure) (s : App) : App :=
  {| config := config s; appState := appState s; logs := logs s;
     novel := novel s; chapters := chapters s;
     crawlingActive := crawlingActive s; progress := progress s;
     isMounted := isMounted s; effectTimer := effectTimer s;
     lateTimers := l; fetching := fetching s;
     uploading := uploading s; requests := requests s |}.

Definition setFetching (l : list Tick) (s : App) : App :=
  {| config := config s; appState := appState s; logs := logs s;
     novel := novel s; chapters := chapters s;
     crawlingActive := crawlingActive s; progress := progress s;
     isMounted := isMounted s; effectTimer := effectTimer s;
     lateTimers := lateTimers s; fetching := l;
     uploading := uploading s; requests := requests s |}.

Definition setUploading (l : list (Tick * jsstring)) (s : App) : App :=
  {| config := config s; appState := appState s; logs := logs s;
     novel := novel s; chapters := chapters s;
     crawlingActive := crawlingActive s; progress := progress s;
     isMounted := isMounted s; effectTimer := effectTimer s;
     lateTimers := lateTimers s; fetching := fetching s;
     uploading := l; requests := requests s |}.

Definition addRequests (l : list Request) (s : App) : App :=
  {| config := config s; appState := appState s; logs := logs s;
     novel := novel s; chapters := chapters s;
     crawlingActive := crawlingActive s; progress := progress s;
     isMounted := isMounted s; effectTimer := effectTimer s;
     lateTimers := lateTimers s; fetching := fetching s;
     uploading := uploading s; requests := requests s ++ l |}.

(** Lines 97-101: the queue made from the chapter titles of the metadata. *)
Definition initChapters (titles : list jsstring) : list Chapter :=
  imap (fun idx title =>
          {| id := N.of_nat idx + 1; title := title; status := pending;
             content := None |}) titles.

(** The state in which the Start button is offered: a novel has been
    found (lines 92-103) and nothing runs yet. *)
Definition previewOf (cfg : GitHubConfig) (result : NovelMetadata) : App :=
  {| config := cfg; appState := preview; logs := [];
     novel := Some result; chapters := initChapters (nm_chapters result);
     crawlingActive := false; progress := 0%Q; isMounted := true;
     effectTimer := None; lateTimers := []; fetching := [];
     uploading := []; requests := [] |}.

(** *** The effect (lines 127-131 and 214-218)

    The cleanup of the previous instance clears its timer; the body arms a
    timer for the closure of the current render, or returns at line 128. *)
Definition runEffect (s : App) : App :=
  match crawlingActive s, appState s with
  | true, app_crawling => setEffectTimer (Some (closureOf s)) s
  | _, _ => setEffectTimer None s
  end.

(** The render after a handler or a stretch of [processNextChapter]:
    [chaptersSet] tells that [setChapters] was called (it always stores a
    fresh array); [before] is the state of the previous render.  [config]
    and [novel] do not change in a crawl. *)
Definition render (chaptersSet : bool) (before s : App) : App :=
  if chaptersSet || negb (eqb (crawlingActive before) (crawlingActive s))
  then runEffect s else s.

(** *** The buttons (lines 114-124) *)
Definition startCrawling (s : App) : App :=
  match novel s, chapters s with
  | None, _ | _, [] => s
  | Some _, _ :: _ =>
      render false s
        (addLog (lit "Starting batch crawl process...") INFO
           (setCrawlingActive true (setAppState app_crawling s)))
  end.

Definition stopCrawling (s : App) : App :=
  render false s
    (addLog (lit "Crawling paused by user.") WARNING
       (setCrawlingActive false s)).

(** *** [processNextChapter] (lines 132-211) *)

Definition isTerminal (c : Chapter) : bool :=
  match status c with success | error => true | _ => false end.

(** [{ ...c, status: st }] *)
Definition withStatus (st : Status) (c : Chapter) : Chapter :=
  {| id := id c; title := title c; status := st; content := content c |}.

(** [{ ...c, status: 'success', content }] *)
Definition withSuccess (text : jsstring) (c : Chapter) : Chapter :=
  {| id := id c; title := title c; status := success; content := Some text |}.

(** The updater [prev => { const next = [...prev]; next[i] = f(next[i]);
    return next }].  For [i] outside the array JavaScript would append an
    object that has neither [id] nor [title], which is not a [Chapter]; the
    model has no such state, and [tick_index_in_queue] below shows that a
    crawl never asks for it. *)
Definition updateAt (i : nat) (f : Chapter -> Chapter) (prev : list Chapter)
  : option (list Chapter) :=
  match prev !! i with
  | Some c => Some (<[i := f c]> prev)
  | None => None
  end.

(** Lines 133-157, up to the first [await]. *)
Definition processNextChapter (cl : Closure) (s : App) : option App :=
  if negb (isMounted s) then Some s
  else
    match list_find (fun c => status c = pending) (c_chapters cl) with
    | None =>
        Some (render false s
                (setAppState finished
                   (setCrawlingActive false
                      (addLog (lit "All scheduled chapters processed.") SUCCESS s))))
    | Some (chapterIndex, chapter) =>
        match updateAt chapterIndex (withStatus crawling) (chapters s) with
        | None => None
        | Some next =>
            Some (render true s
                    (setFetching
                       (fetching s ++
                        [{| closure := cl; chapterIndex := chapterIndex;
                            chapter := chapter |}])
                       (addLog (lit "Fetching content: " ++ title chapter) INFO
                          (setChapters next s))))
        end
    end.

(** Lines 157-181: [fetchChapterContent] has settled.  When [novel] is
    null, [novel!.title] throws and the invocation ends there, as it does
    when the awaited call throws. *)
Definition afterFetch (t : Tick) (generateContent : outcome GenerateContentResponse)
  (s : App) : App :=
  match c_novel (closure t) with
  | None => s
  | Some n =>
      match fetchChapterContent (nm_title n) (title (chapter t)) generateContent with
      | Thrown _ => s
      | Returned text =>
          if isMounted s then
            setUploading (uploading s ++ [(t, text)])
              (addLog (lit "Uploading to GitHub: " ++ title (chapter t)) INFO s)
          else s
      end
  end.

(** The template of line 193 writes an undefined [message] as the word
    undefined. *)
Definition showMessage (m : option jsstring) : jsstring :=
  match m with
  | Some m => m
  | None => lit "undefined"
  end.

Definition countTerminal (l : list Chapter) : nat :=
  length (List.filter isTerminal l).

(** Line 203.  JavaScript computes the quotient in floating point; the
    model keeps the exact rational. *)
Definition progressOf (completed total : nat) : Q :=
  (inject_Z (Z.of_nat completed) / inject_Z (Z.of_nat total)) * 100.

(** Lines 176-209: [uploadFileToGitHub] is called and has settled. *)
Definition afterUpload (t : Tick) (text : jsstring) (host : Host) (s : App)
  : option App :=
  match c_novel (closure t) with
  | None => Some s
  | Some n =>
      let cl := closure t in
      let name := fileName (nm_title n) (chapter t) in
      let commitMessage :=
        lit "Add " ++ title (chapter t) ++ lit " to " ++ nm_title n in
      let '(sent, settled) :=
        uploadFileToGitHub host (c_config cl) name text commitMessage in
      let s := addRequests sent s in
      match settled with
      | Thrown _ => Some s
      | Returned uploadResult =>
          if isMounted s then
            let logged :=
              if ur_success uploadResult
              then addLog (lit "Saved " ++ title (chapter t) ++ lit " successfully.")
                     SUCCESS s
              else addLog (lit "Failed to save " ++ title (chapter t) ++ lit ": "
                           ++ showMessage (ur_message uploadResult)) ERROR s in
            let f := if ur_success uploadResult
                     then withSuccess text else withStatus error in
            match updateAt (chapterIndex t) f (chapters s) with
            | None => None
            | Some next =>
                let completed := (countTerminal (c_chapters cl) + 1)%nat in
                let s' :=
                  setProgress (progressOf completed (length (c_chapters cl)))
                    (setChapters next logged) in
                let s' :=
                  if c_crawlingActive cl
                  then setLateTimers (lateTimers s' ++ [cl]) s' else s' in
                Some (render true s s')
            end
          else Some s
      end
  end.

(** *** The events

    [ClickStart] and [ClickPause] are the two buttons (the page offers
    Start in the preview state and Pause while [appState] is crawling;
    the handlers themselves do not look at [appState]).  [EffectTimer] is
    the timer of line 214 running out, [LateTimer k] the [k]-th pending
    timer of line 207.  [FetchSettled k r] resumes the [k]-th invocation
    awaiting line 157 with the settled provider call [r], and
    [UploadSettled k host] the [k]-th invocation awaiting line 176, [host]
    being what the network did during the upload.  Time is left out: a
    run lists the events in the order in which they happen. *)
Inductive Event :=
| ClickStart
| ClickPause
| EffectTimer
| LateTimer (k : nat)
| FetchSettled (k : nat) (generateContent : outcome GenerateContentResponse)
| UploadSettled (k : nat) (host : Host)
| Unmount.

(** One event; [None] when the event cannot happen in [s]. *)
Definition step (e : Event) (s : App) : option App :=
  match e with
  | ClickStart => if isMounted s then Some (startCrawling s) else None
  | ClickPause => if isMounted s then Some (stopCrawling s) else None
  | EffectTimer =>
      match effectTimer s with
      | Some cl => processNextChapter cl (setEffectTimer None s)
      | None => None
      end
  | LateTimer k =>
      match lateTimers s !! k with
      | Some cl => processNextChapter cl (setLateTimers (delete k (lateTimers s)) s)
      | None => None
      end
  | FetchSettled k generateContent =>
      match fetching s !! k with
      | Some t => Some (afterFetch t generateContent (setFetching (delete k (fetching s)) s))
      | None => None
      end
  | UploadSettled k host =>
      match uploading s !! k with
      | Some (t, text) =>
          afterUpload t text host (setUploading (delete k (uploading s)) s)
      | None => None
      end
  | Unmount =>
      if isMounted s then Some (setEffectTimer None (setMounted false s)) else None
  end.

Fixpoint run (es : list Event) (s : App) : option App :=
  match es with
  | [] => Some s
  | e :: es' =>
      match step e s with
      | Some s' => run es' s'
      | None => None
      end
  end.

(** A state of a crawl: reached from the preview of some novel. *)
Definition reachable (s : App) : Prop :=
  exists cfg result es, run es (previewOf cfg result) = Some s.

(** ** Predicates used in the statements *)

(** A character that [sanitize] does not look for. *)
Definition plainChar (c : N) : bool := negb (unsafeChar c) && negb (lineBreak c).

(** Neither the first nor the last character is white space. *)
Definition startsClean (s : jsstring) : Prop :=
  match s with
  | c :: _ => isWhiteSpace c = false
  | [] => True
  end.

Definition trimmed (s : jsstring) : Prop := startsClean s /\ startsClean (rev s).

(** The example of the specification: the novel title of four Chinese
    characters, chapter 7 and the default path prefix. *)
Definition douluoDalu : jsstring := [26007; 32599; 22823; 38470].

Definition chapter7 : Chapter :=
  {| id := 7; title := lit "Chapter 7: Awakening"; status := pending;
     content := None |}.

Definition DEFAULT_CONFIG : GitHubConfig :=
  {| token := []; owner := lit "liquanlianshi"; repo := lit "novels";
     pathPrefix := lit "novels/my-novels/" |}.

(** A string is well formed when every code unit has 16 bits and every
    surrogate is half of a pair ([String.prototype.isWellFormed]). *)
Fixpoint isWellFormed (s : jsstring) : bool :=
  match s with
  | [] => true
  | c :: t =>
      if isTrailSurrogate c then false
      else if isLeadSurrogate c then
        match t with
        | d :: t' => isTrailSurrogate d && isWellFormed t'
        | [] => false
        end
      else (c <? 65536) && isWellFormed t
  end.

(** What a percent-encoded segment is made of: unreserved characters and
    percent signs.  The slash, the other reserved characters of a URI and
    everything above U+007E are not among them. *)
Definition uriSafe (c : N) : bool := uriUnescaped c || (c =? 37).

Definition nonEmpty (s : jsstring) : bool :=
  match s with [] => false | _ :: _ => true end.

(** The segments of a normalised path: the non-empty segments, and the last
    segment whatever it is. *)
Definition normalSegments (segs : list jsstring) : list jsstring :=
  List.filter nonEmpty (removelast segs) ++ [List.last segs []].

(** The UTF-8 octets of a string, code point by code point. *)
Fixpoint utf8Bytes (s : jsstring) : list N :=
  match s with
  | [] => []
  | c :: t =>
      if isLeadSurrogate c then
        match t with
        | d :: t' => utf8Octets (UTF16SurrogatePairToCodePoint c d) ++ utf8Bytes t'
        | [] => utf8Octets c
        end
      else utf8Octets c ++ utf8Bytes t
  end.

(** Two hosts for the examples.  For [createdHost] the file does not exist
    yet: the GET answers 404 and the PUT answers 201.  For [listingHost] the
    path names a directory: the GET answers 200 with a JSON array, which has
    no [sha] member, and the PUT is refused with 422. *)
Definition createdHost : Host :=
  {| fetchGET := fun _ _ =>
       Returned {| get_ok := false; get_json_sha := Returned None |};
     fetchPUT := fun _ _ _ =>
       Returned {| put_ok := true; put_status := 201; put_text := Returned [] |};
     JSON_parse_message := fun _ => Returned None |}.

Definition listingHost : Host :=
  {| fetchGET := fun _ _ =>
       Returned {| get_ok := true; get_json_sha := Returned None |};
     fetchPUT := fun _ _ _ =>
       Returned {| put_ok := false; put_status := 422; put_text := Returned [] |};
     JSON_parse_message := fun _ => Thrown URIError |}.

(** The sha member of the body of the PUT request among [sent]. *)
Definition sentSha (sent : list Request) : option jsstring :=
  match sent with
  | [GET _ _; PUT _ _ body] => body_sha body
  | _ => None
  end.

(** What stays true of the closures and suspended invocations of a crawl
    over a queue of [n] chapters of the novel [result]. *)
Definition closureOK (n : nat) (result : NovelMetadata) (cl : Closure) : Prop :=
  length (c_chapters cl) = n /\ c_novel cl = Some result.

Definition tickOK (n : nat) (result : NovelMetadata) (t : Tick) : Prop :=
  (chapterIndex t < n)%nat /\ closureOK n result (closure t)
  /\ c_chapters (closure t) !! chapterIndex t = Some (chapter t)
  /\ status (chapter t) = pending.

Definition crawlInvariant (n : nat) (result : NovelMetadata) (s : App) : Prop :=
  length (chapters s) = n
  /\ novel s = Some result
  /\ (forall cl, effectTimer s = Some cl -> closureOK n result cl)
  /\ Forall (closureOK n result) (lateTimers s)
  /\ Forall (tickOK n result) (fetching s)
  /\ Forall (fun u => tickOK n result (fst u)) (uploading s).

(** A novel with a queue of two chapters, and a provider that answers. *)
Definition twoChapters : NovelMetadata :=
  {| nm_title := douluoDalu; author := lit "author"; description := [];
     totalChaptersEstimate := 2; nm_chapters := [lit "Ch1"; lit "Ch2"];
     sources := None |}.

Definition someText : outcome GenerateContentResponse :=
  Returned {| text := Some (lit "# Ch"); groundingChunks := None |}.

(** The crawl of [twoChapters] when the first chapter has been fetched and
    its upload is under way, the suspended invocation, and the result of an
    upload that [listingHost] refuses. *)
Definition uploadingState : App :=
  Eval vm_compute in
    default (previewOf DEFAULT_CONFIG twoChapters)
      (run [ClickStart; EffectTimer; FetchSettled 0 someText]
         (previewOf DEFAULT_CONFIG twoChapters)).

Definition uploadingTick : Tick * jsstring :=
  Eval vm_compute in
    default ({| closure := closureOf uploadingState; chapterIndex := 0;
                chapter := chapter7 |}, [])
      (uploading uploadingState !! 0%nat).


(** The decoding the specification describes for the stored content:
    base64-decode, then undo the percent-encoding trick, that is
    [decodeURIComponent(escape(atob(b)))]. *)
Definition decodeBase64Content (b : jsstring) : outcome jsstring :=
  bind (atob b) (fun octets => decodeURIComponent (escape octets)).

(** The base64 characters of a sequence of octets without the padding, and
    the padding. *)
Fixpoint base64Body (bs : list N) : jsstring :=
  match bs with
  | [] => []
  | [a] => [base64Char (a / 4); base64Char ((a mod 4) * 16)]
  | [a; b] =>
      [base64Char (a / 4); base64Char ((a mod 4) * 16 + b / 16);
       base64Char ((b mod 16) * 4)]
  | a :: b :: c :: rest =>
      base64Char (a / 4) :: base64Char ((a mod 4) * 16 + b / 16)
      :: base64Char ((b mod 16) * 4 + c / 64) :: base64Char (c mod 64)
      :: base64Body rest
  end.

Fixpoint base64Padding (bs : list N) : jsstring :=
  match bs with
  | [] => []
  | [_] => [61; 61]
  | [_; _] => [61]
  | _ :: _ :: _ :: rest => base64Padding rest
  end.

(** A text with ASCII, a Chinese character, a character outside the basic
    plane (a surrogate pair), a percent sign and an accented letter. *)
Definition mixedText : jsstring :=
  lit "Hi " ++ [26007; 55357; 56832; 37; 64; 233].

(** The closure of the armed effect timer has the live queue. *)
Definition effectTimerLive (s : App) : Prop :=
  forall cl, effectTimer s = Some cl -> c_chapters cl = chapters s.

(** Three runs of the crawl of [twoChapters].

    [overlappingRun]: the provider takes longer than the 500 ms of the
    effect timer.  At 0.5 s the first tick marks the first chapter
    crawling; that [setChapters] re-arms the effect, so at 1.0 s a second
    tick marks the second chapter crawling while the first is still
    awaited, and at 1.5 s a third tick finds nothing pending and ends the
    session.  Then the two fetches and the two uploads settle.  2000 ms
    after the first upload the timer of line 207 is due.

    [sequentialRun]: every call settles before the next timer.  Tick at
    0.5 s, first chapter saved at 0.9 s, tick at 1.4 s, second chapter
    saved at 1.8 s, tick at 2.3 s ending the session.  At 2.9 s the timer
    that the first tick armed at line 207 is due.

    [restartedRun]: tick at 0.5 s, first chapter saved at 0.9 s, the crawl
    paused at 1.0 s and started again at 1.2 s.  The effect timer is due at
    1.7 s and the timer of line 207 at 2.9 s. *)
Definition overlappingRun : list Event :=
  [ClickStart; EffectTimer; EffectTimer; EffectTimer;
   FetchSettled 0 someText; FetchSettled 0 someText;
   UploadSettled 0 createdHost; UploadSettled 0 createdHost].

Definition sequentialRun : list Event :=
  [ClickStart; EffectTimer; FetchSettled 0 someText;
   UploadSettled 0 createdHost; EffectTimer; FetchSettled 0 someText;
   UploadSettled 0 createdHost; EffectTimer].

Definition restartedRun : list Event :=
  [ClickStart; EffectTimer; FetchSettled 0 someText;
   UploadSettled 0 createdHost; ClickPause; ClickStart].

(** A string of decimal digits read back as a decimal number. *)
Fixpoint unitsToUint (s : jsstring) : option Decimal.uint :=
  match s with
  | [] => Some Decimal.Nil
  | c :: t =>
      match unitsToUint t with
      | None => None
      | Some u =>
          if c =? 48 then Some (Decimal.D0 u)
          else if c =? 49 then Some (Decimal.D1 u)
          else if c =? 50 then Some (Decimal.D2 u)
          else if c =? 51 then Some (Decimal.D3 u)
          else if c =? 52 then Some (Decimal.D4 u)
          else if c =? 53 then Some (Decimal.D5 u)
          else if c =? 54 then Some (Decimal.D6 u)
          else if c =? 55 then Some (Decimal.D7 u)
          else if c =? 56 then Some (Decimal.D8 u)
          else if c =? 57 then Some (Decimal.D9 u)
          else None
      end
  end.

(** Chapter 7 again, with a question mark where [chapter7] has a colon. *)
Definition chapter7asked : Chapter :=
  {| id := 7; title := lit "Chapter 7? Awakening"; status := pending;
     content := None |}.

(** A configuration with another path prefix. *)
Definition withPathPrefix (config : GitHubConfig) (p : jsstring) : GitHubConfig :=
  {| token := token config; owner := owner config; repo := repo config;
     pathPrefix := p |}.

(** One of the requests is a PUT. *)
Definition sendsPut (sent : list Request) : bool :=
  existsb (fun r => match r with PUT _ _ _ => true | GET _ _ => false end) sent.


(** The timer that the effect arms after a render of [s] (lines 128 and
    214): the closure of that render while the crawl is active, none
    otherwise. *)
Definition armed (s : App) : option Closure :=
  match crawlingActive s, appState s with
  | true, app_crawling => Some (closureOf s)
  | _, _ => None
  end.












(** More states and values of the crawl of [twoChapters]: the first
    chapter being fetched, being uploaded and saved; the crawl paused; the
    component unmounted while the first chapter is fetched. *)
Definition fetchingState : App :=
  Eval vm_compute in
    default (previewOf DEFAULT_CONFIG twoChapters)
      (run [ClickStart; EffectTimer] (previewOf DEFAULT_CONFIG twoChapters)).

Definition fetchingTick : Tick :=
  Eval vm_compute in default (fst uploadingTick) (fetching fetchingState !! 0%nat).





Definition unmountedState : App :=
  Eval vm_compute in
    default (previewOf DEFAULT_CONFIG twoChapters)
      (run [ClickStart; EffectTimer; Unmount]
         (previewOf DEFAULT_CONFIG twoChapters)).

Definition unmountedLater : App :=
  Eval vm_compute in
    default unmountedState (run [FetchSettled 0 someText] unmountedState).

(** A provider that fails, and a novel for which no chapter title was
    found. *)
Definition quotaError : JsError :=
  {| err_message := lit "quota exceeded";
     err_toString := lit "Error: quota exceeded" |}.


(** ** [searchNovelMetadata] (services/geminiService.ts, lines 10-67)

    *** The regular expression of line 53

    A pattern is matched as ECMAScript prescribes, by matchers that take
    the continuation of the match: a greedy quantifier tries one more
    repetition before it tries the continuation, a lazy one tries the
    continuation first, and an optional group is tried before its absence.
    The result of a successful match is the text of the capture group. *)
Fixpoint matchLiteral {R} (pat : jsstring) (k : jsstring -> option R)
  (s : jsstring) : option R :=
  match pat with
  | [] => k s
  | p :: pat' =>
      match s with
      | c :: t => if c =? p then matchLiteral pat' k t else None
      | [] => None
      end
  end.

(** [(?:A)?] *)
Definition matchOptional {R}
  (m : (jsstring -> option R) -> jsstring -> option R)
  (k : jsstring -> option R) (s : jsstring) : option R :=
  match m k s with
  | Some r => Some r
  | None => k s
  end.

(** [C*] for a character class [C] *)
Fixpoint matchStarGreedy {R} (cls : N -> bool) (k : jsstring -> option R)
  (s : jsstring) : option R :=
  match s with
  | c :: t =>
      if cls c then
        match matchStarGreedy cls k t with
        | Some r => Some r
        | None => k s
        end
      else k s
  | [] => k s
  end.

(** [(C*?)]: the continuation is given the captured text. *)
Fixpoint matchStarLazy {R} (cls : N -> bool)
  (k : jsstring -> jsstring -> option R) (captured s : jsstring) : option R :=
  match k captured s with
  | Some r => Some r
  | None =>
      match s with
      | c :: t => if cls c then matchStarLazy cls k (captured ++ [c]) t else None
      | [] => None
      end
  end.

(** The pattern of line 53 at the start of [s]: three backticks, an
    optional [json], white space, the captured text, white space, three
    backticks.  [\s] is the class of [isWhiteSpace], and [[\s\S]] is every
    code unit. *)
Definition fenceAt (s : jsstring) : option jsstring :=
  matchLiteral (lit "```")
    (matchOptional (matchLiteral (lit "json"))
       (matchStarGreedy isWhiteSpace
          (matchStarLazy (fun _ => true)
             (fun captured =>
                matchStarGreedy isWhiteSpace
                  (matchLiteral (lit "```") (fun _ => Some captured)))
             [])))
    s.

(** [jsonStr.match(...)] without the global flag: the match at the first
    index at which there is one; the result is [match[1]]. *)
Fixpoint fenceMatch (s : jsstring) : option jsstring :=
  match fenceAt s with
  | Some captured => Some captured
  | None =>
      match s with
      | _ :: t => fenceMatch t
      | [] => None
      end
  end.

(** Lines 51-56: the string that is given to [JSON.parse]. *)
Definition jsonStr (responseText : jsstring) : jsstring :=
  let trimmed := trim responseText in
  match fenceMatch trimmed with
  | Some captured => captured
  | None => trimmed
  end.

(** The function.  What [JSON.parse] returns is not looked at before it is
    returned, so the model is given the parser and the assignment of line
    59 for any type [J] of parsed values; both can throw. *)
Definition searchNovelMetadata {J : Type}
  (JSON_parse : jsstring -> outcome J)
  (assignSources : J -> list jsstring -> outcome J)
  (generateContent : outcome GenerateContentResponse) : outcome (option J) :=
  try_catch
    (bind generateContent (fun response =>
       let sources :=
         match groundingChunks response with
         | Some chunks => chunkSources chunks
         | None => []
         end in
       match truthy (text response) with
       | Some responseText =>
           bind (JSON_parse (jsonStr responseText)) (fun metadata =>
             bind (assignSources metadata (unique sources)) (fun metadata =>
               Returned (Some metadata)))
       | None => Returned None
       end))
    (fun error => Returned None).

(** A string starts with the literal [pat]. *)
Definition startsWith (pat s : jsstring) : bool :=
  match matchLiteral pat (fun _ => Some tt) s with
  | Some _ => true
  | None => false
  end.

(** The part of the pattern after the capture group: white space and three
    backticks. *)
Definition closing (captured : jsstring) : jsstring -> option jsstring :=
  matchStarGreedy isWhiteSpace (matchLiteral (lit "```") (fun _ => Some captured)).

(** An answer of the provider with the JSON in a code block, and the JSON
    in it. *)
Definition jsonBlock : jsstring :=
  [123; 34] ++ lit "title" ++ [34; 58; 34] ++ lit "T" ++ [34; 125].

Definition fencedAnswer : jsstring :=
  lit "Here it is:" ++ [10] ++ lit "```" ++ lit "json" ++ [10]
  ++ jsonBlock ++ [10] ++ lit "```" ++ [10].

(** Three backticks in a row somewhere in [s]. *)
Fixpoint containsFence (s : jsstring) : bool :=
  startsWith (lit "```") s
  || match s with
     | _ :: t => containsFence t
     | [] => false
     end.

(** ** Before the crawl (App.tsx, lines 36-112 and 242)

    The component starts in the setup state with the default
    configuration.  [handleConfigSave] and [handleSearch] are asynchronous
    with one [await] each: the stretch up to the [await] runs when the
    form is submitted, the rest when the awaited call has settled, and
    other events can happen in between.  The state updates of one stretch
    are taken as one batch, followed by one render; the effect then runs
    again when [config], [novel] or [chapters] was set. *)
Definition setConfig (c : GitHubConfig) (s : App) : App :=
  {| config := c; appState := appState s; logs := logs s; novel := novel s;
     chapters := chapters s; crawlingActive := crawlingActive s;
     progress := progress s; isMounted := isMounted s;
     effectTimer := effectTimer s; lateTimers := lateTimers s;
     fetching := fetching s; uploading := uploading s;
     requests := requests s |}.

Definition setNovel (n : option NovelMetadata) (s : App) : App :=
  {| config := config s; appState := appState s; logs := logs s; novel := n;
     chapters := chapters s; crawlingActive := crawlingActive s;
     progress := progress s; isMounted := isMounted s;
     effectTimer := effectTimer s; lateTimers := lateTimers s;
     fetching := fetching s; uploading := uploading s;
     requests := requests s |}.

(** Lines 37-50. *)
Definition initialApp : App :=
  {| config := DEFAULT_CONFIG; appState := setup; logs := []; novel := None;
     chapters := []; crawlingActive := false; progress := 0%Q;
     isMounted := true; effectTimer := None; lateTimers := [];
     fetching := []; uploading := []; requests := [] |}.

(** [validateRepo] (services file, lines 123-136): the request it sends and
    how it settles. *)
Definition repoUrl (config : GitHubConfig) : jsstring :=
  lit "https://api.github.com/repos/" ++ owner config ++ [47] ++ repo config.

Definition validateRepo (host : Host) (config : GitHubConfig)
  : list Request * outcome bool :=
  let url := repoUrl config in
  let authorization := lit "Bearer " ++ token config in
  ([GET url authorization],
   try_catch
     (bind (fetchGET host url authorization) (fun response =>
        Returned (get_ok response)))
     (fun error => Returned false)).

(** The page: the component's state of the crawl model, the search box, and
    the handler invocations suspended at their [await]: the configurations
    being validated, and the number of searches under way. *)
Record Page := {
  component : App;
  searchQuery : jsstring;
  isSearching : bool;
  awaitingValidation : list GitHubConfig;
  awaitingSearch : nat
}.

Definition initialPage : Page :=
  {| component := initialApp; searchQuery := []; isSearching := false;
     awaitingValidation := []; awaitingSearch := 0 |}.

(** [handleConfigSave] (lines 67-78), up to the [await] and after it.
    [sameObject] tells that [newConfig] is the very object that [config]
    holds, as it is when the form is submitted without an edit: then
    [setConfig] changes nothing and the effect does not run again. *)
Definition handleConfigSave_called (newConfig : GitHubConfig) (p : Page) : Page :=
  {| component := addLog (lit "Validating GitHub credentials...") INFO (component p);
     searchQuery := searchQuery p; isSearching := isSearching p;
     awaitingValidation := awaitingValidation p ++ [newConfig];
     awaitingSearch := awaitingSearch p |}.

Definition handleConfigSave_resumed (host : Host) (newConfig : GitHubConfig)
  (sameObject : bool) (s : App) : App :=
  let '(sent, isValid) := validateRepo host newConfig in
  let s := addRequests sent s in
  match isValid with
  | Returned true =>
      let s' :=
        setAppState search
          (addLog (lit "Connected to repo: " ++ owner newConfig ++ [47]
                   ++ repo newConfig) SUCCESS
             (setConfig newConfig s)) in
      if sameObject then s' else runEffect s'
  | Returned false =>
      addLog (lit "Failed to connect to GitHub repository. Check token/permissions.")
        ERROR s
  | Thrown _ => s
  end.

(** [handleSearch] (lines 80-112), up to the [await] and after it.  The
    answer of [searchNovelMetadata] is taken to have its declared type. *)
Definition handleSearch_called (p : Page) : Page :=
  match trim (searchQuery p) with
  | [] => p
  | _ :: _ =>
      {| component :=
           runEffect
             (setChapters []
                (setNovel None
                   (addLog (lit "Searching for novel: " ++ [34] ++ searchQuery p
                            ++ [34] ++ lit "...") INFO (component p))));
         searchQuery := searchQuery p; isSearching := true;
         awaitingValidation := awaitingValidation p;
         awaitingSearch := S (awaitingSearch p) |}
  end.

Definition handleSearch_resumed (settled : outcome (option NovelMetadata))
  (s : App) : App :=
  match settled with
  | Returned (Some result) =>
      runEffect
        (setAppState preview
           (setChapters (initChapters (nm_chapters result))
              (addLog (lit "Found "
                       ++ String_of_number (N.of_nat (length (nm_chapters result)))
                       ++ lit " initial chapters available for scraping.") INFO
                 (addLog (lit "Found: " ++ nm_title result ++ lit " by "
                          ++ author result) SUCCESS
                    (setNovel (Some result) s)))))
  | Returned None =>
      addLog (lit "No novel found or Gemini refused to return data.") WARNING s
  | Thrown err => addLog (lit "Search failed: " ++ err_toString err) ERROR s
  end.

(** What can happen before the crawl: typing in the search box (line 289),
    the two forms being submitted, the two awaited calls settling, and the
    Config button (line 242). *)
Inductive SetupEvent :=
| TypeQuery (q : jsstring)
| SubmitConfig (newConfig : GitHubConfig)
| ValidationSettled (k : nat) (host : Host) (sameObject : bool)
| SubmitSearch
| SearchSettled (settled : outcome (option NovelMetadata))
| ClickConfig.

Definition setupStep (e : SetupEvent) (p : Page) : option Page :=
  match e with
  | TypeQuery q =>
      Some {| component := component p; searchQuery := q; isSearching := isSearching p;
              awaitingValidation := awaitingValidation p;
              awaitingSearch := awaitingSearch p |}
  | SubmitConfig newConfig => Some (handleConfigSave_called newConfig p)
  | ValidationSettled k host sameObject =>
      match awaitingValidation p !! k with
      | Some newConfig =>
          Some {| component :=
                    handleConfigSave_resumed host newConfig sameObject
                      (component p);
                  searchQuery := searchQuery p; isSearching := isSearching p;
                  awaitingValidation := delete k (awaitingValidation p);
                  awaitingSearch := awaitingSearch p |}
      | None => None
      end
  | SubmitSearch => Some (handleSearch_called p)
  | SearchSettled settled =>
      match awaitingSearch p with
      | S n =>
          Some {| component := handleSearch_resumed settled (component p);
                  searchQuery := searchQuery p; isSearching := false;
                  awaitingValidation := awaitingValidation p;
                  awaitingSearch := n |}
      | O => None
      end
  | ClickConfig =>
      Some {| component := setAppState setup (component p); searchQuery := searchQuery p;
              isSearching := isSearching p;
              awaitingValidation := awaitingValidation p;
              awaitingSearch := awaitingSearch p |}
  end.

Fixpoint setupRun (es : list SetupEvent) (p : Page) : option Page :=
  match es with
  | [] => Some p
  | e :: es' =>
      match setupStep e p with
      | Some p' => setupRun es' p'
      | None => None
      end
  end.

(** [s] with another log. *)
Definition setLogs (l : list LogEntry) (s : App) : App :=
  {| config := config s; appState := appState s; logs := l; novel := novel s;
     chapters := chapters s; crawlingActive := crawlingActive s;
     progress := progress s; isMounted := isMounted s;
     effectTimer := effectTimer s; lateTimers := lateTimers s;
     fetching := fetching s; uploading := uploading s;
     requests := requests s |}.

(** Nothing of a crawl is under way. *)
Definition idle (s : App) : Prop :=
  crawlingActive s = false /\ progress s = 0%Q /\ isMounted s = true
  /\ effectTimer s = None /\ lateTimers s = [] /\ fetching s = []
  /\ uploading s = []
  /\ (appState s = setup \/ appState s = search \/ appState s = preview)
  /\ chapters s
     = match novel s with
       | Some result => initChapters (nm_chapters result)
       | None => []
       end.

(** A host that knows the repository, one search that finds [twoChapters]
    and the page after it. *)
Definition knownRepoHost : Host :=
  {| fetchGET := fun _ _ =>
       Returned {| get_ok := true; get_json_sha := Returned None |};
     fetchPUT := fun _ _ _ =>
       Returned {| put_ok := true; put_status := 201; put_text := Returned [] |};
     JSON_parse_message := fun _ => Returned None |}.

Definition firstSearch : list SetupEvent :=
  [SubmitConfig DEFAULT_CONFIG; ValidationSettled 0 knownRepoHost true;
   TypeQuery douluoDalu; SubmitSearch; SearchSettled (Returned (Some twoChapters))].

Definition previewPage : Page :=
  Eval vm_compute in default initialPage (setupRun firstSearch initialPage).

Definition failedSearchPage : Page :=
  Eval vm_compute in
    default previewPage
      (setupRun [SubmitSearch; SearchSettled (Returned None)] previewPage).







(** * Properties *)

(** ** Strings: [replace] and [trim] *)

Section ReplaceRuns.
Variable cls : N -> bool.
Variable repl : jsstring.

Lemma replace_runs_from_clean b s :
  Forall (fun c => cls c = false) s -> replace_runs_from b cls repl s = s.
Proof.
  revert b; induction s as [|c t IH]; intros b H; simpl; [reflexivity|].
  inversion H as [|? ? Hc Ht]; subst. rewrite Hc. f_equal. now apply IH.
Qed.

Lemma replace_runs_from_Forall (P : N -> Prop) b s :
  Forall P repl -> (forall c, In c s -> cls c = false -> P c) ->
  Forall P (replace_runs_from b cls repl s).
Proof.
  intros Hrepl. revert b; induction s as [|c t IH]; intros b H; simpl.
  - constructor.
  - destruct (cls c) eqn:Ec.
    + apply Forall_app; split.
      * destruct b; [constructor | exact Hrepl].
      * apply IH. intros d Hd. apply H. now right.
    + constructor.
      * apply H; [now left | exact Ec].
      * apply IH. intros d Hd. apply H. now right.
Qed.



End ReplaceRuns.

Lemma trimStart_startsClean s : startsClean (trimStart s).
Proof.
  induction s as [|c t IH]; simpl; [exact I|].
  destruct (isWhiteSpace c) eqn:E; [exact IH | exact E].
Qed.

Lemma trimStart_fixed s : startsClean s -> trimStart s = s.
Proof. destruct s as [|c t]; simpl; [reflexivity|]. now intros ->. Qed.

Lemma trimStart_snoc l c :
  isWhiteSpace c = false -> trimStart (l ++ [c]) = trimStart l ++ [c].
Proof.
  intros Hc. induction l as [|d l IH]; simpl.
  - now rewrite Hc.
  - destruct (isWhiteSpace d); [exact IH | reflexivity].
Qed.

Lemma trimEnd_startsClean s : startsClean s -> startsClean (trimEnd s).
Proof.
  destruct s as [|c t]; simpl; [intros _; exact I|]. intros Hc.
  unfold trimEnd. simpl rev. rewrite trimStart_snoc by exact Hc.
  rewrite rev_app_distr. exact Hc.
Qed.

Lemma trimEnd_idem s : trimEnd (trimEnd s) = trimEnd s.
Proof.
  unfold trimEnd. rewrite rev_involutive.
  now rewrite (trimStart_fixed (trimStart _)) by apply trimStart_startsClean.
Qed.

Lemma trim_trimmed s : trimmed (trim s).
Proof.
  split.
  - apply trimEnd_startsClean, trimStart_startsClean.
  - unfold trim, trimEnd. rewrite rev_involutive. apply trimStart_startsClean.
Qed.

Lemma trim_fixed s : trimmed s -> trim s = s.
Proof.
  intros [Hs He]. unfold trim, trimEnd. rewrite (trimStart_fixed s Hs).
  rewrite (trimStart_fixed _ He). apply rev_involutive.
Qed.

Lemma trim_idem s : trim (trim s) = trim s.
Proof. apply trim_fixed, trim_trimmed. Qed.

Lemma trimStart_split s :
  exists l, Forall (fun c => isWhiteSpace c = true) l /\ s = l ++ trimStart s.
Proof.
  induction s as [|c t [l [Hl Ht]]]; simpl.
  - exists []. split; [constructor | reflexivity].
  - destruct (isWhiteSpace c) eqn:E.
    + exists (c :: l). split; [now constructor | simpl; now f_equal].
    + exists []. split; [constructor | reflexivity].
Qed.

(** [trim] removes a stretch of white space at each end and nothing else. *)
Lemma trim_split s :
  exists l r, Forall (fun c => isWhiteSpace c = true) l
              /\ Forall (fun c => isWhiteSpace c = true) r
              /\ s = l ++ trim s ++ r.
Proof.
  destruct (trimStart_split s) as [l [Hl Hs]].
  destruct (trimStart_split (rev (trimStart s))) as [r [Hr Hrev]].
  exists l, (rev r). split; [exact Hl|]. split.
  - apply List.Forall_forall. intros c Hc. apply List.in_rev in Hc.
    exact (proj1 (List.Forall_forall _ _) Hr c Hc).
  - rewrite Hs at 1. f_equal. unfold trim, trimEnd.
    rewrite <- rev_app_distr, <- Hrev. symmetry. apply rev_involutive.
Qed.

Lemma trim_Forall (P : N -> Prop) s : Forall P s -> Forall P (trim s).
Proof.
  intros H. destruct (trim_split s) as [l [r [_ [_ E]]]].
  rewrite E in H. apply Forall_app in H as [_ H]. now apply Forall_app in H as [H _].
Qed.

(** ** [sanitize] *)

Lemma unsafeChar_underscore : unsafeChar 95 = false.
Proof. reflexivity. Qed.


Lemma sanitize_clean s :
  Forall (fun c => unsafeChar c = false /\ lineBreak c = false) (sanitize s).
Proof.
  unfold sanitize. apply trim_Forall.
  apply replace_runs_from_Forall; [constructor|].
  intros c Hc Hlb. split; [|exact Hlb].
  clear Hlb. revert c Hc. apply List.Forall_forall.
  apply replace_runs_from_Forall.
  - constructor; [reflexivity | constructor].
  - auto.
Qed.

Lemma sanitize_trimmed s : trimmed (sanitize s).
Proof. apply trim_trimmed. Qed.

Lemma sanitize_plain s :
  Forall (fun c => plainChar c = true) s -> sanitize s = trim s.
Proof.
  intros H. unfold sanitize, replace_runs.
  rewrite (replace_runs_from_clean unsafeChar).
  - rewrite replace_runs_from_clean; [reflexivity|].
    eapply List.Forall_impl; [|exact H]. intros c Hc; cbv beta in *.
    unfold plainChar in Hc. apply andb_true_iff in Hc as [_ Hc].
    now apply negb_true_iff in Hc.
  - eapply List.Forall_impl; [|exact H]. intros c Hc; cbv beta in *.
    unfold plainChar in Hc. apply andb_true_iff in Hc as [Hc _].
    now apply negb_true_iff in Hc.
Qed.

(** C7: [sanitize] is idempotent, and its result contains none of the nine
    characters it replaces and no carriage return or line feed. *)
Theorem sanitize_idempotent (s : jsstring) :
  sanitize (sanitize s) = sanitize s
  /\ Forall (fun c => unsafeChar c = false /\ lineBreak c = false) (sanitize s).
Proof.
  split; [|apply sanitize_clean].
  rewrite sanitize_plain.
  - apply trim_fixed, sanitize_trimmed.
  - eapply List.Forall_impl; [|apply sanitize_clean].
    intros c [Hu Hl]. unfold plainChar. now rewrite Hu, Hl.
Qed.







(** ** [fetchChapterContent] *)

Lemma truthy_nonempty o s : truthy o = Some s -> s <> [].
Proof.
  destruct o as [[|c t]|]; simpl; intros H; inversion H; subst; discriminate.
Qed.

Lemma orElse_nonempty o d : d <> [] -> orElse o d <> [].
Proof.
  intros Hd. unfold orElse. destruct (truthy o) as [s|] eqn:E; [|exact Hd].
  exact (truthy_nonempty _ _ E).
Qed.

Lemma app_nonempty (a b : jsstring) : a <> [] -> a ++ b <> [].
Proof. destruct a; [congruence | discriminate]. Qed.



(** ** The store path *)

Ltac b2p :=
  repeat (rewrite ?orb_true_iff, ?andb_true_iff, ?orb_false_iff,
            ?andb_false_iff, ?negb_true_iff, ?negb_false_iff, ?N.leb_le,
            ?N.leb_gt, ?N.ltb_lt, ?N.ltb_ge, ?N.eqb_eq, ?N.eqb_neq in *).

Lemma list_two_step_ind {A} (P : list A -> Prop) :
  P [] ->
  (forall x l, P l -> match l with [] => True | _ :: l' => P l' end -> P (x :: l)) ->
  forall l, P l.
Proof.
  intros Hnil Hstep l.
  enough (P l /\ match l with [] => True | _ :: l' => P l' end) by tauto.
  induction l as [|x l [IH1 IH2]]; [split; [exact Hnil | exact I]|].
  split; [now apply Hstep | exact IH1].
Qed.

Lemma split_nonempty sep s : split sep s <> [].
Proof.
  destruct s as [|c t]; simpl; [discriminate|].
  destruct (c =? sep); [discriminate|]. destruct (split sep t); discriminate.
Qed.

Lemma split_cons_sep s : split 47 (47 :: s) = [] :: split 47 s.
Proof. reflexivity. Qed.

Lemma split_cons_other c s :
  c <> 47 ->
  exists h r, split 47 s = h :: r /\ split 47 (c :: s) = (c :: h) :: r.
Proof.
  intros Hc. simpl. destruct (N.eqb_spec c 47) as [->|_]; [congruence|].
  destruct (split 47 s) as [|h r] eqn:E; [now apply split_nonempty in E|].
  now exists h, r.
Qed.

Lemma normalSegments_cons_empty segs :
  segs <> [] -> normalSegments ([] :: segs) = normalSegments segs.
Proof.
  intros H. unfold normalSegments. destruct segs as [|a segs]; [congruence|].
  reflexivity.
Qed.

Lemma isSlash_other c : c <> 47 -> isSlash c = false.
Proof. intros H. unfold isSlash. now apply N.eqb_neq. Qed.

Lemma collapse_cons_other b c t :
  c <> 47 ->
  replace_runs_from b isSlash [47] (c :: t)
  = c :: replace_runs_from false isSlash [47] t.
Proof. intros H. cbn [replace_runs_from]. now rewrite isSlash_other. Qed.

(** The segments after the collapse of the slashes: inside a run of slashes
    they are the normal segments; otherwise an empty first segment is still
    there when the string starts with a slash. *)
Lemma split_collapse s :
  split 47 (replace_runs_from true isSlash [47] s) = normalSegments (split 47 s)
  /\ split 47 (replace_runs_from false isSlash [47] s)
     = match s with
       | c :: _ => if isSlash c then [] :: normalSegments (split 47 s)
                   else normalSegments (split 47 s)
       | [] => normalSegments (split 47 s)
       end.
Proof.
  induction s as [|c t [IHt IHf]]; [split; reflexivity|].
  destruct (N.eqb_spec c 47) as [->|Hc].
  - rewrite split_cons_sep.
    rewrite normalSegments_cons_empty by apply split_nonempty.
    cbn [replace_runs_from]. change (isSlash 47) with true. cbn iota.
    split; [exact IHt|]. cbn [app]. rewrite split_cons_sep. now rewrite IHt.
  - rewrite !collapse_cons_other, isSlash_other by exact Hc.
    enough (G : split 47 (c :: replace_runs_from false isSlash [47] t)
                = normalSegments (split 47 (c :: t))) by (split; exact G).
    destruct (split_cons_other c (replace_runs_from false isSlash [47] t) Hc)
      as [h [r [E1 E2]]].
    destruct (split_cons_other c t Hc) as [h' [r' [E3 E4]]].
    rewrite E2, E4. rewrite IHf in E1.
    destruct t as [|d t'].
    + cbn in E1, E3. inversion E1; inversion E3; subst. reflexivity.
    + destruct (N.eqb_spec d 47) as [->|Hd].
      * rewrite split_cons_sep in E3. inversion E3; subst h' r'.
        change (isSlash 47) with true in E1. cbn iota in E1.
        rewrite split_cons_sep in E1.
        rewrite normalSegments_cons_empty in E1 by apply split_nonempty.
        inversion E1; subst h r.
        unfold normalSegments. destruct (split 47 t') as [|a l] eqn:Et;
          [now apply split_nonempty in Et|]. reflexivity.
      * destruct (split_cons_other d t' Hd) as [h2 [r2 [E5 E6]]].
        rewrite E6 in E3. inversion E3; subst h' r'.
        rewrite isSlash_other in E1 by exact Hd.
        rewrite E6 in E1. unfold normalSegments in *.
        destruct r2 as [|a l].
        -- cbn in E1. inversion E1; subst. reflexivity.
        -- cbn [removelast List.filter nonEmpty app List.last] in E1 |- *.
           inversion E1; subst. reflexivity.
Qed.

(** The segments of the raw path are the non-empty segments of
    [pathPrefix + fileName], followed by its last segment. *)
Lemma rawPath_segments cfg name :
  split 47 (rawPath cfg name) = normalSegments (split 47 (pathPrefix cfg ++ name)).
Proof.
  unfold rawPath, replace_runs.
  destruct (split_collapse (pathPrefix cfg ++ name)) as [Ht Hf].
  destruct (pathPrefix cfg ++ name) as [|c t] eqn:E; [reflexivity|].
  destruct (N.eqb_spec c 47) as [->|Hc].
  - cbn [replace_runs_from]. change (isSlash 47) with true.
    cbn [app strip_leading_slash]. change (47 =? 47) with true. cbn iota.
    rewrite split_cons_sep.
    rewrite normalSegments_cons_empty by apply split_nonempty.
    apply (proj1 (split_collapse t)).
  - rewrite isSlash_other in Hf by exact Hc. rewrite <- Hf. f_equal.
    rewrite collapse_cons_other by exact Hc. cbn [strip_leading_slash].
    destruct (N.eqb_spec c 47); [congruence | reflexivity].
Qed.

Lemma join_split s : join 47 (split 47 s) = s.
Proof.
  induction s as [|c t IH]; [reflexivity|].
  destruct (N.eqb_spec c 47) as [->|Hc].
  - rewrite split_cons_sep. destruct (split 47 t) as [|a l] eqn:E;
      [now apply split_nonempty in E|].
    cbn [join app]. f_equal. exact IH.
  - destruct (split_cons_other c t Hc) as [h [r [E1 E2]]].
    rewrite E2. rewrite E1 in IH. destruct r as [|a l]; cbn [join] in *.
    + now f_equal.
    + cbn [app]. now f_equal.
Qed.

Lemma split_no_sep s :
  Forall (fun c => c <> 47) s -> split 47 s = [s].
Proof.
  induction s as [|c t IH]; intros H; [reflexivity|].
  inversion H as [|? ? Hc Ht]; subst.
  destruct (split_cons_other c t Hc) as [h [r [E1 E2]]].
  rewrite E2. rewrite (IH Ht) in E1. now inversion E1.
Qed.

Lemma split_app_sep a s :
  Forall (fun c => c <> 47) a -> split 47 (a ++ 47 :: s) = a :: split 47 s.
Proof.
  induction a as [|c a IH]; intros H; [reflexivity|].
  inversion H as [|? ? Hc Ha]; subst.
  destruct (split_cons_other c (a ++ 47 :: s) Hc) as [h [r [E1 E2]]].
  cbn [app]. rewrite E2. rewrite (IH Ha) in E1. now inversion E1.
Qed.

Lemma split_join es :
  es <> [] -> Forall (Forall (fun c => c <> 47)) es -> split 47 (join 47 es) = es.
Proof.
  induction es as [|e es IH]; intros Hne H; [congruence|].
  inversion H as [|? ? He Hes]; subst.
  destruct es as [|e' es']; cbn [join].
  - now apply split_no_sep.
  - rewrite split_app_sep by exact He. f_equal. apply IH; [discriminate | exact Hes].
Qed.

Lemma normalSegments_incl segs seg :
  segs <> [] -> In seg (normalSegments segs) -> In seg segs.
Proof.
  intros Hne H. unfold normalSegments in H. apply in_app_or in H as [H|H].
  - apply List.filter_In in H as [H _].
    destruct (List.exists_last Hne) as [l [a ->]].
    rewrite removelast_last in H. apply in_or_app. now left.
  - destruct H as [<-|[]].
    destruct (List.exists_last Hne) as [l [a ->]].
    rewrite List.last_last. apply in_or_app. right. now left.
Qed.

Lemma normalSegments_removelast segs :
  removelast (normalSegments segs) = List.filter nonEmpty (removelast segs).
Proof. unfold normalSegments. apply removelast_last. Qed.

(** *** [encodeURIComponent] on well-formed strings *)

Lemma hexDigit_unescaped v : v < 16 -> uriUnescaped (hexDigit v) = true.
Proof.
  intros H. unfold uriUnescaped, hexDigit.
  destruct (N.ltb_spec v 10); b2p; lia.
Qed.

Lemma percentOctet_safe b :
  b < 256 -> Forall (fun c => uriSafe c = true) (percentOctet b).
Proof.
  intros H. unfold percentOctet, uriSafe.
  assert (b / 16 < 16) by (apply N.Div0.div_lt_upper_bound; lia).
  assert (b mod 16 < 16) by (apply N.mod_lt; lia).
  repeat constructor; try (rewrite hexDigit_unescaped by assumption); reflexivity.
Qed.

Lemma percentOctets_safe bs :
  Forall (fun b => b < 256) bs ->
  Forall (fun c => uriSafe c = true) (percentOctets bs).
Proof.
  unfold percentOctets. induction 1 as [|b bs Hb _ IH]; cbn [List.map concat].
  - constructor.
  - apply Forall_app; split; [now apply percentOctet_safe | exact IH].
Qed.

Lemma percentOctets_nonempty bs : bs <> [] -> percentOctets bs <> [].
Proof. destruct bs; [congruence | discriminate]. Qed.

Lemma utf8Octets_bytes cp :
  cp < 1114112 -> Forall (fun b => b < 256) (utf8Octets cp).
Proof.
  intros H. unfold utf8Octets.
  destruct (N.ltb_spec cp 128); [|destruct (N.ltb_spec cp 2048);
    [|destruct (N.ltb_spec cp 65536)]].
  - repeat constructor; lia.
  - assert (cp / 64 < 32) by (apply N.Div0.div_lt_upper_bound; lia).
    assert (cp mod 64 < 64) by (apply N.mod_lt; lia).
    repeat constructor; lia.
  - assert (cp / 4096 < 16) by (apply N.Div0.div_lt_upper_bound; lia).
    assert ((cp / 64) mod 64 < 64) by (apply N.mod_lt; lia).
    assert (cp mod 64 < 64) by (apply N.mod_lt; lia).
    repeat constructor; lia.
  - assert (cp / 262144 < 5) by (apply N.Div0.div_lt_upper_bound; lia).
    assert ((cp / 4096) mod 64 < 64) by (apply N.mod_lt; lia).
    assert ((cp / 64) mod 64 < 64) by (apply N.mod_lt; lia).
    assert (cp mod 64 < 64) by (apply N.mod_lt; lia).
    repeat constructor; lia.
Qed.

Lemma utf8Octets_nonempty cp : utf8Octets cp <> [].
Proof.
  unfold utf8Octets. destruct (cp <? 128); [discriminate|].
  destruct (cp <? 2048); [discriminate|]. destruct (cp <? 65536); discriminate.
Qed.

Lemma surrogatePair_range c d :
  isLeadSurrogate c = true -> isTrailSurrogate d = true ->
  65536 <= UTF16SurrogatePairToCodePoint c d < 1114112.
Proof.
  unfold isLeadSurrogate, isTrailSurrogate, UTF16SurrogatePairToCodePoint.
  intros Hc Hd. b2p. lia.
Qed.

Lemma uriUnescaped_not_surrogate c :
  uriUnescaped c = true -> isLeadSurrogate c = false /\ isTrailSurrogate c = false.
Proof.
  unfold uriUnescaped, isLeadSurrogate, isTrailSurrogate. intros H. b2p. lia.
Qed.

(** On a well-formed string [encodeURIComponent] returns, and what it
    returns is made of unreserved characters and percent signs. *)
Lemma encodeURIComponent_wellFormed s :
  isWellFormed s = true ->
  exists e, encodeURIComponent s = Returned e
            /\ Forall (fun c => uriSafe c = true) e
            /\ (s <> [] -> e <> []).
Proof.
  induction s as [|c t IH1 IH2] using list_two_step_ind; intros Hwf.
  - exists []. repeat split; [constructor | congruence].
  - cbn [isWellFormed encodeURIComponent] in *.
    destruct (uriUnescaped c) eqn:Eu.
    + destruct (uriUnescaped_not_surrogate c Eu) as [El Et].
      rewrite El, Et in Hwf. apply andb_true_iff in Hwf as [_ Hwf].
      destruct (IH1 Hwf) as [e [He [Hs _]]]. rewrite He. cbn [bind].
      exists (c :: e). repeat split; [|discriminate].
      constructor; [unfold uriSafe; now rewrite Eu | exact Hs].
    + destruct (isTrailSurrogate c) eqn:Et; [discriminate|].
      destruct (isLeadSurrogate c) eqn:El.
      * destruct t as [|d t']; [discriminate|].
        apply andb_true_iff in Hwf as [Hd Hwf]. rewrite Hd.
        destruct (IH2 Hwf) as [e [He [Hs _]]]. rewrite He. cbn [bind].
        eexists; split; [reflexivity|]. split.
        -- apply Forall_app; split; [|exact Hs]. apply percentOctets_safe.
           apply utf8Octets_bytes. now apply surrogatePair_range.
        -- intros _. apply app_nonempty, percentOctets_nonempty, utf8Octets_nonempty.
      * apply andb_true_iff in Hwf as [Hc Hwf]. apply N.ltb_lt in Hc.
        destruct (IH1 Hwf) as [e [He [Hs _]]]. rewrite He. cbn [bind].
        eexists; split; [reflexivity|]. split.
        -- apply Forall_app; split; [|exact Hs]. apply percentOctets_safe.
           apply utf8Octets_bytes. lia.
        -- intros _. apply app_nonempty, percentOctets_nonempty, utf8Octets_nonempty.
Qed.

Lemma encodeURIComponent_empty e : encodeURIComponent [] = Returned e -> e = [].
Proof. cbn. now inversion 1. Qed.

Lemma isWellFormed_split s :
  isWellFormed s = true ->
  Forall (fun seg => isWellFormed seg = true) (split 47 s).
Proof.
  induction s as [|c t IH1 IH2] using list_two_step_ind; intros Hwf.
  - repeat constructor.
  - cbn [isWellFormed] in Hwf.
    destruct (isTrailSurrogate c) eqn:Et; [discriminate|].
    destruct (isLeadSurrogate c) eqn:El.
    + destruct t as [|d t']; [discriminate|].
      apply andb_true_iff in Hwf as [Hd Hwf]. specialize (IH2 Hwf).
      assert (Hc : c <> 47)
        by (intros ->; discriminate).
      assert (Hd' : d <> 47) by (intros ->; discriminate).
      destruct (split_cons_other d t' Hd') as [h [r [E1 E2]]].
      destruct (split_cons_other c (d :: t') Hc) as [h' [r' [E3 E4]]].
      rewrite E2 in E3. inversion E3; subst h' r'. rewrite E4.
      rewrite E1 in IH2. inversion IH2 as [|? ? Hh Hr]; subst.
      constructor; [|exact Hr]. cbn [isWellFormed]. now rewrite Et, El, Hd, Hh.
    + apply andb_true_iff in Hwf as [Hc Hwf]. specialize (IH1 Hwf).
      destruct (N.eqb_spec c 47) as [->|Hne].
      * rewrite split_cons_sep. now constructor.
      * destruct (split_cons_other c t Hne) as [h [r [E1 E2]]].
        rewrite E2. rewrite E1 in IH1. inversion IH1 as [|? ? Hh Hr]; subst.
        constructor; [|exact Hr]. cbn [isWellFormed]. now rewrite Et, El, Hc, Hh.
Qed.

Lemma mapEncode_wellFormed segs :
  Forall (fun seg => isWellFormed seg = true) segs ->
  exists es, mapEncode segs = Returned es
             /\ Forall2 (fun seg e => encodeURIComponent seg = Returned e) segs es.
Proof.
  induction 1 as [|seg segs Hseg _ [es [Hes Hall]]]; cbn [mapEncode].
  - exists []. split; [reflexivity | constructor].
  - destruct (encodeURIComponent_wellFormed seg Hseg) as [e [He _]].
    rewrite He, Hes. cbn [bind]. exists (e :: es). split; [reflexivity|].
    now constructor.
Qed.

Lemma In_removelast {A} (x : A) l : In x (removelast l) -> In x l.
Proof.
  induction l as [|a l IH]; [easy|]. destruct l as [|b l]; [easy|].
  cbn [removelast]. intros [->|H]; [now left | right; now apply IH].
Qed.

Lemma Forall2_removelast {A B} (R : A -> B -> Prop) l l' :
  Forall2 R l l' -> Forall2 R (removelast l) (removelast l').
Proof.
  induction 1 as [|a b l l' Hab Hl IH]; [constructor|].
  destruct Hl as [|a' b' l l' Hab' Hl]; cbn [removelast]; [constructor|].
  constructor; [exact Hab | exact IH].
Qed.

Lemma Forall2_In_r {A B} (R : A -> B -> Prop) l l' b :
  Forall2 R l l' -> In b l' -> exists a, In a l /\ R a b.
Proof.
  induction 1 as [|a b' l l' Hab Hl IH]; intros Hin; [destruct Hin|].
  destruct Hin as [->|Hin].
  - exists a. split; [now left | exact Hab].
  - destruct (IH Hin) as [a' [Ha' HR]]. exists a'. split; [now right | exact HR].
Qed.

Lemma starts_with_slash_segment s t :
  s = 47 :: t -> In [] (removelast (split 47 s)).
Proof.
  intros ->. rewrite split_cons_sep.
  destruct (split 47 t) as [|a l] eqn:E; [now apply split_nonempty in E|].
  now left.
Qed.

(** The encoded path of a well-formed [pathPrefix + fileName]. *)
Lemma encodedPath_wellFormed (config : GitHubConfig) (name : jsstring) :
  isWellFormed (pathPrefix config ++ name) = true ->
  exists p,
    encodedPath (rawPath config name) = Returned p
    /\ Forall2 (fun seg e => encodeURIComponent seg = Returned e)
         (split 47 (rawPath config name)) (split 47 p)
    /\ (forall seg, In seg (removelast (split 47 p)) -> seg <> [])
    /\ (forall t, p <> 47 :: t)
    /\ Forall (fun c => uriSafe c = true \/ c = 47) p.
Proof.
  pose proof (rawPath_segments config name) as Hseg.
  assert (Hrl : forall seg,
             In seg (removelast (split 47 (rawPath config name))) -> seg <> []).
  { intros seg Hin. rewrite Hseg, normalSegments_removelast in Hin.
    apply List.filter_In in Hin as [_ Hne]. now destruct seg. }
  intros Hwf.
  assert (Hsegs : Forall (fun seg => isWellFormed seg = true)
                    (split 47 (rawPath config name))).
  { apply List.Forall_forall. intros seg Hin. rewrite Hseg in Hin.
    apply normalSegments_incl in Hin; [|apply split_nonempty].
    revert seg Hin. apply List.Forall_forall. now apply isWellFormed_split. }
  destruct (mapEncode_wellFormed _ Hsegs) as [es [Hes Hall]].
  assert (Hsafe : Forall (Forall (fun c => uriSafe c = true)) es).
  { apply List.Forall_forall. intros e He.
    destruct (Forall2_In_r _ _ _ _ Hall He) as [seg [Hin Henc]].
    destruct (encodeURIComponent_wellFormed seg) as [e' [He' [Hs _]]].
    - now apply (proj1 (List.Forall_forall _ _) Hsegs).
    - congruence. }
  assert (Hsplit : split 47 (join 47 es) = es).
  { apply split_join.
    - intros ->. inversion Hall as [E|]. symmetry in E.
      now apply split_nonempty in E.
    - eapply List.Forall_impl; [|exact Hsafe]. intros e He.
      eapply List.Forall_impl; [|exact He]. intros c Hc ->. discriminate. }
  assert (Hpl : forall seg, In seg (removelast (split 47 (join 47 es))) -> seg <> []).
  { intros e He. rewrite Hsplit in He.
    destruct (Forall2_In_r _ _ _ _ (Forall2_removelast _ _ _ Hall) He)
      as [seg [Hin Henc]].
    intros ->. pose proof (Hrl _ Hin) as Hsegne.
    destruct (encodeURIComponent_wellFormed seg) as [e' [He' [_ Hne]]].
    - apply (proj1 (List.Forall_forall _ _) Hsegs). now apply In_removelast.
    - rewrite Henc in He'. inversion He'; subst e'. now apply Hne. }
  exists (join 47 es). unfold encodedPath. rewrite Hes. cbn [bind].
  split; [reflexivity|]. split; [now rewrite Hsplit|]. split; [exact Hpl|]. split.
  + intros t E. apply starts_with_slash_segment in E. now apply Hpl in E.
  + clear - Hsafe. induction Hsafe as [|e es He Hes IH]; [constructor|].
    destruct es as [|e' es']; cbn [join].
    * eapply List.Forall_impl; [|exact He]. now left.
    * apply Forall_app; split.
      -- eapply List.Forall_impl; [|exact He]. now left.
      -- constructor; [now right | exact IH].
Qed.

(** C10, as the code has it.  The raw path is the non-empty segments of
    [pathPrefix + fileName] joined by single slashes, followed by the last
    segment even when that one is empty: every segment but the last is
    non-empty, and the path does not start with a slash.  When
    [pathPrefix + fileName] is well formed, the encoded path exists, its
    segments are the encoded segments of the raw path, again all non-empty
    but possibly the last, it does not start with a slash, and it consists
    of unreserved characters, percent signs and the separating slashes. *)
Theorem rawPath_normal_segments (config : GitHubConfig) (name : jsstring) :
  rawPath config name
  = join 47 (normalSegments (split 47 (pathPrefix config ++ name)))
  /\ (forall seg, In seg (removelast (split 47 (rawPath config name))) -> seg <> [])
  /\ (forall t, rawPath config name <> 47 :: t)
  /\ (isWellFormed (pathPrefix config ++ name) = true ->
      exists p,
        encodedPath (rawPath config name) = Returned p
        /\ Forall2 (fun seg e => encodeURIComponent seg = Returned e)
             (split 47 (rawPath config name)) (split 47 p)
        /\ (forall seg, In seg (removelast (split 47 p)) -> seg <> [])
        /\ (forall t, p <> 47 :: t)
        /\ Forall (fun c => uriSafe c = true \/ c = 47) p).
Proof.
  pose proof (rawPath_segments config name) as Hseg.
  assert (Hrl : forall seg,
             In seg (removelast (split 47 (rawPath config name))) -> seg <> []).
  { intros seg Hin. rewrite Hseg, normalSegments_removelast in Hin.
    apply List.filter_In in Hin as [_ Hne]. now destruct seg. }
  split; [|split; [exact Hrl|split]].
  - rewrite <- Hseg. symmetry. apply join_split.
  - intros t E. apply starts_with_slash_segment in E. now apply Hrl in E.
  - exact (encodedPath_wellFormed config name).
Qed.

Lemma rawPath_normal_segments_witness :
  isWellFormed (pathPrefix DEFAULT_CONFIG ++ fileName douluoDalu chapter7) = true
  /\ exists p,
      encodedPath (rawPath DEFAULT_CONFIG (fileName douluoDalu chapter7)) = Returned p
      /\ Forall (fun c => uriSafe c = true \/ c = 47) p.
Proof.
  assert (Hwf : isWellFormed
                  (pathPrefix DEFAULT_CONFIG ++ fileName douluoDalu chapter7) = true)
    by (vm_compute; reflexivity).
  split; [exact Hwf|].
  destruct (proj2 (proj2 (proj2
             (rawPath_normal_segments DEFAULT_CONFIG (fileName douluoDalu chapter7))))
             Hwf) as [p [Hp [_ [_ [_ Hsafe]]]]].
  exists p. split; [exact Hp | exact Hsafe].
Defined.

(** C10 as stated fails for a path that ends with a slash: with the default
    prefix and an empty file name, the last segment of the raw path and of
    the encoded path is empty. *)
Lemma encodedPath_empty_segment_counterexample :
  rawPath DEFAULT_CONFIG [] = lit "novels/my-novels/"
  /\ encodedPath (rawPath DEFAULT_CONFIG []) = Returned (lit "novels/my-novels/")
  /\ In [] (split 47 (lit "novels/my-novels/")).
Proof.
  split; [reflexivity|]. split; [reflexivity|]. vm_compute. right. right. now left.
Qed.

(** ** The content encoding: [btoa(unescape(encodeURIComponent(content)))] *)

Lemma hexValue_hexDigit v : v < 16 -> hexValue (hexDigit v) = Some v.
Proof.
  intros H. unfold hexValue, hexDigit. destruct (N.ltb_spec v 10).
  - replace ((48 <=? 48 + v) && (48 + v <=? 57)) with true
      by (symmetry; b2p; lia).
    f_equal. lia.
  - replace ((48 <=? 55 + v) && (55 + v <=? 57)) with false
      by (symmetry; b2p; lia).
    replace ((65 <=? 55 + v) && (55 + v <=? 70)) with true
      by (symmetry; b2p; lia).
    f_equal. lia.
Qed.

Lemma hexDigit_not_u v : v < 16 -> (hexDigit v =? 117) = false.
Proof.
  intros H. unfold hexDigit. destruct (N.ltb_spec v 10); b2p; lia.
Qed.

Lemma byte_nibbles b : 16 * (b / 16) + b mod 16 = b.
Proof. symmetry. apply N.div_mod. discriminate. Qed.

Lemma parseHexOctet_percent b rest :
  b < 256 ->
  parseHexOctet (hexDigit (b / 16) :: hexDigit (b mod 16) :: rest) = Some (b, rest).
Proof.
  intros H. unfold parseHexOctet.
  rewrite !hexValue_hexDigit
    by (apply N.Div0.div_lt_upper_bound || apply N.mod_lt; lia).
  now rewrite byte_nibbles.
Qed.

Lemma unescape_percentOctet b rest :
  b < 256 -> unescape (percentOctet b ++ rest) = b :: unescape rest.
Proof.
  intros H. unfold percentOctet. cbn [app unescape].
  change (37 =? 37) with true. cbn iota.
  rewrite hexDigit_not_u by (apply N.Div0.div_lt_upper_bound; lia).
  rewrite !hexValue_hexDigit
    by (apply N.Div0.div_lt_upper_bound || apply N.mod_lt; lia).
  now rewrite byte_nibbles.
Qed.

Lemma unescape_percentOctets bs rest :
  Forall (fun b => b < 256) bs ->
  unescape (percentOctets bs ++ rest) = bs ++ unescape rest.
Proof.
  unfold percentOctets. induction 1 as [|b bs Hb _ IH]; [reflexivity|].
  cbn [List.map concat]. rewrite <- app_assoc.
  rewrite unescape_percentOctet by exact Hb. cbn [app]. now f_equal.
Qed.

Lemma uriUnescaped_ascii c : uriUnescaped c = true -> c < 128 /\ c <> 37.
Proof. unfold uriUnescaped. intros H. b2p. lia. Qed.

Lemma unescape_cons c rest : c <> 37 -> unescape (c :: rest) = c :: unescape rest.
Proof.
  intros H. cbn [unescape]. destruct (N.eqb_spec c 37); [congruence | reflexivity].
Qed.

Lemma utf8Octets_ascii c : c < 128 -> utf8Octets c = [c].
Proof. intros H. unfold utf8Octets. destruct (N.ltb_spec c 128); [reflexivity | lia]. Qed.

(** On a well-formed string, [unescape] after [encodeURIComponent] gives
    the UTF-8 octets of the string, each as one character. *)
Lemma unescape_encodeURIComponent s :
  isWellFormed s = true ->
  exists e, encodeURIComponent s = Returned e /\ unescape e = utf8Bytes s.
Proof.
  induction s as [|c t IH1 IH2] using list_two_step_ind; intros Hwf.
  - exists []. split; reflexivity.
  - cbn [isWellFormed encodeURIComponent utf8Bytes] in *.
    destruct (uriUnescaped c) eqn:Eu.
    + destruct (uriUnescaped_not_surrogate c Eu) as [El Et].
      destruct (uriUnescaped_ascii c Eu) as [Hlt Hne].
      rewrite El, Et in Hwf. rewrite El. apply andb_true_iff in Hwf as [_ Hwf].
      destruct (IH1 Hwf) as [e [He Hu]]. rewrite He. cbn [bind].
      exists (c :: e). split; [reflexivity|].
      rewrite unescape_cons by exact Hne. rewrite utf8Octets_ascii by exact Hlt.
      cbn [app]. now f_equal.
    + destruct (isTrailSurrogate c) eqn:Et; [discriminate|].
      destruct (isLeadSurrogate c) eqn:El.
      * destruct t as [|d t']; [discriminate|].
        apply andb_true_iff in Hwf as [Hd Hwf]. rewrite Hd.
        destruct (IH2 Hwf) as [e [He Hu]]. rewrite He. cbn [bind].
        eexists; split; [reflexivity|].
        rewrite unescape_percentOctets; [now f_equal|].
        apply utf8Octets_bytes. now apply surrogatePair_range.
      * apply andb_true_iff in Hwf as [Hc Hwf]. apply N.ltb_lt in Hc.
        destruct (IH1 Hwf) as [e [He Hu]]. rewrite He. cbn [bind].
        eexists; split; [reflexivity|].
        rewrite unescape_percentOctets; [now f_equal|].
        apply utf8Octets_bytes. lia.
Qed.

Lemma utf8Bytes_bytes s :
  isWellFormed s = true -> Forall (fun b => b < 256) (utf8Bytes s).
Proof.
  induction s as [|c t IH1 IH2] using list_two_step_ind; intros Hwf.
  - constructor.
  - cbn [isWellFormed utf8Bytes] in *.
    destruct (isTrailSurrogate c) eqn:Et; [discriminate|].
    destruct (isLeadSurrogate c) eqn:El.
    + destruct t as [|d t']; [discriminate|].
      apply andb_true_iff in Hwf as [Hd Hwf].
      apply Forall_app; split; [|now apply IH2].
      apply utf8Octets_bytes. now apply surrogatePair_range.
    + apply andb_true_iff in Hwf as [Hc Hwf]. apply N.ltb_lt in Hc.
      apply Forall_app; split; [|now apply IH1].
      apply utf8Octets_bytes. lia.
Qed.

Lemma btoa_bytes bs :
  Forall (fun b => b < 256) bs -> btoa bs = Returned (base64Encode bs).
Proof.
  intros H. unfold btoa.
  replace (forallb (fun c => c <=? 255) bs) with true; [reflexivity|].
  symmetry. apply forallb_forall. intros b Hb. apply N.leb_le.
  pose proof (proj1 (List.Forall_forall _ _) H b Hb). cbv beta in *. lia.
Qed.

(** The content of a well-formed string is always encoded: it is the
    base64 text of its UTF-8 octets. *)
Lemma base64Content_wellFormed s :
  isWellFormed s = true ->
  base64Content s = Returned (base64Encode (utf8Bytes s)).
Proof.
  intros Hwf. unfold base64Content.
  destruct (unescape_encodeURIComponent s Hwf) as [e [He Hu]].
  rewrite He. cbn [bind]. rewrite Hu. apply btoa_bytes. now apply utf8Bytes_bytes.
Qed.

(** ** [uploadFileToGitHub] *)

Lemma existingSha_spec host url auth sha :
  truthy (existingSha host url auth) = Some sha
  <-> sha <> []
      /\ exists r, fetchGET host url auth = Returned r /\ get_ok r = true
                   /\ get_json_sha r = Returned (Some sha).
Proof.
  unfold existingSha, try_catch, bind.
  destruct (fetchGET host url auth) as [r|e].
  - destruct (get_ok r) eqn:Eok.
    + destruct (get_json_sha r) as [[[|c t]|]|e] eqn:Ej; cbn [truthy]; split;
        try discriminate.
      * intros [Hne [r' [Hr [_ Hs]]]]. inversion Hr; subst r'.
        rewrite Ej in Hs. inversion Hs; subst. congruence.
      * intros H. inversion H; subst. split; [discriminate|].
        exists r. now repeat split.
      * intros [_ [r' [Hr [_ Hs]]]]. inversion Hr; subst r'.
        rewrite Ej in Hs. now inversion Hs.
      * intros [_ [r' [Hr [_ Hs]]]]. inversion Hr; subst r'. congruence.
      * intros [_ [r' [Hr [_ Hs]]]]. inversion Hr; subst r'. congruence.
    + cbn [truthy]. split; [discriminate|].
      intros [_ [r' [Hr [Hok _]]]]. inversion Hr; subst r'. congruence.
  - cbn [truthy]. split; [discriminate|].
    intros [_ [r' [Hr _]]]. discriminate.
Qed.

Lemma putResult_spec host r :
  exists result, putResult host r = Returned result /\ ur_success result = put_ok r
  \/ exists e, put_ok r = false /\ put_text r = Thrown e /\ putResult host r = Thrown e.
Proof.
  unfold putResult. destruct (put_ok r); cbn [negb].
  - eexists. left. split; reflexivity.
  - destruct (put_text r) as [t|e]; cbn [bind].
    + eexists. left. split; reflexivity.
    + exists {| ur_success := false; ur_message := None |}. right.
      exists e. now repeat split.
Qed.

Lemma putResult_message host r result :
  putResult host r = Returned result -> ur_success result = false ->
  exists m, ur_message result = Some m /\ m <> [].
Proof.
  unfold putResult. destruct (put_ok r); cbn [negb].
  - intros [= <-]. discriminate.
  - destruct (put_text r) as [t|e]; cbn [bind]; [|discriminate].
    intros [= <-] _. cbn [ur_message].
    eexists; split; [reflexivity|].
    destruct (JSON_parse_message host t);
      [apply orElse_nonempty|]; discriminate.
Qed.

(** C8, as the code has it.  When [pathPrefix + fileName] and the content
    are well formed the call sends the GET and then the PUT and returns a
    result; it does not throw.  The PUT body carries a sha exactly when the
    GET answered ok with a JSON body whose sha is a non-empty string, and
    then it is that sha.  The result is a success exactly when the PUT
    answered ok; every failure carries a non-empty message. *)
Theorem uploadFileToGitHub_settles (host : Host) (config : GitHubConfig)
  (name text commitMessage : jsstring) :
  isWellFormed (pathPrefix config ++ name) = true ->
  isWellFormed text = true ->
  exists url authorization body result,
    uploadFileToGitHub host config name text commitMessage
    = ([GET url authorization; PUT url authorization body], Returned result)
    /\ (forall sha,
          body_sha body = Some sha
          <-> sha <> []
              /\ exists r, fetchGET host url authorization = Returned r
                           /\ get_ok r = true
                           /\ get_json_sha r = Returned (Some sha))
    /\ (ur_success result = true
        <-> exists r, fetchPUT host url authorization body = Returned r
                      /\ put_ok r = true)
    /\ (ur_success result = false ->
        exists m, ur_message result = Some m /\ m <> []).
Proof.
  intros Hpath Htext. unfold uploadFileToGitHub.
  destruct (encodedPath_wellFormed config name Hpath)
    as [p [Hp _]].
  rewrite Hp, (base64Content_wellFormed text Htext).
  set (url := contentsUrl config p).
  set (auth := lit "Bearer " ++ token config).
  set (body := putBody commitMessage (base64Encode (utf8Bytes text))
                 (existingSha host url auth)).
  assert (Hsha : forall sha,
             body_sha body = Some sha
             <-> sha <> []
                 /\ exists r, fetchGET host url auth = Returned r
                              /\ get_ok r = true
                              /\ get_json_sha r = Returned (Some sha))
    by (intros sha; apply existingSha_spec).
  destruct (fetchPUT host url auth body) as [r|e] eqn:Eput; cbn [bind try_catch].
  - destruct (putResult_spec host r) as [result [[Hres Hok]|[e [Hok [Htxt Hres]]]]].
    + rewrite Hres. cbn [try_catch]. exists url, auth, body, result.
      split; [reflexivity|]. split; [exact Hsha|]. split.
      * rewrite Hok. split.
        -- intros H. exists r. now split.
        -- intros [r' [Hr' H]]. congruence.
      * now apply (putResult_message host r).
    + rewrite Hres. cbn [try_catch]. eexists url, auth, body, _.
      split; [reflexivity|]. split; [exact Hsha|]. cbn [ur_success ur_message]. split.
      * split; [discriminate|]. intros [r' [Hr' H]]. congruence.
      * intros _. eexists; split; [reflexivity|]. apply orElse_nonempty. discriminate.
  - eexists url, auth, body, _. split; [reflexivity|]. split; [exact Hsha|].
    cbn [ur_success ur_message]. split.
    + split; [discriminate|]. intros [r' [Hr' _]]. congruence.
    + intros _. eexists; split; [reflexivity|]. apply orElse_nonempty. discriminate.
Qed.

Lemma uploadFileToGitHub_settles_witness :
  isWellFormed (pathPrefix DEFAULT_CONFIG ++ fileName douluoDalu chapter7) = true
  /\ isWellFormed douluoDalu = true
  /\ exists sent result,
       uploadFileToGitHub createdHost DEFAULT_CONFIG
         (fileName douluoDalu chapter7) douluoDalu (lit "Add chapter")
       = (sent, Returned result).
Proof.
  assert (Hpath : isWellFormed
                    (pathPrefix DEFAULT_CONFIG ++ fileName douluoDalu chapter7) = true)
    by (vm_compute; reflexivity).
  assert (Htext : isWellFormed douluoDalu = true) by (vm_compute; reflexivity).
  split; [exact Hpath|]. split; [exact Htext|].
  destruct (uploadFileToGitHub_settles createdHost DEFAULT_CONFIG
              (fileName douluoDalu chapter7) douluoDalu (lit "Add chapter")
              Hpath Htext) as [url [auth [body [result [H _]]]]].
  eexists _, result. exact H.
Defined.

(** C8 as stated fails twice.  The GET can succeed without the PUT body
    carrying a sha: for a path that names a directory the JSON body has no
    sha member.  And the call can throw: the content is encoded outside the
    two [try] blocks, and [encodeURIComponent] throws a URIError on an
    unpaired surrogate. *)
Lemma uploadFileToGitHub_counterexample :
  (exists url authorization r,
      fst (uploadFileToGitHub listingHost DEFAULT_CONFIG [] (lit "text") (lit "Add chapter"))
      = [GET url authorization;
         PUT url authorization
           {| body_message := lit "Add chapter"; body_content := lit "dGV4dA==";
              body_sha := None |}]
      /\ fetchGET listingHost url authorization = Returned r /\ get_ok r = true)
  /\ snd (uploadFileToGitHub createdHost DEFAULT_CONFIG
            (fileName douluoDalu chapter7) [55357] (lit "Add chapter"))
     = Thrown URIError.
Proof.
  split.
  - eexists _, _, _. split; [vm_compute; reflexivity|]. split; reflexivity.
  - vm_compute. reflexivity.
Qed.

(** ** The crawl controller *)

Lemma updateAt_length i f prev next :
  updateAt i f prev = Some next -> length next = length prev.
Proof.
  unfold updateAt. destruct (prev !! i); [|discriminate].
  intros [= <-]. apply length_insert.
Qed.

Lemma updateAt_in_range i f prev :
  (i < length prev)%nat -> exists c, prev !! i = Some c
                                     /\ updateAt i f prev = Some (<[i := f c]> prev).
Proof.
  intros H. destruct (lookup_lt_is_Some_2 prev i H) as [c Hc].
  exists c. split; [exact Hc|]. unfold updateAt. now rewrite Hc.
Qed.

Section Invariant.
Variable n : nat.
Variable result : NovelMetadata.

Lemma closureOf_ok s :
  length (chapters s) = n -> novel s = Some result ->
  closureOK n result (closureOf s).
Proof. intros Hl Hn. split; [exact Hl | exact Hn]. Qed.

Lemma runEffect_invariant s :
  crawlInvariant n result s -> crawlInvariant n result (runEffect s).
Proof.
  intros (Hl & Hn & He & Hlate & Hf & Hu). unfold runEffect.
  destruct (crawlingActive s), (appState s);
    (split; [exact Hl|]; split; [exact Hn|]; split; [|now repeat split]);
    cbn; intros cl [= <-] || (intros cl H; discriminate H).
  now apply closureOf_ok.
Qed.

Lemma render_invariant b before s :
  crawlInvariant n result s -> crawlInvariant n result (render b before s).
Proof.
  intros H. unfold render.
  destruct (b || negb (eqb (crawlingActive before) (crawlingActive s)));
    [now apply runEffect_invariant | exact H].
Qed.

Lemma processNextChapter_invariant cl s s' :
  closureOK n result cl -> crawlInvariant n result s ->
  processNextChapter cl s = Some s' -> crawlInvariant n result s'.
Proof.
  intros [Hcl Hcn] Hs. pose proof Hs as (Hl & Hn & He & Hlate & Hf & Hu).
  unfold processNextChapter.
  destruct (isMounted s); cbn [negb]; [|now intros [= <-]].
  destruct (list_find _ (c_chapters cl)) as [[i c]|] eqn:Efind.
  - destruct (updateAt i (withStatus crawling) (chapters s)) as [next|] eqn:Eup;
      [|discriminate].
    intros [= <-]. apply render_invariant.
    apply updateAt_length in Eup.
    apply list_find_Some in Efind as (Hi & Hp & _).
    pose proof (lookup_lt_Some _ _ _ Hi) as Hlt.
    split; [cbn; congruence|]. split; [exact Hn|]. split; [exact He|].
    split; [exact Hlate|]. split; [|exact Hu].
    cbn. apply Forall_app. split; [exact Hf|].
    constructor; [|constructor].
    split; [cbn; lia|]. split; [now split|]. split; [exact Hi | exact Hp].
  - intros [= <-]. apply render_invariant.
    split; [exact Hl|]. split; [exact Hn|]. split; [exact He|]. now repeat split.
Qed.

Lemma afterFetch_invariant t g s :
  tickOK n result t -> crawlInvariant n result s ->
  crawlInvariant n result (afterFetch t g s).
Proof.
  intros Ht Hs. pose proof Hs as (Hl & Hn & He & Hlate & Hf & Hu).
  unfold afterFetch. destruct (c_novel (closure t)); [|exact Hs].
  destruct (fetchChapterContent _ _ g); [|exact Hs].
  destruct (isMounted s); [|exact Hs].
  split; [exact Hl|]. split; [exact Hn|]. split; [exact He|].
  split; [exact Hlate|]. split; [exact Hf|].
  cbn. apply Forall_app. split; [exact Hu|]. constructor; [exact Ht | constructor].
Qed.

Lemma afterUpload_invariant t text host s s' :
  tickOK n result t -> crawlInvariant n result s ->
  afterUpload t text host s = Some s' -> crawlInvariant n result s'.
Proof.
  intros [Hi [Hcl _]] Hs. pose proof Hs as (Hl & Hn & He & Hlate & Hf & Hu).
  unfold afterUpload. destruct (c_novel (closure t)) as [nm|]; [|now intros [= <-]].
  destruct (uploadFileToGitHub _ _ _ _ _) as [sent [uploadResult|e]].
  - cbn [isMounted addRequests]. destruct (isMounted s); [|now intros [= <-]].
    cbn [chapters addRequests].
    destruct (updateAt _ _ (chapters s)) as [next|] eqn:Eup; [|discriminate].
    apply updateAt_length in Eup.
    intros [= <-]. apply render_invariant.
    destruct (c_crawlingActive (closure t)), (ur_success uploadResult);
      (split; [cbn; congruence|]); (split; [exact Hn|]); (split; [exact He|]);
      (split; [|now split]); cbn; try exact Hlate;
      (apply Forall_app; split; [exact Hlate | constructor; [exact Hcl | constructor]]).
  - now intros [= <-].
Qed.

Lemma step_invariant e s s' :
  crawlInvariant n result s -> step e s = Some s' -> crawlInvariant n result s'.
Proof.
  intros Hs. pose proof Hs as (Hl & Hn & He & Hlate & Hf & Hu).
  destruct e as [| | |k|k g|k host|]; cbn [step].
  - destruct (isMounted s); [|discriminate]. intros [= <-].
    unfold startCrawling. rewrite Hn. destruct (chapters s) eqn:E; [exact Hs|].
    apply render_invariant. rewrite <- E in *.
    split; [exact Hl|]. split; [exact Hn|]. split; [exact He|]. now repeat split.
  - destruct (isMounted s); [|discriminate]. intros [= <-].
    apply render_invariant.
    split; [exact Hl|]. split; [exact Hn|]. split; [exact He|]. now repeat split.
  - destruct (effectTimer s) as [cl|] eqn:E; [|discriminate].
    apply processNextChapter_invariant; [now apply He|].
    split; [exact Hl|]. split; [exact Hn|]. split; [|now repeat split].
    intros cl' H; discriminate H.
  - destruct (lateTimers s !! k) as [cl|] eqn:E; [|discriminate].
    apply processNextChapter_invariant.
    + exact (proj1 (Forall_lookup _ _) Hlate k cl E).
    + split; [exact Hl|]. split; [exact Hn|]. split; [exact He|].
      split; [|now split]. now apply Forall_delete.
  - destruct (fetching s !! k) as [t|] eqn:E; [|discriminate].
    intros [= <-]. apply afterFetch_invariant.
    + exact (proj1 (Forall_lookup _ _) Hf k t E).
    + split; [exact Hl|]. split; [exact Hn|]. split; [exact He|].
      split; [exact Hlate|]. split; [|exact Hu]. now apply Forall_delete.
  - destruct (uploading s !! k) as [[t text]|] eqn:E; [|discriminate].
    apply afterUpload_invariant.
    + exact (proj1 (Forall_lookup _ _) Hu k (t, text) E).
    + split; [exact Hl|]. split; [exact Hn|]. split; [exact He|].
      split; [exact Hlate|]. split; [exact Hf|]. now apply Forall_delete.
  - destruct (isMounted s); [|discriminate]. intros [= <-].
    split; [exact Hl|]. split; [exact Hn|]. split; [|now repeat split].
    intros cl H; discriminate H.
Qed.

Lemma run_invariant es s s' :
  crawlInvariant n result s -> run es s = Some s' -> crawlInvariant n result s'.
Proof.
  revert s. induction es as [|e es IH]; intros s Hs; cbn [run].
  - now intros [= <-].
  - destruct (step e s) as [s1|] eqn:E; [|discriminate].
    apply IH. now apply (step_invariant e s).
Qed.

End Invariant.

Lemma previewOf_invariant cfg result :
  crawlInvariant (length (nm_chapters result)) result (previewOf cfg result).
Proof.
  split; [apply length_imap|]. split; [reflexivity|].
  split; [intros cl H; discriminate H|]. repeat split; constructor.
Qed.


Lemma render_chapters b before s : chapters (render b before s) = chapters s.
Proof.
  unfold render, runEffect.
  destruct (b || _); [|reflexivity]. now destruct (crawlingActive s), (appState s).
Qed.












Lemma initChapters_pending titles :
  Forall (fun c => status c = pending /\ content c = None) (initChapters titles)
  /\ forall i c, initChapters titles !! i = Some c -> id c = N.of_nat i + 1.
Proof.
  unfold initChapters. split.
  - apply Forall_lookup. intros i c Hc. rewrite list_lookup_imap in Hc.
    destruct (titles !! i); [|discriminate]. injection Hc as <-. now split.
  - intros i c Hc. rewrite list_lookup_imap in Hc.
    destruct (titles !! i); [|discriminate]. now injection Hc as <-.
Qed.

(** *** Runs in which ticks overlap or come back *)

(** C3 fails on the code: early in [overlappingRun] two chapters are
    crawling at the same time, and when the timer of line 207 fires at its
    end the first chapter, which was saved, is crawling again.  (The
    closure that line 207 re-arms is that of an earlier render, and the
    effect is re-armed by every change of [chapters].) *)
Theorem crawling_overlaps_and_returns :
  (exists s,
      run (take 3 overlappingRun) (previewOf DEFAULT_CONFIG twoChapters) = Some s
      /\ List.map status (chapters s) = [crawling; crawling])
  /\ (exists s s',
      run overlappingRun (previewOf DEFAULT_CONFIG twoChapters) = Some s
      /\ List.map status (chapters s) = [success; success]
      /\ step (LateTimer 0) s = Some s'
      /\ List.map status (chapters s') = [crawling; success]).
Proof.
  split.
  - eexists. split; [vm_compute; reflexivity | reflexivity].
  - eexists _, _. split; [vm_compute; reflexivity|]. split; [reflexivity|].
    split; [vm_compute; reflexivity | reflexivity].
Qed.

(** C2 fails on the code.  After [sequentialRun] the chapters have been
    processed one after the other and the session has finished; the timer
    of line 207 then runs a tick that selects the first chapter, which is
    saved and not pending, and marks it crawling, although no chapter of
    the queue is pending.  After [restartedRun] the crawl has been paused
    and started again with the first chapter saved; the ticks that follow
    mark the second chapter crawling and then the first, saved, chapter
    too. *)
Theorem late_tick_selects_saved_chapter :
  (exists s s',
      run sequentialRun (previewOf DEFAULT_CONFIG twoChapters) = Some s
      /\ List.map status (chapters s) = [success; success]
      /\ appState s = finished
      /\ step (LateTimer 0) s = Some s'
      /\ List.map status (chapters s') = [crawling; success]
      /\ List.map chapterIndex (fetching s') = [0%nat])
  /\ (exists s s1 s2,
      run restartedRun (previewOf DEFAULT_CONFIG twoChapters) = Some s
      /\ List.map status (chapters s) = [success; pending]
      /\ step EffectTimer s = Some s1
      /\ List.map status (chapters s1) = [success; crawling]
      /\ step (LateTimer 0) s1 = Some s2
      /\ List.map status (chapters s2) = [crawling; crawling]).
Proof.
  split.
  - eexists _, _. split; [vm_compute; reflexivity|]. split; [reflexivity|].
    split; [reflexivity|]. split; [vm_compute; reflexivity|].
    split; reflexivity.
  - eexists _, _, _. split; [vm_compute; reflexivity|]. split; [reflexivity|].
    split; [vm_compute; reflexivity|]. split; [reflexivity|].
    split; [vm_compute; reflexivity | reflexivity].
Qed.

(** ** The content encoding is reversible *)

Ltac dlia := zify; Z.to_euclidean_division_equations; lia.

Lemma list_three_step_ind {A} (P : list A -> Prop) :
  P [] -> (forall a, P [a]) -> (forall a b, P [a; b]) ->
  (forall a b c l, P l -> P (a :: b :: c :: l)) ->
  forall l, P l.
Proof.
  intros H0 H1 H2 H3.
  fix IH 1. intros [|a [|b [|c l]]]; [exact H0 | apply H1 | apply H2|].
  apply H3, IH.
Qed.

Lemma base64Value_base64Char v : v < 64 -> base64Value (base64Char v) = Some v.
Proof.
  intros H. unfold base64Char, base64Value.
  destruct (N.ltb_spec v 26).
  { replace ((65 <=? 65 + v) && (65 + v <=? 90)) with true by (symmetry; b2p; lia).
    f_equal; lia. }
  destruct (N.ltb_spec v 52).
  { replace ((65 <=? 97 + (v - 26)) && (97 + (v - 26) <=? 90)) with false
      by (symmetry; b2p; lia).
    replace ((97 <=? 97 + (v - 26)) && (97 + (v - 26) <=? 122)) with true
      by (symmetry; b2p; lia).
    f_equal; lia. }
  destruct (N.ltb_spec v 62).
  { replace ((65 <=? 48 + (v - 52)) && (48 + (v - 52) <=? 90)) with false
      by (symmetry; b2p; lia).
    replace ((97 <=? 48 + (v - 52)) && (48 + (v - 52) <=? 122)) with false
      by (symmetry; b2p; lia).
    replace ((48 <=? 48 + (v - 52)) && (48 + (v - 52) <=? 57)) with true
      by (symmetry; b2p; lia).
    f_equal; lia. }
  destruct (N.eqb_spec v 62) as [->|Hne]; [reflexivity|].
  assert (v = 63) as -> by lia. reflexivity.
Qed.

Lemma base64Char_plain v :
  v < 64 -> isAsciiWhitespace (base64Char v) = false /\ base64Char v <> 61.
Proof.
  intros H. unfold base64Char, isAsciiWhitespace.
  destruct (N.ltb_spec v 26); [b2p; lia|].
  destruct (N.ltb_spec v 52); [b2p; lia|].
  destruct (N.ltb_spec v 62); [b2p; lia|].
  destruct (N.eqb_spec v 62); split; (reflexivity || discriminate).
Qed.

Lemma base64Encode_split bs : base64Encode bs = base64Body bs ++ base64Padding bs.
Proof.
  induction bs as [|a|a b|a b c l IH] using list_three_step_ind;
    try reflexivity.
  cbn [base64Encode base64Body base64Padding app]. now rewrite IH.
Qed.

Lemma base64Padding_cases bs :
  base64Padding bs = [] \/ base64Padding bs = [61] \/ base64Padding bs = [61; 61].
Proof.
  induction bs as [|a|a b|a b c l IH] using list_three_step_ind; cbn; tauto.
Qed.

Lemma length_mod4_step {A} (a b c d : A) l :
  N.of_nat (length (a :: b :: c :: d :: l)) mod 4 = N.of_nat (length l) mod 4.
Proof.
  cbn [length]. rewrite !Nat2N.inj_succ.
  replace (N.succ (N.succ (N.succ (N.succ (N.of_nat (length l))))))
    with (N.of_nat (length l) + 1 * 4) by lia.
  apply N.Div0.mod_add.
Qed.

Lemma base64Encode_length bs : N.of_nat (length (base64Encode bs)) mod 4 = 0.
Proof.
  induction bs as [|a|a b|a b c l IH] using list_three_step_ind;
    try reflexivity.
  cbn [base64Encode]. now rewrite length_mod4_step.
Qed.

(** The body has only base64 characters, its length is not 1 modulo 4, and
    its sextets decode to the octets. *)
Lemma base64Body_decode bs :
  Forall (fun b => b < 256) bs ->
  Forall (fun c => isAsciiWhitespace c = false /\ c <> 61) (base64Body bs)
  /\ N.of_nat (length (base64Body bs)) mod 4 <> 1
  /\ exists vs, sextets (base64Body bs) = Some vs /\ base64Decode vs = bs.
Proof.
  induction bs as [|a|a b|a b c l IH] using list_three_step_ind; intros H.
  - split; [constructor|]. split; [discriminate|]. now exists [].
  - inversion H as [|? ? Ha _]; subst.
    assert (a / 4 < 64) by dlia. assert (a mod 4 * 16 < 64) by dlia.
    split; [repeat constructor; now apply base64Char_plain|].
    split; [discriminate|].
    cbn [base64Body sextets]. rewrite !base64Value_base64Char by assumption.
    eexists; split; [reflexivity|]. cbn [base64Decode]. f_equal. dlia.
  - inversion H as [|? ? Ha H']; subst. inversion H' as [|? ? Hb _]; subst.
    assert (a / 4 < 64) by dlia. assert (a mod 4 * 16 + b / 16 < 64) by dlia.
    assert (b mod 16 * 4 < 64) by dlia.
    split; [repeat constructor; now apply base64Char_plain|].
    split; [discriminate|].
    cbn [base64Body sextets]. rewrite !base64Value_base64Char by assumption.
    eexists; split; [reflexivity|]. cbn [base64Decode]. f_equal; [|f_equal]; dlia.
  - inversion H as [|? ? Ha H']; subst. inversion H' as [|? ? Hb H'']; subst.
    inversion H'' as [|? ? Hc Hl]; subst.
    destruct (IH Hl) as (Hplain & Hlen & vs & Hvs & Hdec).
    assert (a / 4 < 64) by dlia. assert (a mod 4 * 16 + b / 16 < 64) by dlia.
    assert (b mod 16 * 4 + c / 64 < 64) by dlia. assert (c mod 64 < 64) by dlia.
    cbn [base64Body]. split; [|split].
    + repeat (constructor; [now apply base64Char_plain|]). exact Hplain.
    + now rewrite length_mod4_step.
    + cbn [sextets]. rewrite !base64Value_base64Char by assumption. rewrite Hvs.
      eexists; split; [reflexivity|]. cbn [base64Decode]. rewrite Hdec.
      f_equal; [|f_equal; [|f_equal]]; dlia.
Qed.

Lemma filter_all {A} (f : A -> bool) l :
  Forall (fun x => f x = true) l -> List.filter f l = l.
Proof.
  induction 1 as [|x l Hx _ IH]; [reflexivity|]. cbn. now rewrite Hx, IH.
Qed.

Lemma stripPadding_body body pad :
  Forall (fun c => c <> 61) body ->
  pad = [] \/ pad = [61] \/ pad = [61; 61] ->
  stripPadding (body ++ pad) = body.
Proof.
  intros Hbody Hpad. unfold stripPadding.
  assert (Hrev : Forall (fun c => c <> 61) (rev body)).
  { apply List.Forall_forall. intros c Hc. apply List.in_rev in Hc.
    exact (proj1 (List.Forall_forall _ _) Hbody c Hc). }
  destruct Hpad as [-> | [-> | ->]]; rewrite ?app_nil_r, ?rev_app_distr; cbn [rev app].
  - destruct (rev body) as [|p [|q r]] eqn:E; [reflexivity| |];
      inversion Hrev as [|? ? Hp _]; subst;
      destruct (N.eqb_spec p 61); congruence.
  - destruct (rev body) as [|q r] eqn:E.
    + cbn. apply (f_equal (@rev N)) in E. rewrite rev_involutive in E. now subst.
    + inversion Hrev as [|? ? Hq _]; subst. change (61 =? 61) with true. cbn iota.
      destruct (N.eqb_spec q 61); [congruence|].
      change (rev (q :: r) = body). rewrite <- E. apply rev_involutive.
  - change (61 =? 61) with true. cbn iota. apply rev_involutive.
Qed.

(** [atob] undoes [btoa] on octets. *)
Lemma atob_base64Encode bs :
  Forall (fun b => b < 256) bs -> atob (base64Encode bs) = Returned bs.
Proof.
  intros H. destruct (base64Body_decode bs H) as (Hplain & Hlen & vs & Hvs & Hdec).
  unfold atob. rewrite filter_all.
  - rewrite base64Encode_length. change (0 =? 0) with true. cbn iota.
    rewrite base64Encode_split, stripPadding_body.
    + destruct (N.eqb_spec (N.of_nat (length (base64Body bs)) mod 4) 1);
        [congruence|]. now rewrite Hvs, Hdec.
    + eapply List.Forall_impl; [|exact Hplain]. now intros c [_ Hc].
    + apply base64Padding_cases.
  - rewrite base64Encode_split. apply Forall_app. split.
    + eapply List.Forall_impl; [|exact Hplain]. intros c [Hc _]. now rewrite Hc.
    + destruct (base64Padding_cases bs) as [-> | [-> | ->]]; repeat constructor.
Qed.

Lemma escape_cons b bs : escape (b :: bs) = escapeUnit b ++ escape bs.
Proof. reflexivity. Qed.

Lemma escape_app a b : escape (a ++ b) = escape a ++ escape b.
Proof.
  induction a as [|c a IH]; [reflexivity|].
  cbn [app]. rewrite !escape_cons, IH. apply app_assoc.
Qed.

Lemma escapeUnit_high b : 128 <= b < 256 -> escapeUnit b = percentOctet b.
Proof.
  intros H. unfold escapeUnit.
  replace (escapeUnescaped b) with false
    by (symmetry; unfold escapeUnescaped; b2p; lia).
  destruct (N.ltb_spec b 256); [reflexivity | lia].
Qed.

Lemma escape_high bs :
  Forall (fun b => 128 <= b < 256) bs -> escape bs = percentOctets bs.
Proof.
  induction 1 as [|b bs Hb _ IH]; [reflexivity|].
  rewrite escape_cons, escapeUnit_high, IH by exact Hb. reflexivity.
Qed.

Lemma decodeLoop_literal c f x :
  c <> 37 ->
  decodeLoop (S f) (c :: x) = bind (decodeLoop f x) (fun r => Returned (c :: r)).
Proof.
  intros H. cbn [decodeLoop]. destruct (N.eqb_spec c 37); [congruence | reflexivity].
Qed.

Lemma decodeLoop_percent b f x :
  b < 256 ->
  decodeLoop (S f) (percentOctet b ++ x)
  = match leadingOnes b with
    | O => bind (decodeLoop f x) (fun r => Returned (b :: r))
    | S O => Thrown URIError
    | S n' =>
        if (3 <? n')%nat then Thrown URIError
        else
          match continuationOctets n' x with
          | None => Thrown URIError
          | Some (bs, rest') =>
              match utf8CodePoint (b :: bs) with
              | None => Thrown URIError
              | Some v =>
                  bind (decodeLoop f rest') (fun r =>
                    Returned (UTF16EncodeCodePoint v ++ r))
              end
          end
    end.
Proof.
  intros H. unfold percentOctet. cbn [app decodeLoop].
  change (37 =? 37) with true. cbn iota.
  now rewrite parseHexOctet_percent by exact H.
Qed.

Lemma continuationOctets_percentOctets bs x :
  Forall (fun b => b < 256) bs ->
  continuationOctets (length bs) (percentOctets bs ++ x) = Some (bs, x).
Proof.
  unfold percentOctets. induction 1 as [|b bs Hb _ IH]; [reflexivity|].
  cbn [List.map concat length]. rewrite <- app_assoc.
  unfold percentOctet at 1. cbn [app continuationOctets].
  change (37 =? 37) with true. cbn iota.
  rewrite parseHexOctet_percent by exact Hb. now rewrite IH.
Qed.

Lemma utf8CodePoint_two cp :
  128 <= cp < 2048 ->
  utf8CodePoint [192 + cp / 64; 128 + cp mod 64] = Some cp.
Proof.
  intros H. unfold utf8CodePoint, isContinuation.
  assert (E : (192 + cp / 64 - 192) * 64 + (128 + cp mod 64 - 128) = cp) by dlia.
  rewrite E.
  replace ((128 <=? 128 + cp mod 64) && (128 + cp mod 64 <=? 191) && (128 <=? cp))
    with true by (symmetry; b2p; dlia).
  reflexivity.
Qed.

Lemma utf8CodePoint_three cp :
  2048 <= cp < 65536 -> isLeadSurrogate cp = false -> isTrailSurrogate cp = false ->
  utf8CodePoint [224 + cp / 4096; 128 + (cp / 64) mod 64; 128 + cp mod 64] = Some cp.
Proof.
  intros H Hl Ht. unfold utf8CodePoint, isContinuation.
  assert (E : (224 + cp / 4096 - 224) * 4096 + (128 + (cp / 64) mod 64 - 128) * 64
              + (128 + cp mod 64 - 128) = cp) by dlia.
  rewrite E.
  replace ((128 <=? 128 + (cp / 64) mod 64) && (128 + (cp / 64) mod 64 <=? 191)
           && ((128 <=? 128 + cp mod 64) && (128 + cp mod 64 <=? 191))
           && (2048 <=? cp) && negb ((55296 <=? cp) && (cp <=? 57343)))
    with true; [reflexivity|].
  symmetry. unfold isLeadSurrogate, isTrailSurrogate in *. b2p.
  repeat split; try dlia; destruct Hl as [Hl|Hl], Ht as [Ht|Ht]; lia.
Qed.

Lemma utf8CodePoint_four cp :
  65536 <= cp < 1114112 ->
  utf8CodePoint [240 + cp / 262144; 128 + (cp / 4096) mod 64;
                 128 + (cp / 64) mod 64; 128 + cp mod 64] = Some cp.
Proof.
  intros H. unfold utf8CodePoint, isContinuation.
  assert (E : (240 + cp / 262144 - 240) * 262144
              + (128 + (cp / 4096) mod 64 - 128) * 4096
              + (128 + (cp / 64) mod 64 - 128) * 64
              + (128 + cp mod 64 - 128) = cp) by dlia.
  rewrite E.
  replace ((128 <=? 128 + (cp / 4096) mod 64) && (128 + (cp / 4096) mod 64 <=? 191)
           && ((128 <=? 128 + (cp / 64) mod 64) && (128 + (cp / 64) mod 64 <=? 191))
           && ((128 <=? 128 + cp mod 64) && (128 + cp mod 64 <=? 191))
           && (65536 <=? cp) && (cp <=? 1114111))
    with true; [reflexivity|].
  symmetry. b2p. repeat split; dlia.
Qed.

(** The octets of a code point above U+007F: all of them are at least 128,
    the first announces how many follow, and together they are the
    well-formed UTF-8 of the code point. *)
Lemma utf8Octets_multi cp :
  128 <= cp < 1114112 -> isLeadSurrogate cp = false -> isTrailSurrogate cp = false ->
  exists b0 rest,
    utf8Octets cp = b0 :: rest
    /\ Forall (fun b => 128 <= b < 256) (b0 :: rest)
    /\ leadingOnes b0 = S (length rest)
    /\ (1 <= length rest <= 3)%nat
    /\ utf8CodePoint (b0 :: rest) = Some cp.
Proof.
  intros H Hl Ht. unfold utf8Octets.
  destruct (N.ltb_spec cp 128); [lia|].
  destruct (N.ltb_spec cp 2048); [|destruct (N.ltb_spec cp 65536)].
  - eexists _, _. split; [reflexivity|].
    split; [repeat constructor; dlia|]. split; [|split; [cbn; lia|]].
    + unfold leadingOnes.
      destruct (N.ltb_spec (192 + cp / 64) 128); [dlia|].
      destruct (N.ltb_spec (192 + cp / 64) 192); [dlia|].
      destruct (N.ltb_spec (192 + cp / 64) 224); [reflexivity | dlia].
    + apply utf8CodePoint_two. lia.
  - eexists _, _. split; [reflexivity|].
    split; [repeat constructor; dlia|]. split; [|split; [cbn; lia|]].
    + unfold leadingOnes.
      destruct (N.ltb_spec (224 + cp / 4096) 128); [dlia|].
      destruct (N.ltb_spec (224 + cp / 4096) 192); [dlia|].
      destruct (N.ltb_spec (224 + cp / 4096) 224); [dlia|].
      destruct (N.ltb_spec (224 + cp / 4096) 240); [reflexivity | dlia].
    + apply utf8CodePoint_three; [lia | exact Hl | exact Ht].
  - eexists _, _. split; [reflexivity|].
    split; [repeat constructor; dlia|]. split; [|split; [cbn; lia|]].
    + unfold leadingOnes.
      destruct (N.ltb_spec (240 + cp / 262144) 128); [dlia|].
      destruct (N.ltb_spec (240 + cp / 262144) 192); [dlia|].
      destruct (N.ltb_spec (240 + cp / 262144) 224); [dlia|].
      destruct (N.ltb_spec (240 + cp / 262144) 240); [dlia|].
      destruct (N.ltb_spec (240 + cp / 262144) 248); [reflexivity | dlia].
    + apply utf8CodePoint_four. lia.
Qed.

Lemma escapeUnescaped_not_percent c : escapeUnescaped c = true -> c <> 37.
Proof. unfold escapeUnescaped. intros H. b2p. lia. Qed.

(** One iteration of the decoding loop reads the escaped octets of one
    code point and writes the code point in UTF-16. *)
Lemma decodeLoop_scalar cp f x :
  cp < 1114112 -> isLeadSurrogate cp = false -> isTrailSurrogate cp = false ->
  decodeLoop (S f) (escape (utf8Octets cp) ++ x)
  = bind (decodeLoop f x) (fun r => Returned (UTF16EncodeCodePoint cp ++ r)).
Proof.
  intros H Hl Ht. destruct (N.ltb_spec cp 128) as [Hlow|Hhigh].
  - rewrite utf8Octets_ascii by exact Hlow.
    assert (Hu : UTF16EncodeCodePoint cp = [cp]).
    { unfold UTF16EncodeCodePoint. destruct (N.leb_spec cp 65535); [reflexivity | lia]. }
    rewrite Hu, escape_cons. cbn [escape List.map concat app].
    rewrite app_nil_r. unfold escapeUnit.
    destruct (escapeUnescaped cp) eqn:Eu.
    + cbn [app]. apply decodeLoop_literal. now apply escapeUnescaped_not_percent.
    + destruct (N.ltb_spec cp 256); [|lia].
      rewrite decodeLoop_percent by lia.
      unfold leadingOnes. destruct (N.ltb_spec cp 128); [reflexivity | lia].
  - destruct (utf8Octets_multi cp) as (b0 & rest & E & Hhi & Hlead & Hlen & Hcp);
      [lia | exact Hl | exact Ht|].
    rewrite E, (escape_high _ Hhi).
    unfold percentOctets. cbn [List.map concat]. rewrite <- app_assoc.
    inversion Hhi as [|? ? Hb0 Hrest]; subst.
    rewrite decodeLoop_percent by lia. rewrite Hlead.
    destruct (length rest) as [|j] eqn:Ej; [lia|].
    replace (3 <? S j)%nat with false by (symmetry; apply Nat.ltb_ge; lia).
    rewrite <- Ej. fold (percentOctets rest).
    rewrite continuationOctets_percentOctets.
    + now rewrite Hcp.
    + eapply List.Forall_impl; [|exact Hrest]. intros b Hb; cbv beta in *. lia.
Qed.

Lemma escape_utf8Octets_nonempty cp : escape (utf8Octets cp) <> [].
Proof.
  destruct (utf8Octets cp) as [|b bs] eqn:E; [now apply utf8Octets_nonempty in E|].
  rewrite escape_cons. apply app_nonempty. unfold escapeUnit.
  destruct (escapeUnescaped b); [discriminate|]. destruct (b <? 256); discriminate.
Qed.

Lemma surrogatePair_encode c d :
  isLeadSurrogate c = true -> isTrailSurrogate d = true ->
  UTF16EncodeCodePoint (UTF16SurrogatePairToCodePoint c d) = [c; d].
Proof.
  intros Hc Hd. pose proof (surrogatePair_range c d Hc Hd) as Hr.
  unfold UTF16EncodeCodePoint.
  destruct (N.leb_spec (UTF16SurrogatePairToCodePoint c d) 65535); [lia|].
  unfold UTF16SurrogatePairToCodePoint, isLeadSurrogate, isTrailSurrogate in *.
  b2p. f_equal; [|f_equal]; dlia.
Qed.

Lemma surrogatePair_not_surrogate c d :
  isLeadSurrogate c = true -> isTrailSurrogate d = true ->
  isLeadSurrogate (UTF16SurrogatePairToCodePoint c d) = false
  /\ isTrailSurrogate (UTF16SurrogatePairToCodePoint c d) = false.
Proof.
  intros Hc Hd. pose proof (surrogatePair_range c d Hc Hd) as Hr.
  unfold isLeadSurrogate, isTrailSurrogate. b2p. lia.
Qed.

(** [decodeURIComponent] after [escape] turns the UTF-8 octets of a
    well-formed string back into the string. *)
Lemma decodeLoop_escape_utf8Bytes s :
  isWellFormed s = true ->
  forall f, (length (escape (utf8Bytes s)) <= f)%nat ->
            decodeLoop f (escape (utf8Bytes s)) = Returned s.
Proof.
  induction s as [|c t IH1 IH2] using list_two_step_ind; intros Hwf f Hf.
  - now destruct f.
  - cbn [isWellFormed utf8Bytes] in *.
    destruct (isTrailSurrogate c) eqn:Et; [discriminate|].
    destruct (isLeadSurrogate c) eqn:El.
    + destruct t as [|d t']; [discriminate|].
      apply andb_true_iff in Hwf as [Hd Hwf].
      destruct (surrogatePair_not_surrogate c d El Hd) as [Hnl Hnt].
      pose proof (surrogatePair_range c d El Hd) as Hr.
      rewrite escape_app in Hf |- *. rewrite length_app in Hf.
      pose proof (escape_utf8Octets_nonempty (UTF16SurrogatePairToCodePoint c d)) as Hne.
      destruct f as [|f];
        [destruct (escape (utf8Octets (UTF16SurrogatePairToCodePoint c d)));
         [congruence | cbn in Hf; lia]|].
      rewrite decodeLoop_scalar by (lia || assumption).
      rewrite IH2; [|exact Hwf|].
      * cbn [bind]. now rewrite surrogatePair_encode.
      * destruct (escape (utf8Octets (UTF16SurrogatePairToCodePoint c d)));
          [congruence | cbn in Hf; lia].
    + apply andb_true_iff in Hwf as [Hc Hwf]. apply N.ltb_lt in Hc.
      rewrite escape_app in Hf |- *. rewrite length_app in Hf.
      pose proof (escape_utf8Octets_nonempty c) as Hne.
      destruct f as [|f];
        [destruct (escape (utf8Octets c)); [congruence | cbn in Hf; lia]|].
      rewrite decodeLoop_scalar by (lia || assumption).
      rewrite IH1; [|exact Hwf|].
      * cbn [bind]. unfold UTF16EncodeCodePoint.
        destruct (N.leb_spec c 65535); [reflexivity | lia].
      * destruct (escape (utf8Octets c)); [congruence | cbn in Hf; lia].
Qed.

Lemma encodeURIComponent_returns_wellFormed s :
  Forall code_unit s ->
  (exists e, encodeURIComponent s = Returned e) -> isWellFormed s = true.
Proof.
  induction s as [|c t IH1 IH2] using list_two_step_ind; intros Hcu [e He].
  - reflexivity.
  - inversion Hcu as [|? ? Hc Ht]; subst. unfold code_unit in Hc.
    cbn [isWellFormed encodeURIComponent] in *.
    destruct (uriUnescaped c) eqn:Eu.
    + destruct (uriUnescaped_not_surrogate c Eu) as [-> ->].
      replace (c <? 65536) with true by (symmetry; now apply N.ltb_lt).
      apply IH1; [exact Ht|].
      destruct (encodeURIComponent t) as [e'|]; [now exists e' | discriminate].
    + destruct (isTrailSurrogate c); [discriminate|].
      destruct (isLeadSurrogate c).
      * destruct t as [|d t']; [discriminate|].
        destruct (isTrailSurrogate d); [|discriminate].
        inversion Ht as [|? ? _ Ht']; subst. apply IH2; [exact Ht'|].
        destruct (encodeURIComponent t') as [e'|]; [now exists e' | discriminate].
      * replace (c <? 65536) with true by (symmetry; now apply N.ltb_lt).
        apply IH1; [exact Ht|].
        destruct (encodeURIComponent t) as [e'|]; [now exists e' | discriminate].
Qed.

(** An unpaired surrogate is not Unicode text, and is not encoded. *)
Example base64Content_unpaired_surrogate : base64Content [55357] = Thrown URIError.
Proof. reflexivity. Qed.

(** C9: the content encoding of line 176 is reversible.  For every string,
    whatever base64 text the encoding produces decodes (base64-decode,
    escape, decodeURIComponent) to the string again; and the encoding
    produces a text exactly for the well-formed strings, that is for all
    Unicode text. *)
Theorem base64Content_reversible (s : jsstring) :
  Forall code_unit s ->
  (forall b, base64Content s = Returned b -> decodeBase64Content b = Returned s)
  /\ ((exists b, base64Content s = Returned b) <-> isWellFormed s = true).
Proof.
  intros Hcu.
  assert (Hwf : (exists b, base64Content s = Returned b) -> isWellFormed s = true).
  { intros [b Hb]. apply encodeURIComponent_returns_wellFormed; [exact Hcu|].
    unfold base64Content in Hb.
    destruct (encodeURIComponent s) as [e|]; [now exists e | discriminate]. }
  split; [|split; [exact Hwf|]].
  - intros b Hb. assert (H : isWellFormed s = true) by (apply Hwf; now exists b).
    rewrite (base64Content_wellFormed s H) in Hb. injection Hb as <-.
    unfold decodeBase64Content.
    rewrite atob_base64Encode by now apply utf8Bytes_bytes.
    cbn [bind]. unfold decodeURIComponent.
    now apply decodeLoop_escape_utf8Bytes.
  - intros H. eexists. now apply base64Content_wellFormed.
Qed.

Lemma base64Content_reversible_witness :
  Forall code_unit mixedText
  /\ exists b, base64Content mixedText = Returned b
               /\ decodeBase64Content b = Returned mixedText.
Proof.
  assert (Hcu : Forall code_unit mixedText) by (repeat constructor).
  destruct (base64Content_reversible mixedText Hcu) as [Hdec [_ Hex]].
  destruct (Hex eq_refl) as [b Hb].
  exact (conj Hcu (ex_intro _ b (conj Hb (Hdec b Hb)))).
Defined.

(** ** What a single tick does

    These two lemmas describe a tick against the queue of its own closure;
    they are what remains of the selection rule when ticks overlap. *)

Lemma render_appState b before s : appState (render b before s) = appState s.
Proof.
  unfold render, runEffect. destruct (b || _); [|reflexivity].
  destruct (crawlingActive s), (appState s) eqn:E; cbn; congruence.
Qed.

Lemma render_crawlingActive b before s :
  crawlingActive (render b before s) = crawlingActive s.
Proof.
  unfold render, runEffect. destruct (b || _); [|reflexivity].
  destruct (crawlingActive s) eqn:E, (appState s); cbn; congruence.
Qed.

(** A tick selects the first chapter that is pending in the queue of its
    closure and marks the chapter at that index of the live queue crawling;
    when its closure has no pending chapter it clears the running flag and
    finishes the session, leaving the queue as it is. *)
Lemma processNextChapter_selection cl s :
  isMounted s = true ->
  match list_find (fun c => status c = pending) (c_chapters cl) with
  | None =>
      exists s', processNextChapter cl s = Some s'
                 /\ crawlingActive s' = false /\ appState s' = finished
                 /\ chapters s' = chapters s
  | Some (i, ch) =>
      c_chapters cl !! i = Some ch /\ status ch = pending
      /\ (forall j c, c_chapters cl !! j = Some c -> (j < i)%nat -> status c <> pending)
      /\ (forall c, chapters s !! i = Some c ->
            exists s', processNextChapter cl s = Some s'
                       /\ chapters s' = <[i := withStatus crawling c]> (chapters s))
  end.
Proof.
  intros Hm. unfold processNextChapter. rewrite Hm. cbn [negb].
  destruct (list_find _ (c_chapters cl)) as [[i ch]|] eqn:E.
  - apply list_find_Some in E as (Hi & Hp & Hfirst).
    split; [exact Hi|]. split; [exact Hp|]. split; [exact Hfirst|].
    intros c Hc. unfold updateAt. rewrite Hc. eexists. split; [reflexivity|].
    now rewrite render_chapters.
  - eexists. split; [reflexivity|].
    now rewrite render_crawlingActive, render_appState, render_chapters.
Qed.

(** The session becomes finished in one way only: a tick whose closure has
    no pending chapter. *)
Lemma finished_only_by_empty_tick e s s' :
  step e s = Some s' -> appState s <> finished -> appState s' = finished ->
  exists cl,
    (e = EffectTimer /\ effectTimer s = Some cl
     \/ exists k, e = LateTimer k /\ lateTimers s !! k = Some cl)
    /\ list_find (fun c => status c = pending) (c_chapters cl) = None.
Proof.
  intros Hstep Hnf Hf.
  assert (Htick : forall cl s0, appState s0 = appState s ->
             processNextChapter cl s0 = Some s' ->
             list_find (fun c => status c = pending) (c_chapters cl) = None).
  { intros cl s0 Hs0. unfold processNextChapter.
    destruct (isMounted s0); cbn [negb]; [|intros [= <-]; congruence].
    destruct (list_find _ (c_chapters cl)) as [[i ch]|]; [|reflexivity].
    destruct (updateAt _ _ _); [|discriminate]. intros [= <-].
    rewrite render_appState in Hf. cbn in Hf. congruence. }
  destruct e as [| | |k|k g|k host|]; cbn [step] in Hstep.
  - destruct (isMounted s); [|discriminate]. injection Hstep as <-.
    unfold startCrawling in Hf. destruct (novel s), (chapters s); try congruence.
    rewrite render_appState in Hf. discriminate Hf.
  - destruct (isMounted s); [|discriminate]. injection Hstep as <-.
    unfold stopCrawling in Hf. rewrite render_appState in Hf. now cbn in Hf.
  - destruct (effectTimer s) as [cl|] eqn:E; [|discriminate].
    exists cl. split; [now left|].
    exact (Htick cl (setEffectTimer None s) eq_refl Hstep).
  - destruct (lateTimers s !! k) as [cl|] eqn:E; [|discriminate].
    exists cl. split; [right; now exists k|].
    exact (Htick cl (setLateTimers (delete k (lateTimers s)) s) eq_refl Hstep).
  - destruct (fetching s !! k) as [t|]; [|discriminate]. injection Hstep as <-.
    unfold afterFetch in Hf. destruct (c_novel _); [|now cbn in Hf].
    destruct (fetchChapterContent _ _ _); [|now cbn in Hf].
    cbn [isMounted setFetching] in Hf. destruct (isMounted s); now cbn in Hf.
  - destruct (uploading s !! k) as [[t text]|]; [|discriminate].
    unfold afterUpload in Hstep. destruct (c_novel _); [|injection Hstep as <-; now cbn in Hf].
    destruct (uploadFileToGitHub _ _ _ _ _) as [sent [r|err]];
      [|injection Hstep as <-; now cbn in Hf].
    cbn [isMounted addRequests setUploading] in Hstep.
    destruct (isMounted s); [|injection Hstep as <-; now cbn in Hf].
    destruct (updateAt _ _ _); [|discriminate]. injection Hstep as <-.
    rewrite render_appState in Hf.
    destruct (c_crawlingActive _), (ur_success r); now cbn in Hf.
  - destruct (isMounted s); [|discriminate]. injection Hstep as <-. now cbn in Hf.
Qed.

(** ** The tick armed by the effect

    The effect is re-armed whenever the queue changes, so the closure of
    its timer always has the live queue; the stale queues are those of the
    timers of line 207. *)

Lemma runEffect_live s : effectTimerLive (runEffect s).
Proof.
  unfold effectTimerLive, runEffect. intros cl.
  destruct (crawlingActive s), (appState s); cbn; intros H;
    try discriminate H; now injection H as <-.
Qed.

Lemma render_live b before s :
  (b = true \/ effectTimerLive s) -> effectTimerLive (render b before s).
Proof.
  intros H. unfold render.
  destruct (b || _) eqn:E; [apply runEffect_live|].
  destruct H as [->|H]; [discriminate E | exact H].
Qed.

Lemma step_live e s s' :
  effectTimerLive s -> step e s = Some s' -> effectTimerLive s'.
Proof.
  intros Hs.
  assert (Htick : forall cl s0, effectTimerLive s0 ->
             processNextChapter cl s0 = Some s' -> effectTimerLive s').
  { intros cl s0 H0. unfold processNextChapter.
    destruct (isMounted s0); cbn [negb]; [|now intros [= <-]].
    destruct (list_find _ _) as [[i ch]|].
    - destruct (updateAt _ _ _); [|discriminate]. intros [= <-].
      apply render_live. now left.
    - intros [= <-]. apply render_live. right. exact H0. }
  destruct e as [| | |k|k g|k host|]; cbn [step].
  - destruct (isMounted s); [|discriminate]. intros [= <-].
    unfold startCrawling. destruct (novel s), (chapters s) eqn:E; try exact Hs.
    apply render_live. right. intros cl H. cbn in *. now apply Hs.
  - destruct (isMounted s); [|discriminate]. intros [= <-].
    apply render_live. right. exact Hs.
  - destruct (effectTimer s); [|discriminate]. apply Htick.
    intros cl H; discriminate H.
  - destruct (lateTimers s !! k); [|discriminate]. apply Htick. exact Hs.
  - destruct (fetching s !! k) as [t|]; [|discriminate]. intros [= <-].
    unfold afterFetch. destruct (c_novel _); [|exact Hs].
    destruct (fetchChapterContent _ _ _); [|exact Hs].
    cbn [isMounted setFetching]. destruct (isMounted s); exact Hs.
  - destruct (uploading s !! k) as [[t text]|]; [|discriminate].
    unfold afterUpload. destruct (c_novel _); [|now intros [= <-]].
    destruct (uploadFileToGitHub _ _ _ _ _) as [sent [r|err]];
      [|now intros [= <-]].
    cbn [isMounted addRequests setUploading].
    destruct (isMounted s); [|now intros [= <-]].
    destruct (updateAt _ _ _); [|discriminate]. intros [= <-].
    apply render_live. now left.
  - destruct (isMounted s); [|discriminate]. intros [= <-].
    intros cl H; discriminate H.
Qed.

Lemma reachable_live s : reachable s -> effectTimerLive s.
Proof.
  intros (cfg & result & es & Hrun).
  assert (H0 : effectTimerLive (previewOf cfg result))
    by (intros cl H; discriminate H).
  revert Hrun H0. generalize (previewOf cfg result). clear cfg result.
  induction es as [|e es IH]; intros s0; cbn [run].
  - now intros [= <-].
  - destruct (step e s0) as [s1|] eqn:E; [|discriminate].
    intros Hrun H0. apply (IH s1 Hrun). now apply (step_live e s0).
Qed.

(** In a crawl, the tick of the effect timer selects the first pending
    chapter of the live queue and marks it crawling, touching no other
    chapter; when the live queue has no pending chapter it clears the
    running flag and finishes the session. *)
Lemma effect_tick_selects_first_pending s :
  reachable s -> isMounted s = true -> effectTimer s <> None ->
  match list_find (fun c => status c = pending) (chapters s) with
  | None =>
      exists s', step EffectTimer s = Some s'
                 /\ crawlingActive s' = false /\ appState s' = finished
                 /\ chapters s' = chapters s
  | Some (i, ch) =>
      exists s', step EffectTimer s = Some s'
                 /\ chapters s' = <[i := withStatus crawling ch]> (chapters s)
  end.
Proof.
  intros Hreach Hm Ht. cbn [step].
  destruct (effectTimer s) as [cl|] eqn:E; [|congruence].
  pose proof (reachable_live s Hreach cl E) as Hlive.
  pose proof (processNextChapter_selection cl (setEffectTimer None s) Hm) as H.
  rewrite Hlive in H.
  destruct (list_find _ (chapters s)) as [[i ch]|]; [|exact H].
  destruct H as (Hi & _ & _ & H). now apply H.
Qed.

(** * Further properties of the code *)

(** ** The sources: [[...new Set(sources)]] (geminiService.ts, lines 59, 112) *)







(** ** The queue made by a search (App.tsx, lines 97-101) *)

Lemma initChapters_titles_ids (titles : list jsstring) :
  List.map title (initChapters titles) = titles
  /\ List.map id (initChapters titles)
     = List.map (fun i => N.of_nat i + 1) (seq 0 (length titles)).
Proof.
  assert (Hgen : forall (k : nat) (l : list jsstring),
             List.map title (imap (fun idx t =>
                {| id := N.of_nat (k + idx) + 1; title := t; status := pending;
                   content := None |}) l) = l
             /\ List.map id (imap (fun idx t =>
                {| id := N.of_nat (k + idx) + 1; title := t; status := pending;
                   content := None |}) l)
                = List.map (fun i => N.of_nat i + 1) (seq k (length l))).
  { intros k l. revert k. induction l as [|t l IH]; intros k; [now split|].
    cbn [imap List.map length seq]. rewrite Nat.add_0_r.
    destruct (IH (S k)) as [IH1 IH2]. split.
    - f_equal. rewrite <- IH1 at 2. f_equal. apply imap_ext. intros i x _.
      cbn. now rewrite Nat.add_succ_r.
    - f_equal. rewrite <- IH2. f_equal. apply imap_ext. intros i x _.
      cbn. now rewrite Nat.add_succ_r. }
  exact (Hgen 0%nat titles).
Qed.

(** X2: the queue has one chapter per title of the metadata, in the same
    order, numbered 1, 2, 3, ... without repetition, all pending and
    without content. *)
Theorem initChapters_numbered (titles : list jsstring) :
  length (initChapters titles) = length titles
  /\ List.map title (initChapters titles) = titles
  /\ List.map id (initChapters titles)
     = List.map (fun i => N.of_nat i + 1) (seq 0 (length titles))
  /\ List.NoDup (List.map id (initChapters titles))
  /\ Forall (fun c => status c = pending /\ content c = None) (initChapters titles).
Proof.
  destruct (initChapters_titles_ids titles) as [Ht Hi].
  split; [apply length_imap|]. split; [exact Ht|]. split; [exact Hi|].
  split; [|apply initChapters_pending].
  rewrite Hi. apply Finite.Injective_map_NoDup; [|apply List.seq_NoDup].
  intros a b H. lia.
Qed.

(** ** [sanitize] and [fileName] at the edges (App.tsx, lines 167-174) *)

Lemma isWhiteSpace_not_unsafe c : isWhiteSpace c = true -> unsafeChar c = false.
Proof. unfold isWhiteSpace, unsafeChar. intros H. b2p. lia. Qed.

Lemma lineBreak_isWhiteSpace c : lineBreak c = true -> isWhiteSpace c = true.
Proof. unfold isWhiteSpace, lineBreak. intros H. b2p. lia. Qed.

Lemma trimStart_all_space s :
  Forall (fun c => isWhiteSpace c = true) s -> trimStart s = [].
Proof. induction 1 as [|c s Hc _ IH]; [reflexivity|]. cbn. now rewrite Hc. Qed.

Lemma trim_empty_iff s : trim s = [] <-> Forall (fun c => isWhiteSpace c = true) s.
Proof.
  split.
  - intros H. destruct (trim_split s) as (l & r & Hl & Hr & E).
    rewrite H in E. rewrite E. apply Forall_app. now split.
  - intros H. unfold trim. now rewrite (trimStart_all_space s H).
Qed.

Lemma replace_runs_from_length b cls repl s :
  (length repl <= 1)%nat ->
  (length (replace_runs_from b cls repl s) <= length s)%nat.
Proof.
  intros Hr. revert b. induction s as [|c t IH]; intros b; cbn; [lia|].
  destruct (cls c).
  - rewrite length_app. specialize (IH true). destruct b; cbn; lia.
  - specialize (IH false). cbn. lia.
Qed.

Lemma trim_length s : (length (trim s) <= length s)%nat.
Proof.
  destruct (trim_split s) as (l & r & _ & _ & E).
  rewrite E at 2. rewrite !length_app. lia.
Qed.

Lemma delete_runs_Forall (P : N -> Prop) cls b s :
  (forall c, cls c = true -> P c) ->
  Forall P (replace_runs_from b cls [] s) -> Forall P s.
Proof.
  intros Hcls. revert b. induction s as [|c t IH]; intros b; cbn; [constructor|].
  destruct (cls c) eqn:E.
  - destruct b; cbn [app]; intros H; (constructor; [now apply Hcls | now apply (IH true)]).
  - intros H. inversion H; subst. constructor; [assumption | now apply (IH false)].
Qed.

Lemma underscore_runs_space s :
  Forall (fun c => isWhiteSpace c = true) (replace_runs_from false unsafeChar [95] s) ->
  Forall (fun c => isWhiteSpace c = true) s.
Proof.
  induction s as [|c t IH]; cbn; [constructor|].
  destruct (unsafeChar c) eqn:E.
  - cbn [app]. intros H. inversion H as [|? ? H95 _]. discriminate H95.
  - intros H. inversion H; subst. constructor; [assumption | now apply IH].
Qed.

(** X3: [sanitize] never makes a title longer, and it returns the empty
    string exactly for the titles that consist of white space only (line
    breaks included). *)
Theorem sanitize_empty_iff (s : jsstring) :
  (length (sanitize s) <= length s)%nat
  /\ (sanitize s = [] <-> Forall (fun c => isWhiteSpace c = true) s).
Proof.
  unfold sanitize, replace_runs. split.
  - etransitivity; [apply trim_length|].
    etransitivity; [apply replace_runs_from_length; cbn; lia|].
    apply replace_runs_from_length. cbn; lia.
  - rewrite trim_empty_iff. split.
    + intros H. apply underscore_runs_space.
      revert H. apply delete_runs_Forall. apply lineBreak_isWhiteSpace.
    + intros H. rewrite (replace_runs_from_clean unsafeChar).
      * apply replace_runs_from_Forall; [constructor|].
        intros c Hc _. exact (proj1 (List.Forall_forall _ _) H c Hc).
      * eapply List.Forall_impl; [|exact H]. apply isWhiteSpace_not_unsafe.
Qed.

Lemma uint_units_digits u :
  Forall (fun c => 48 <= c <= 57) (uint_units u).
Proof.
  induction u; cbn [uint_units]; constructor; try assumption;
    unfold digit_unit; lia.
Qed.

Lemma paddedNumber_digits n :
  Forall (fun c => 48 <= c <= 57) (padStart 3 48 (String_of_number n)).
Proof.
  unfold padStart. apply Forall_app. split.
  - apply List.Forall_forall. intros c Hc. apply repeat_spec in Hc. subst. lia.
  - apply uint_units_digits.
Qed.

Lemma sanitize_no_slash s : Forall (fun c => c <> 47) (sanitize s).
Proof.
  eapply List.Forall_impl; [|apply sanitize_clean].
  intros c [Hu _] ->. discriminate Hu.
Qed.

(** X4: whatever the two titles contain, the file name has exactly two
    path segments: the sanitized novel title, and a base name made of the
    padded number, an underscore, the sanitized chapter title and [.md].
    A title cannot add or remove a directory level. *)
Theorem fileName_two_segments (novelTitle : jsstring) (c : Chapter) :
  split 47 (fileName novelTitle c)
  = [sanitize novelTitle;
     padStart 3 48 (String_of_number (id c)) ++ [95] ++ sanitize (title c)
     ++ lit ".md"].
Proof.
  unfold fileName. cbn [app].
  rewrite split_app_sep by apply sanitize_no_slash. f_equal.
  apply split_no_sep. apply Forall_app. split.
  - eapply List.Forall_impl; [|apply paddedNumber_digits]. intros x Hx; cbv beta in *. lia.
  - constructor; [discriminate|]. apply Forall_app. split; [apply sanitize_no_slash|].
    repeat constructor; discriminate.
Qed.

(** Reading a string of decimal digits. *)
Lemma unitsToUint_units u : unitsToUint (uint_units u) = Some u.
Proof.
  induction u; cbn [uint_units unitsToUint]; [reflexivity|..];
    rewrite IHu; reflexivity.
Qed.

Lemma unitsToUint_zeros k s :
  unitsToUint (repeat 48 k ++ s)
  = option_map (Nat.iter k Decimal.D0) (unitsToUint s).
Proof.
  induction k as [|k IH]; cbn [repeat app Nat.iter].
  - now destruct (unitsToUint s).
  - cbn [unitsToUint]. rewrite IH. now destruct (unitsToUint s).
Qed.

Lemma of_uint_zeros k u : N.of_uint (Nat.iter k Decimal.D0 u) = N.of_uint u.
Proof.
  induction k as [|k IH]; [reflexivity|]. cbn [Nat.iter].
  rewrite <- DecimalN.Unsigned.of_uint_norm.
  change (Decimal.unorm (Decimal.D0 (Nat.iter k Decimal.D0 u)))
    with (Decimal.unorm (Nat.iter k Decimal.D0 u)).
  now rewrite DecimalN.Unsigned.of_uint_norm.
Qed.

Lemma paddedNumber_inj n m :
  padStart 3 48 (String_of_number n) = padStart 3 48 (String_of_number m) -> n = m.
Proof.
  unfold padStart, String_of_number. intros H.
  apply (f_equal unitsToUint) in H.
  rewrite !unitsToUint_zeros, !unitsToUint_units in H. cbn [option_map] in H.
  injection H as H. apply (f_equal N.of_uint) in H.
  now rewrite !of_uint_zeros, !DecimalN.Unsigned.of_to in H.
Qed.

Lemma app_sep_inj (x : N) a b r r' :
  Forall (fun c => c <> x) a -> Forall (fun c => c <> x) b ->
  a ++ x :: r = b ++ x :: r' -> a = b /\ r = r'.
Proof.
  intros Ha. revert b. induction Ha as [|c a Hc Ha IH]; intros b Hb E.
  - destruct Hb as [|d b Hd Hb]; cbn in E.
    + injection E as E. now split.
    + injection E as E _. congruence.
  - destruct Hb as [|d b Hd Hb]; cbn in E.
    + injection E as E _. congruence.
    + injection E as -> E. destruct (IH b Hb E) as [-> ->]. now split.
Qed.

(** X5: the file name determines the sanitized novel title, the chapter
    number and the sanitized chapter title: two chapters with different
    numbers never get the same file name, whatever their titles are. *)
Theorem fileName_injective (novelTitle novelTitle' : jsstring) (c c' : Chapter) :
  fileName novelTitle c = fileName novelTitle' c' ->
  sanitize novelTitle = sanitize novelTitle'
  /\ id c = id c'
  /\ sanitize (title c) = sanitize (title c').
Proof.
  unfold fileName. cbn [app]. intros H.
  apply app_sep_inj in H as [Hn H]; try apply sanitize_no_slash.
  split; [exact Hn|].
  apply app_sep_inj in H as [Hid H].
  - split; [now apply paddedNumber_inj|]. now apply app_inv_tail in H.
  - eapply List.Forall_impl; [|apply paddedNumber_digits]. intros x Hx; cbv beta in *. lia.
  - eapply List.Forall_impl; [|apply paddedNumber_digits]. intros x Hx; cbv beta in *. lia.
Qed.

Lemma fileName_injective_witness :
  fileName douluoDalu chapter7 = fileName douluoDalu chapter7asked
  /\ sanitize (title chapter7) = sanitize (title chapter7asked).
Proof.
  assert (H : fileName douluoDalu chapter7 = fileName douluoDalu chapter7asked)
    by (vm_compute; reflexivity).
  exact (conj H
           (proj2 (proj2 (fileName_injective douluoDalu douluoDalu chapter7
                            chapter7asked H)))).
Defined.

(** ** The store path once more (githubService.ts, lines 149-153) *)

Lemma rawPath_join cfg name :
  rawPath cfg name = join 47 (normalSegments (split 47 (pathPrefix cfg ++ name))).
Proof. rewrite <- rawPath_segments. symmetry. apply join_split. Qed.

Lemma filter_nonEmpty_idem (l : list jsstring) :
  List.filter nonEmpty (List.filter nonEmpty l) = List.filter nonEmpty l.
Proof.
  induction l as [|x l IH]; [reflexivity|]. cbn.
  destruct (nonEmpty x) eqn:E; cbn; rewrite ?E, IH; reflexivity.
Qed.

Lemma normalSegments_idem segs :
  normalSegments (normalSegments segs) = normalSegments segs.
Proof.
  unfold normalSegments at 1. rewrite normalSegments_removelast.
  rewrite filter_nonEmpty_idem. unfold normalSegments.
  now rewrite List.last_last.
Qed.

Lemma collapse_double_slash b a r :
  replace_runs_from b isSlash [47] (a ++ 47 :: 47 :: r)
  = replace_runs_from b isSlash [47] (a ++ 47 :: r).
Proof.
  revert b. induction a as [|c a IH]; intros b; cbn [app replace_runs_from].
  - change (isSlash 47) with true. cbn iota. now destruct b.
  - destruct (isSlash c); now rewrite IH.
Qed.

(** X6: the normalisation of the path is idempotent, a slash in front of
    the prefix makes no difference, and neither does it whether the prefix
    ends with a slash, the file name starts with one, or both. *)
Theorem rawPath_idempotent (config : GitHubConfig) (p name : jsstring) :
  rawPath (withPathPrefix config []) (rawPath config name) = rawPath config name
  /\ rawPath (withPathPrefix config (47 :: p)) name
     = rawPath (withPathPrefix config p) name
  /\ rawPath (withPathPrefix config (p ++ [47])) (47 :: name)
     = rawPath (withPathPrefix config (p ++ [47])) name
  /\ rawPath (withPathPrefix config p) (47 :: name)
     = rawPath (withPathPrefix config (p ++ [47])) name.
Proof.
  split; [|split; [|split]].
  - rewrite (rawPath_join (withPathPrefix config [])). cbn [pathPrefix withPathPrefix app].
    rewrite rawPath_segments, normalSegments_idem. symmetry. apply rawPath_join.
  - rewrite !rawPath_join. cbn [pathPrefix withPathPrefix app].
    rewrite split_cons_sep, normalSegments_cons_empty by apply split_nonempty.
    reflexivity.
  - unfold rawPath, replace_runs. cbn [pathPrefix withPathPrefix].
    rewrite <- !app_assoc. cbn [app]. now rewrite collapse_double_slash.
  - unfold rawPath. cbn [pathPrefix withPathPrefix].
    now rewrite <- !app_assoc.
Qed.

(** *** Decoding the encoded path *)

Lemma decodeLoop_percent_scalar cp f x :
  cp < 1114112 -> isLeadSurrogate cp = false -> isTrailSurrogate cp = false ->
  decodeLoop (S f) (percentOctets (utf8Octets cp) ++ x)
  = bind (decodeLoop f x) (fun r => Returned (UTF16EncodeCodePoint cp ++ r)).
Proof.
  intros H Hl Ht. destruct (N.ltb_spec cp 128) as [Hlow|Hhigh].
  - rewrite utf8Octets_ascii by exact Hlow.
    assert (Hu : UTF16EncodeCodePoint cp = [cp]).
    { unfold UTF16EncodeCodePoint. destruct (N.leb_spec cp 65535); [reflexivity | lia]. }
    rewrite Hu. unfold percentOctets. cbn [List.map concat]. rewrite app_nil_r.
    rewrite decodeLoop_percent by lia.
    unfold leadingOnes. destruct (N.ltb_spec cp 128); [reflexivity | lia].
  - destruct (utf8Octets_multi cp) as (b0 & rest & E & Hhi & Hlead & Hlen & Hcp);
      [lia | exact Hl | exact Ht|].
    rewrite E. unfold percentOctets. cbn [List.map concat]. rewrite <- app_assoc.
    inversion Hhi as [|? ? Hb0 Hrest]; subst.
    rewrite decodeLoop_percent by lia. rewrite Hlead.
    destruct (length rest) as [|j] eqn:Ej; [lia|].
    replace (3 <? S j)%nat with false by (symmetry; apply Nat.ltb_ge; lia).
    rewrite <- Ej. fold (percentOctets rest).
    rewrite continuationOctets_percentOctets.
    + now rewrite Hcp.
    + eapply List.Forall_impl; [|exact Hrest]. intros b Hb; cbv beta in *. lia.
Qed.

Lemma decodeLoop_encodeURIComponent s :
  isWellFormed s = true ->
  exists e, encodeURIComponent s = Returned e
            /\ forall f, (length e <= f)%nat -> decodeLoop f e = Returned s.
Proof.
  induction s as [|c t IH1 IH2] using list_two_step_ind; intros Hwf.
  - exists []. split; [reflexivity|]. now intros [|f].
  - cbn [isWellFormed encodeURIComponent] in *.
    destruct (uriUnescaped c) eqn:Eu.
    + destruct (uriUnescaped_not_surrogate c Eu) as [El Et].
      destruct (uriUnescaped_ascii c Eu) as [_ Hne].
      rewrite El, Et in Hwf. apply andb_true_iff in Hwf as [_ Hwf].
      destruct (IH1 Hwf) as [e [He Hdec]]. rewrite He. cbn [bind].
      exists (c :: e). split; [reflexivity|]. intros [|f] Hf; [cbn in Hf; lia|].
      rewrite decodeLoop_literal by exact Hne.
      rewrite Hdec by (cbn in Hf; lia). reflexivity.
    + destruct (isTrailSurrogate c) eqn:Et; [discriminate|].
      destruct (isLeadSurrogate c) eqn:El.
      * destruct t as [|d t']; [discriminate|].
        apply andb_true_iff in Hwf as [Hd Hwf]. rewrite Hd.
        destruct (surrogatePair_not_surrogate c d El Hd) as [Hnl Hnt].
        pose proof (surrogatePair_range c d El Hd) as Hr.
        destruct (IH2 Hwf) as [e [He Hdec]]. rewrite He. cbn [bind].
        eexists; split; [reflexivity|]. intros f Hf. rewrite length_app in Hf.
        pose proof (percentOctets_nonempty _
                      (utf8Octets_nonempty (UTF16SurrogatePairToCodePoint c d))) as Hne.
        destruct f as [|f];
          [destruct (percentOctets _); [congruence | cbn in Hf; lia]|].
        rewrite decodeLoop_percent_scalar by (lia || assumption).
        rewrite Hdec.
        -- cbn [bind]. now rewrite surrogatePair_encode.
        -- destruct (percentOctets _); [congruence | cbn in Hf; lia].
      * apply andb_true_iff in Hwf as [Hc Hwf]. apply N.ltb_lt in Hc.
        destruct (IH1 Hwf) as [e [He Hdec]]. rewrite He. cbn [bind].
        eexists; split; [reflexivity|]. intros f Hf. rewrite length_app in Hf.
        pose proof (percentOctets_nonempty _ (utf8Octets_nonempty c)) as Hne.
        destruct f as [|f];
          [destruct (percentOctets _); [congruence | cbn in Hf; lia]|].
        rewrite decodeLoop_percent_scalar by (lia || assumption).
        rewrite Hdec.
        -- cbn [bind]. unfold UTF16EncodeCodePoint.
           destruct (N.leb_spec c 65535); [reflexivity | lia].
        -- destruct (percentOctets _); [congruence | cbn in Hf; lia].
Qed.

(** X7: the percent-encoding of the path loses nothing: when
    [pathPrefix + fileName] is well formed, decoding each segment of the
    encoded path with [decodeURIComponent] gives the segments of the raw
    path back. *)
Theorem encodedPath_decodes (config : GitHubConfig) (name : jsstring) :
  isWellFormed (pathPrefix config ++ name) = true ->
  exists p,
    encodedPath (rawPath config name) = Returned p
    /\ Forall2 (fun seg e => decodeURIComponent e = Returned seg)
         (split 47 (rawPath config name)) (split 47 p).
Proof.
  intros Hwf.
  destruct (encodedPath_wellFormed config name Hwf)
    as (p & Hp & Hall & _).
  exists p. split; [exact Hp|].
  assert (Hsegs : Forall (fun seg => isWellFormed seg = true)
                    (split 47 (rawPath config name))).
  { apply List.Forall_forall. intros seg Hin. rewrite rawPath_segments in Hin.
    apply normalSegments_incl in Hin; [|apply split_nonempty].
    revert seg Hin. apply List.Forall_forall. now apply isWellFormed_split. }
  revert Hsegs. induction Hall as [|seg e segs es He _ IH]; intros Hsegs;
    [constructor|].
  inversion Hsegs as [|? ? Hseg Hrest]; subst.
  constructor; [|now apply IH].
  destruct (decodeLoop_encodeURIComponent seg Hseg) as [e' [He' Hdec]].
  rewrite He in He'. injection He' as <-. unfold decodeURIComponent.
  now apply Hdec.
Qed.

Lemma encodedPath_decodes_witness :
  isWellFormed (pathPrefix DEFAULT_CONFIG ++ fileName douluoDalu chapter7) = true
  /\ exists p,
      encodedPath (rawPath DEFAULT_CONFIG (fileName douluoDalu chapter7)) = Returned p
      /\ Forall2 (fun seg e => decodeURIComponent e = Returned seg)
           (split 47 (rawPath DEFAULT_CONFIG (fileName douluoDalu chapter7)))
           (split 47 p).
Proof.
  assert (Hwf : isWellFormed
                  (pathPrefix DEFAULT_CONFIG ++ fileName douluoDalu chapter7) = true)
    by (vm_compute; reflexivity).
  exact (conj Hwf (encodedPath_decodes DEFAULT_CONFIG (fileName douluoDalu chapter7) Hwf)).
Defined.

(** ** When [uploadFileToGitHub] throws (githubService.ts, lines 149-176) *)

Lemma encodeURIComponent_thrown s e :
  encodeURIComponent s = Thrown e -> e = URIError.
Proof.
  revert e. induction s as [|c t IH1 IH2] using list_two_step_ind; intros e;
    cbn [encodeURIComponent]; [discriminate|].
  destruct (uriUnescaped c).
  { destruct (encodeURIComponent t); cbn [bind]; [discriminate|].
    intros [= <-]. now apply IH1. }
  destruct (isTrailSurrogate c); [now intros [= <-]|].
  destruct (isLeadSurrogate c).
  - destruct t as [|d t']; [now intros [= <-]|].
    destruct (isTrailSurrogate d); [|now intros [= <-]].
    destruct (encodeURIComponent t'); cbn [bind]; [discriminate|].
    intros [= <-]. now apply IH2.
  - destruct (encodeURIComponent t); cbn [bind]; [discriminate|].
    intros [= <-]. now apply IH1.
Qed.

Lemma mapEncode_thrown segs e : mapEncode segs = Thrown e -> e = URIError.
Proof.
  induction segs as [|seg segs IH]; cbn [mapEncode]; [discriminate|].
  destruct (encodeURIComponent seg) eqn:E; cbn [bind].
  - destruct (mapEncode segs); cbn [bind]; [discriminate|].
    intros [= <-]. now apply IH.
  - intros [= <-]. now apply (encodeURIComponent_thrown seg).
Qed.

Lemma not_true_false (b : bool) : b <> true -> b = false.
Proof. now destruct b. Qed.

(** X8: the call throws only because of an unpaired surrogate in the path
    or in the content; what it throws is then a URIError, and no PUT has
    been sent: a call that throws has written nothing to the store. *)
Theorem uploadFileToGitHub_throws_before_writing (host : Host)
  (config : GitHubConfig) (name text commitMessage : jsstring)
  (sent : list Request) (e : JsError) :
  Forall code_unit text ->
  uploadFileToGitHub host config name text commitMessage = (sent, Thrown e) ->
  e = URIError
  /\ sendsPut sent = false
  /\ (isWellFormed (pathPrefix config ++ name) = false
      \/ isWellFormed text = false).
Proof.
  intros Hcu. unfold uploadFileToGitHub.
  destruct (encodedPath (rawPath config name)) as [p|e'] eqn:Ep.
  - destruct (base64Content text) as [b|e''] eqn:Eb.
    + intros [= <- H]. exfalso. revert H. unfold try_catch.
      destruct (bind _ _); discriminate.
    + intros [= <- <-].
      assert (Hwf : isWellFormed text = false).
      { apply not_true_false. intros Hwf.
        rewrite (base64Content_wellFormed text Hwf) in Eb. discriminate Eb. }
      split; [|split; [reflexivity | now right]].
      unfold base64Content in Eb.
      destruct (encodeURIComponent text) as [x|ex] eqn:Ex; cbn [bind] in Eb.
      * exfalso. rewrite (encodeURIComponent_returns_wellFormed text Hcu) in Hwf;
          [discriminate | now exists x].
      * injection Eb as <-. now apply (encodeURIComponent_thrown text).
  - intros [= <- <-]. split; [|split; [reflexivity | left]].
    + unfold encodedPath in Ep.
      destruct (mapEncode _) eqn:Em; cbn [bind] in Ep; [discriminate|].
      injection Ep as <-. now apply (mapEncode_thrown _ _ Em).
    + apply not_true_false. intros Hwf.
      destruct (encodedPath_wellFormed config name Hwf)
        as (p & Hp & _).
      congruence.
Qed.

Lemma uploadFileToGitHub_throws_before_writing_witness :
  Forall code_unit [55357]
  /\ uploadFileToGitHub createdHost DEFAULT_CONFIG (fileName douluoDalu chapter7)
       [55357] (lit "Add chapter")
     = (fst (uploadFileToGitHub createdHost DEFAULT_CONFIG
               (fileName douluoDalu chapter7) [55357] (lit "Add chapter")),
        Thrown URIError)
  /\ sendsPut (fst (uploadFileToGitHub createdHost DEFAULT_CONFIG
                      (fileName douluoDalu chapter7) [55357] (lit "Add chapter")))
     = false.
Proof.
  assert (Hcu : Forall code_unit [55357]) by (repeat constructor).
  assert (H : uploadFileToGitHub createdHost DEFAULT_CONFIG
                (fileName douluoDalu chapter7) [55357] (lit "Add chapter")
              = (fst (uploadFileToGitHub createdHost DEFAULT_CONFIG
                        (fileName douluoDalu chapter7) [55357] (lit "Add chapter")),
                 Thrown URIError))
    by (vm_compute; reflexivity).
  exact (conj Hcu (conj H
           (proj1 (proj2 (uploadFileToGitHub_throws_before_writing createdHost
                            DEFAULT_CONFIG (fileName douluoDalu chapter7) [55357]
                            (lit "Add chapter") _ URIError Hcu H))))).
Defined.

(** ** Invariants of a crawl (App.tsx, lines 114-220) *)

















Lemma fetchChapterContent_nonempty novelTitle chapterTitle generateContent :
  exists text,
    fetchChapterContent novelTitle chapterTitle generateContent = Returned text
    /\ text <> [].
Proof.
  unfold fetchChapterContent.
  destruct generateContent as [response|e]; cbn [try_catch bind].
  - assert (Hne : orElse (text response) noContent <> [])
      by (apply orElse_nonempty; discriminate).
    destruct (match groundingChunks response with
              | Some chunks => chunkSources chunks
              | None => []
              end) as [|x srcs].
    + eexists; split; [reflexivity | exact Hne].
    + eexists; split; [reflexivity | now apply app_nonempty].
  - eexists; split; [reflexivity | discriminate].
Qed.





(** ** Who writes to a chapter (App.tsx, lines 136-207) *)























(** ** Progress (App.tsx, lines 202-203) *)




(** ** The effect and its timer (App.tsx, lines 127-131 and 214-220) *)

Lemma render_armed b before s :
  render b before s
  = setEffectTimer
      (if b || negb (eqb (crawlingActive before) (crawlingActive s))
       then armed s else effectTimer s) s.
Proof.
  unfold render, runEffect, armed. destruct (b || _).
  - now destruct (crawlingActive s), (appState s).
  - now destruct s.
Qed.

(** Every way in which an event can happen, with the state it leads to
    written out. *)
Ltac step_cases H :=
  match type of H with
  | step ?e ?s = Some ?s' =>
      destruct e as [| | |?k|?k ?g|?k ?host|]; cbn [step] in H;
      [ destruct (isMounted s) eqn:?Hm; [|discriminate H];
        injection H as <-; unfold startCrawling;
        destruct (novel s) eqn:?Hn;
        [destruct (chapters s) eqn:?Hch; [|rewrite render_armed]|]
      | destruct (isMounted s) eqn:?Hm; [|discriminate H];
        injection H as <-; unfold stopCrawling; rewrite render_armed
      | destruct (effectTimer s) as [?cl|] eqn:?Het; [|discriminate H];
        unfold processNextChapter, updateAt in H;
        cbn [isMounted chapters fetching setEffectTimer] in H;
        destruct (isMounted s) eqn:?Hm; cbn [negb] in H;
        [ destruct (list_find _ _) as [[?j ?ch]|] eqn:?Hfind;
          [ destruct (chapters s !! _) as [?c|] eqn:?Hc; [|discriminate H] |];
          injection H as <-; rewrite render_armed
        | injection H as <- ]
      | destruct (lateTimers s !! k) as [?cl|] eqn:?Hlt; [|discriminate H];
        unfold processNextChapter, updateAt in H;
        cbn [isMounted chapters fetching setLateTimers] in H;
        destruct (isMounted s) eqn:?Hm; cbn [negb] in H;
        [ destruct (list_find _ _) as [[?j ?ch]|] eqn:?Hfind;
          [ destruct (chapters s !! _) as [?c|] eqn:?Hc; [|discriminate H] |];
          injection H as <-; rewrite render_armed
        | injection H as <- ]
      | destruct (fetching s !! k) as [?t|] eqn:?Hf; [|discriminate H];
        injection H as <-; unfold afterFetch;
        cbn [isMounted uploading setFetching];
        destruct (c_novel _) as [?nm|] eqn:?Hcn;
        [ destruct (fetchChapterContent _ _ _) as [?text|?err] eqn:?Hfc;
          [ destruct (isMounted s) eqn:?Hm |] |]
      | destruct (uploading s !! k) as [[?t ?text]|] eqn:?Hu; [|discriminate H];
        unfold afterUpload, updateAt in H;
        destruct (c_novel _) as [?nm|] eqn:?Hcn;
        [ destruct (uploadFileToGitHub _ _ _ _ _) as [?sent [?r|?err]] eqn:?Hup;
          [ cbn [isMounted chapters addRequests setUploading] in H;
            destruct (isMounted s) eqn:?Hm;
            [ destruct (chapters s !! _) as [?c|] eqn:?Hc; [|discriminate H];
              injection H as <-; rewrite render_armed;
              destruct (c_crawlingActive _) eqn:?Hca, (ur_success r) eqn:?Hok
            | injection H as <- ]
          | injection H as <- ]
        | injection H as <- ]
      | destruct (isMounted s) eqn:?Hm; [|discriminate H]; injection H as <- ]
  end.

Ltac fields :=
  cbn [config appState logs novel chapters crawlingActive progress isMounted
       effectTimer lateTimers fetching uploading requests
       setChapters setFetching setUploading setLateTimers setEffectTimer
       setMounted setProgress setAppState setCrawlingActive addLog addRequests
       closureOf c_chapters c_novel c_config c_crawlingActive
       orb negb eqb] in *.





(** ** The unmounted component (App.tsx, lines 133, 159 and 183) *)

Lemma length_delete_le {A} (l : list A) k : (length (delete k l) <= length l)%nat.
Proof. apply sublist_length, sublist_delete. Qed.

Lemma unmounted_step e s s' :
  isMounted s = false -> step e s = Some s' ->
  isMounted s' = false /\ chapters s' = chapters s /\ appState s' = appState s
  /\ crawlingActive s' = crawlingActive s /\ progress s' = progress s
  /\ logs s' = logs s
  /\ (length (fetching s') <= length (fetching s))%nat
  /\ (length (uploading s') <= length (uploading s))%nat
  /\ (length (lateTimers s') <= length (lateTimers s))%nat.
Proof.
  intros Hm0 Hstep.
  step_cases Hstep; fields; try congruence;
    repeat split; try assumption; try reflexivity; try apply length_delete_le.
Qed.

(** X14: once the component is unmounted nothing it shows changes any
    more, whatever timers run out and whatever calls settle afterwards: the
    queue, the state of the session, the progress and the log stay as they
    are, and no fetch and no upload is started. *)
Theorem unmounted_component_is_frozen (s : App) (es : list Event) (s' : App) :
  isMounted s = false -> run es s = Some s' ->
  isMounted s' = false /\ chapters s' = chapters s /\ appState s' = appState s
  /\ crawlingActive s' = crawlingActive s /\ progress s' = progress s
  /\ logs s' = logs s
  /\ (length (fetching s') <= length (fetching s))%nat
  /\ (length (uploading s') <= length (uploading s))%nat
  /\ (length (lateTimers s') <= length (lateTimers s))%nat.
Proof.
  revert s. induction es as [|e es IH]; intros s Hm; cbn [run].
  - intros [= <-]. repeat split; (assumption || lia).
  - destruct (step e s) as [s1|] eqn:E; [|discriminate]. intros Hrun.
    destruct (unmounted_step e s s1 Hm E)
      as (Hm1 & E1 & E2 & E3 & E4 & E5 & L1 & L2 & L3).
    destruct (IH s1 Hm1 Hrun) as (Hm' & F1 & F2 & F3 & F4 & F5 & M1 & M2 & M3).
    repeat split; (congruence || lia).
Qed.

Lemma unmounted_component_is_frozen_witness :
  isMounted unmountedState = false
  /\ run [FetchSettled 0 someText] unmountedState = Some unmountedLater
  /\ chapters unmountedLater = chapters unmountedState
  /\ logs unmountedLater = logs unmountedState
  /\ (length (uploading unmountedLater) <= length (uploading unmountedState))%nat.
Proof.
  assert (H1 : isMounted unmountedState = false) by reflexivity.
  assert (H2 : run [FetchSettled 0 someText] unmountedState = Some unmountedLater)
    by (vm_compute; reflexivity).
  pose proof (unmounted_component_is_frozen unmountedState
                [FetchSettled 0 someText] unmountedLater H1 H2)
    as (_ & Hc & _ & _ & _ & Hl & _ & Hu & _).
  exact (conj H1 (conj H2 (conj Hc (conj Hl Hu)))).
Defined.

(** ** A settled fetch (App.tsx, lines 157-176) *)

(** X15: in a crawl, when the fetch of a mounted component settles, the
    upload is started whatever the provider did: [fetchChapterContent]
    returns a text that is not empty, also when the provider failed, and
    that text is uploaded as the chapter.  The queue is not touched. *)
Theorem settled_fetch_starts_upload (cfg : GitHubConfig) (result : NovelMetadata)
  (es : list Event) (s : App) (k : nat) (t : Tick)
  (g : outcome GenerateContentResponse) :
  run es (previewOf cfg result) = Some s ->
  isMounted s = true ->
  fetching s !! k = Some t ->
  exists s' text,
    step (FetchSettled k g) s = Some s'
    /\ fetchChapterContent (nm_title result) (title (chapter t)) g = Returned text
    /\ text <> []
    /\ uploading s' = uploading s ++ [(t, text)]
    /\ fetching s' = delete k (fetching s)
    /\ chapters s' = chapters s.
Proof.
  intros Hrun Hm Hk.
  pose proof (run_invariant _ _ es _ _ (previewOf_invariant cfg result) Hrun)
    as (_ & _ & _ & _ & Hf & _).
  destruct (proj1 (Forall_lookup _ _) Hf k t Hk) as (_ & [_ Hn] & _).
  destruct (fetchChapterContent_nonempty (nm_title result) (title (chapter t)) g)
    as (text & Hfc & Hne).
  eexists. exists text. cbn [step]. rewrite Hk. split; [reflexivity|].
  unfold afterFetch. rewrite Hn, Hfc. cbn [isMounted setFetching]. rewrite Hm.
  now repeat split.
Qed.

Lemma settled_fetch_starts_upload_witness :
  run [ClickStart; EffectTimer] (previewOf DEFAULT_CONFIG twoChapters)
  = Some fetchingState
  /\ isMounted fetchingState = true
  /\ fetching fetchingState !! 0%nat = Some fetchingTick
  /\ exists s' text,
       step (FetchSettled 0 (Thrown quotaError)) fetchingState = Some s'
       /\ fetchChapterContent (nm_title twoChapters) (title (chapter fetchingTick))
            (Thrown quotaError) = Returned text
       /\ text <> []
       /\ uploading s' = uploading fetchingState ++ [(fetchingTick, text)]
       /\ fetching s' = delete 0%nat (fetching fetchingState)
       /\ chapters s' = chapters fetchingState.
Proof.
  assert (H1 : run [ClickStart; EffectTimer] (previewOf DEFAULT_CONFIG twoChapters)
               = Some fetchingState) by (vm_compute; reflexivity).
  assert (H2 : isMounted fetchingState = true) by reflexivity.
  assert (H3 : fetching fetchingState !! 0%nat = Some fetchingTick)
    by (vm_compute; reflexivity).
  exact (conj H1 (conj H2 (conj H3
           (settled_fetch_starts_upload DEFAULT_CONFIG twoChapters
              [ClickStart; EffectTimer] fetchingState 0%nat fetchingTick
              (Thrown quotaError) H1 H2 H3)))).
Defined.

(** ** An empty queue (App.tsx, line 115) *)



(** ** The crawl, one chapter at a time (App.tsx, lines 114-220) *)













(** ** The string given to [JSON.parse] (geminiService.ts, lines 51-56) *)

Lemma matchLiteral_app {R} pat (k : jsstring -> option R) rest :
  matchLiteral pat k (pat ++ rest) = k rest.
Proof.
  induction pat as [|p pat IH]; cbn; [reflexivity|]. now rewrite N.eqb_refl.
Qed.

Lemma matchLiteral_Some {R} pat (k : jsstring -> option R) s r :
  matchLiteral pat k s = Some r -> exists rest, s = pat ++ rest /\ k rest = Some r.
Proof.
  revert s. induction pat as [|p pat IH]; intros s; cbn.
  - intros H. now exists s.
  - destruct s as [|c t]; [discriminate|].
    destruct (c =? p) eqn:E; [|discriminate]. apply N.eqb_eq in E as ->.
    intros H. destruct (IH t H) as (rest & -> & Hk). now exists rest.
Qed.

Lemma matchLiteral_const {R} pat (x : R) s :
  matchLiteral pat (fun _ => Some x) s
  = if startsWith pat s then Some x else None.
Proof.
  unfold startsWith. revert s. induction pat as [|p pat IH]; intros s; cbn.
  - reflexivity.
  - destruct s as [|c t]; [reflexivity|]. destruct (c =? p); [apply IH | reflexivity].
Qed.

Lemma startsWith_app pat rest : startsWith pat (pat ++ rest) = true.
Proof. unfold startsWith. now rewrite matchLiteral_app. Qed.

Lemma startsWith_spec pat s :
  startsWith pat s = true -> exists rest, s = pat ++ rest.
Proof.
  unfold startsWith.
  destruct (matchLiteral pat _ s) as [u|] eqn:E; [|discriminate]. intros _.
  destruct (matchLiteral_Some _ _ _ _ E) as (rest & -> & _). now exists rest.
Qed.

Lemma startsWith_other p pat c t : c <> p -> startsWith (p :: pat) (c :: t) = false.
Proof. intros H. unfold startsWith. cbn. now apply N.eqb_neq in H as ->. Qed.

Lemma fence_units : lit "```" = [96; 96; 96].
Proof. reflexivity. Qed.

Lemma json_units : lit "json" = [106; 115; 111; 110].
Proof. reflexivity. Qed.

Lemma isWhiteSpace_not_backtick c : isWhiteSpace c = true -> c <> 96.
Proof. intros H ->. discriminate H. Qed.

Lemma closing_spec captured s :
  closing captured s
  = if startsWith (lit "```") (trimStart s) then Some captured else None.
Proof.
  unfold closing. induction s as [|c t IH]; cbn [matchStarGreedy trimStart].
  - apply matchLiteral_const.
  - destruct (isWhiteSpace c) eqn:E; [|apply matchLiteral_const].
    rewrite IH. destruct (startsWith _ (trimStart t)); [reflexivity|].
    rewrite matchLiteral_const, fence_units, startsWith_other; [reflexivity|].
    now apply isWhiteSpace_not_backtick.
Qed.

(** The lazy capture stops at the first place where the rest of the
    pattern matches. *)
Lemma matchStarLazy_first s :
  forall captured r,
    matchStarLazy (fun _ => true) closing captured s = Some r ->
    exists a b,
      s = a ++ b /\ r = captured ++ a
      /\ startsWith (lit "```") (trimStart b) = true
      /\ (forall a1 a2, a = a1 ++ a2 -> a2 <> [] ->
          startsWith (lit "```") (trimStart (a2 ++ b)) = false).
Proof.
  induction s as [|c t IH]; intros captured r; cbn [matchStarLazy];
    rewrite closing_spec.
  - destruct (startsWith _ _) eqn:E; [|discriminate]. intros [= <-].
    exists [], []. split; [reflexivity|]. split; [now rewrite app_nil_r|].
    split; [exact E|]. intros a1 a2 Ha Hne.
    destruct a1, a2; (discriminate || now destruct Hne).
  - destruct (startsWith _ (trimStart (c :: t))) eqn:E.
    + intros [= <-]. exists [], (c :: t).
      split; [reflexivity|]. split; [now rewrite app_nil_r|]. split; [exact E|].
      intros a1 a2 Ha Hne. destruct a1, a2; (discriminate || now destruct Hne).
    + intros H. destruct (IH _ _ H) as (a & b & -> & -> & Hb & Hmin).
      exists (c :: a), b. split; [reflexivity|].
      split; [now rewrite <- app_assoc|]. split; [exact Hb|].
      intros a1 a2 Ha Hne. destruct a1 as [|c' a1].
      * cbn in Ha. subst a2. exact E.
      * injection Ha as <- Ha. now apply (Hmin a1 a2).
Qed.

Lemma matchStarLazy_captured s :
  forall captured,
    matchStarLazy (fun _ => true) closing captured s
    = option_map (app captured) (matchStarLazy (fun _ => true) closing [] s).
Proof.
  induction s as [|c t IH]; intros captured; cbn [matchStarLazy];
    rewrite !closing_spec.
  - destruct (startsWith _ _); cbn; [now rewrite app_nil_r | reflexivity].
  - destruct (startsWith _ _); cbn; [now rewrite app_nil_r|].
    cbn [app]. rewrite (IH (captured ++ [c])), (IH [c]).
    destruct (matchStarLazy _ _ [] t); cbn; [|reflexivity].
    now rewrite <- app_assoc.
Qed.

Lemma matchStarLazy_space c t :
  isWhiteSpace c = true ->
  matchStarLazy (fun _ => true) closing [] t = None ->
  matchStarLazy (fun _ => true) closing [] (c :: t) = None.
Proof.
  intros Hc Ht. cbn [matchStarLazy]. rewrite closing_spec.
  cbn [trimStart]. rewrite Hc.
  assert (E : startsWith (lit "```") (trimStart t) = false).
  { destruct t as [|d t']; cbn [matchStarLazy] in Ht; rewrite closing_spec in Ht;
      destruct (startsWith _ _); (discriminate || reflexivity). }
  rewrite E, matchStarLazy_captured, Ht. reflexivity.
Qed.

Lemma matchStarLazy_trimStart s :
  matchStarLazy (fun _ => true) closing [] (trimStart s) = None ->
  matchStarLazy (fun _ => true) closing [] s = None.
Proof.
  induction s as [|c t IH]; cbn [trimStart]; [easy|].
  destruct (isWhiteSpace c) eqn:E; [|easy].
  intros H. apply matchStarLazy_space; [exact E | now apply IH].
Qed.

(** The greedy white space before the capture never gives a character
    back. *)
Lemma matchStarGreedy_lazy s :
  matchStarGreedy isWhiteSpace (matchStarLazy (fun _ => true) closing []) s
  = matchStarLazy (fun _ => true) closing [] (trimStart s).
Proof.
  induction s as [|c t IH]; cbn [matchStarGreedy trimStart]; [reflexivity|].
  destruct (isWhiteSpace c) eqn:E; [|reflexivity].
  rewrite IH.
  destruct (matchStarLazy _ _ [] (trimStart t)) eqn:Et; [reflexivity|].
  apply matchStarLazy_space; [exact E | now apply matchStarLazy_trimStart].
Qed.


Lemma fenceAt_Some s r :
  fenceAt s = Some r ->
  exists rest x,
    s = lit "```" ++ rest /\ (rest = lit "json" ++ x \/ rest = x)
    /\ matchStarLazy (fun _ => true) closing [] (trimStart x) = Some r.
Proof.
  unfold fenceAt. fold closing. intros H.
  apply matchLiteral_Some in H as (rest & -> & H). unfold matchOptional in H.
  destruct (matchLiteral (lit "json") _ rest) as [r'|] eqn:E.
  - injection H as ->. apply matchLiteral_Some in E as (x & -> & E).
    rewrite matchStarGreedy_lazy in E. exists (lit "json" ++ x), x. tauto.
  - rewrite matchStarGreedy_lazy in H. exists rest, rest. tauto.
Qed.

Lemma fenceAt_json x r :
  matchStarLazy (fun _ => true) closing [] (trimStart x) = Some r ->
  fenceAt (lit "```" ++ lit "json" ++ x) = Some r.
Proof.
  intros H. unfold fenceAt. fold closing. rewrite matchLiteral_app.
  unfold matchOptional. now rewrite matchLiteral_app, matchStarGreedy_lazy, H.
Qed.

Lemma fenceAt_plain x :
  startsWith (lit "json") x = false ->
  fenceAt (lit "```" ++ x)
  = matchStarLazy (fun _ => true) closing [] (trimStart x).
Proof.
  intros H. unfold fenceAt. fold closing. rewrite matchLiteral_app.
  unfold matchOptional.
  destruct (matchLiteral (lit "json") _ x) as [r|] eqn:E.
  - apply matchLiteral_Some in E as (x' & -> & _).
    now rewrite startsWith_app in H.
  - apply matchStarGreedy_lazy.
Qed.

Lemma fenceAt_other c t : c <> 96 -> fenceAt (c :: t) = None.
Proof.
  intros H. unfold fenceAt. rewrite fence_units. cbn [matchLiteral].
  now apply N.eqb_neq in H as ->.
Qed.

Lemma fenceMatch_skip pre s :
  Forall (fun c => c <> 96) pre -> fenceMatch (pre ++ s) = fenceMatch s.
Proof.
  induction 1 as [|c pre Hc _ IH]; [reflexivity|].
  cbn [app fenceMatch]. now rewrite fenceAt_other.
Qed.

Lemma fenceMatch_none s : Forall (fun c => c <> 96) s -> fenceMatch s = None.
Proof.
  intros H. rewrite <- (app_nil_r s), fenceMatch_skip by exact H.
  cbn [fenceMatch]. unfold fenceAt. now rewrite fence_units.
Qed.

Lemma fenceMatch_Some s r :
  fenceMatch s = Some r ->
  exists pre t, s = pre ++ t /\ fenceAt t = Some r.
Proof.
  induction s as [|c t IH]; cbn [fenceMatch].
  - destruct (fenceAt []) eqn:E; [|discriminate]. intros [= <-]. now exists [], [].
  - destruct (fenceAt (c :: t)) as [r'|] eqn:E.
    + intros [= <-]. now exists [], (c :: t).
    + intros H. destruct (IH H) as (pre & u & -> & Hu). now exists (c :: pre), u.
Qed.

Lemma trimStart_app_clean a b :
  trimStart a <> [] -> trimStart (a ++ b) = trimStart a ++ b.
Proof.
  induction a as [|c a IH]; cbn [trimStart app]; [congruence|].
  destruct (isWhiteSpace c); [exact IH | reflexivity].
Qed.

Lemma trimStart_space l s :
  Forall (fun c => isWhiteSpace c = true) l -> trimStart (l ++ s) = trimStart s.
Proof. induction 1 as [|c l Hc _ IH]; [reflexivity|]. cbn. now rewrite Hc. Qed.

Lemma startsClean_last_nonempty a c :
  isWhiteSpace c = false -> trimStart (a ++ [c]) <> [].
Proof. intros Hc. rewrite trimStart_snoc by exact Hc. now destruct (trimStart a). Qed.

(** The capture of a match is trimmed, it is a part of the text, and it
    contains no run of three backticks. *)
Lemma capture_spec x r :
  matchStarLazy (fun _ => true) closing [] (trimStart x) = Some r ->
  trimmed r /\ (exists l b, x = l ++ r ++ b)
  /\ (forall a1 a2, r = a1 ++ a2 -> startsWith (lit "```") a2 = false).
Proof.
  intros H. destruct (matchStarLazy_first _ _ _ H) as (a & b & Hx & -> & Hb & Hmin).
  cbn [app]. destruct (trimStart_split x) as (l & Hl & El).
  split; [split|split].
  - pose proof (trimStart_startsClean x) as Hc. rewrite Hx in Hc.
    destruct a; [exact I | exact Hc].
  - destruct a as [|c a] using rev_ind; [exact I|]. rewrite rev_app_distr. cbn.
    destruct (isWhiteSpace c) eqn:Ec; [|reflexivity].
    specialize (Hmin a [c] eq_refl ltac:(discriminate)).
    cbn in Hmin. rewrite Ec in Hmin. congruence.
  - exists l, b. now rewrite <- Hx.
  - intros a1 a2 -> . destruct (startsWith (lit "```") a2) eqn:E; [|reflexivity].
    destruct (startsWith_spec _ _ E) as (rest & ->).
    assert (Hne : lit "```" ++ rest <> []) by (rewrite fence_units; discriminate).
    specialize (Hmin a1 (lit "```" ++ rest) eq_refl Hne).
    rewrite <- app_assoc, trimStart_fixed, startsWith_app in Hmin;
      [discriminate|].
    rewrite fence_units. reflexivity.
Qed.

Lemma fenceMatch_capture s r :
  fenceMatch s = Some r ->
  trimmed r /\ (exists l b, s = l ++ r ++ b)
  /\ (forall a1 a2, r = a1 ++ a2 -> startsWith (lit "```") a2 = false).
Proof.
  intros H. destruct (fenceMatch_Some _ _ H) as (pre & t & -> & Ht).
  destruct (fenceAt_Some _ _ Ht) as (rest & x & -> & Hrest & Hx).
  destruct (capture_spec _ _ Hx) as (Htr & (l & b & ->) & Hnf).
  split; [exact Htr|]. split; [|exact Hnf].
  destruct Hrest as [-> | ->].
  - exists (pre ++ lit "```" ++ lit "json" ++ l), b. now rewrite <- !app_assoc.
  - exists (pre ++ lit "```" ++ l), b. now rewrite <- !app_assoc.
Qed.

Lemma fenceMatch_no_fence s :
  (forall a1 a2, s = a1 ++ a2 -> startsWith (lit "```") a2 = false) ->
  fenceMatch s = None.
Proof.
  intros H. destruct (fenceMatch s) as [r|] eqn:E; [|reflexivity].
  destruct (fenceMatch_Some _ _ E) as (pre & t & -> & Ht).
  destruct (fenceAt_Some _ _ Ht) as (rest & x & -> & _).
  specialize (H pre (lit "```" ++ rest) eq_refl).
  now rewrite startsWith_app in H.
Qed.

(** X18: the string given to the parser never starts or ends with white
    space, it is a part of the text of the answer, and extracting from it
    again gives it back. *)
Theorem jsonStr_trimmed_part (responseText : jsstring) :
  trimmed (jsonStr responseText)
  /\ (exists l r, responseText = l ++ jsonStr responseText ++ r)
  /\ jsonStr (jsonStr responseText) = jsonStr responseText.
Proof.
  unfold jsonStr at 1 2 4 5. cbv zeta.
  destruct (trim_split responseText) as (l & r & _ & _ & E).
  destruct (fenceMatch (trim responseText)) as [captured|] eqn:Em.
  - destruct (fenceMatch_capture _ _ Em) as (Htr & (l' & b & Hpart) & Hnf).
    split; [exact Htr|]. split.
    + exists (l ++ l'), (b ++ r). rewrite E at 1. rewrite Hpart.
      now rewrite <- !app_assoc.
    + unfold jsonStr. rewrite (trim_fixed _ Htr).
      now rewrite (fenceMatch_no_fence _ Hnf).
  - split; [apply trim_trimmed|]. split; [now exists l, r|].
    unfold jsonStr. now rewrite trim_idem, Em.
Qed.

Lemma containsFence_spec s :
  containsFence s = false ->
  forall a1 a2, s = a1 ++ a2 -> startsWith (lit "```") a2 = false.
Proof.
  induction s as [|c t IH]; cbn [containsFence]; intros H a1 a2 E.
  - destruct a1, a2; try discriminate. reflexivity.
  - apply orb_false_iff in H as [H1 H2]. destruct a1 as [|c' a1].
    + cbn in E. now subst a2.
    + injection E as _ E. now apply (IH H2 a1 a2).
Qed.

Lemma no_fence_part l s r :
  (forall a1 a2, l ++ s ++ r = a1 ++ a2 -> startsWith (lit "```") a2 = false) ->
  forall a1 a2, s = a1 ++ a2 -> startsWith (lit "```") a2 = false.
Proof.
  intros H a1 a2 ->.
  destruct (startsWith (lit "```") a2) eqn:E; [|reflexivity].
  destruct (startsWith_spec _ _ E) as (rest & ->).
  specialize (H (l ++ a1) (lit "```" ++ rest ++ r)).
  rewrite startsWith_app in H. apply H. now rewrite <- !app_assoc.
Qed.

(** X19: an answer without three backticks in a row is given to the
    parser as it is, trimmed. *)
Theorem jsonStr_without_fence (responseText : jsstring) :
  containsFence responseText = false ->
  jsonStr responseText = trim responseText.
Proof.
  intros H. unfold jsonStr. cbv zeta.
  destruct (trim_split responseText) as (l & r & _ & _ & E).
  rewrite fenceMatch_no_fence; [reflexivity|].
  apply (no_fence_part l _ r). rewrite <- E. now apply containsFence_spec.
Qed.

Lemma jsonStr_without_fence_witness :
  containsFence ([10] ++ jsonBlock ++ [32]) = false
  /\ jsonStr ([10] ++ jsonBlock ++ [32]) = trim ([10] ++ jsonBlock ++ [32]).
Proof.
  assert (H : containsFence ([10] ++ jsonBlock ++ [32]) = false)
    by (vm_compute; reflexivity).
  exact (conj H (jsonStr_without_fence ([10] ++ jsonBlock ++ [32]) H)).
Defined.

Lemma fenceMatch_at s r : fenceAt s = Some r -> fenceMatch s = Some r.
Proof. intros H. destruct s; cbn [fenceMatch]; now rewrite H. Qed.

Lemma matchStarLazy_here captured s :
  startsWith (lit "```") (trimStart s) = true ->
  matchStarLazy (fun _ => true) closing captured s = Some captured.
Proof.
  intros H. destruct s; cbn [matchStarLazy]; now rewrite closing_spec, H.
Qed.

Lemma matchStarLazy_skip a rest :
  (forall a1 a2, a = a1 ++ a2 -> a2 <> [] ->
   startsWith (lit "```") (trimStart (a2 ++ rest)) = false) ->
  forall captured,
    matchStarLazy (fun _ => true) closing captured (a ++ rest)
    = matchStarLazy (fun _ => true) closing (captured ++ a) rest.
Proof.
  induction a as [|c a IH]; intros H captured.
  - now rewrite app_nil_r.
  - cbn [app matchStarLazy]. rewrite closing_spec.
    pose proof (H [] (c :: a) eq_refl ltac:(discriminate)) as H0.
    cbn [app] in H0. rewrite H0.
    rewrite IH; [now rewrite <- app_assoc|].
    intros a1 a2 E Hne. now apply (H (c :: a1) a2); [rewrite E|].
Qed.

Lemma trimStart_Forall (P : N -> Prop) s : Forall P s -> Forall P (trimStart s).
Proof.
  intros H. destruct (trimStart_split s) as (l & _ & E). rewrite E in H.
  now apply Forall_app in H as [_ H].
Qed.

Lemma trimEnd_backtick x post :
  trimEnd (x ++ [96] ++ post) = x ++ [96] ++ trimEnd post.
Proof.
  unfold trimEnd. rewrite !rev_app_distr. cbn [rev app].
  rewrite trimStart_app_clean by now apply startsClean_last_nonempty.
  rewrite trimStart_snoc by reflexivity.
  rewrite !rev_app_distr, rev_involutive. reflexivity.
Qed.

Lemma trim_between pre mid post :
  trim (pre ++ [96] ++ mid ++ [96] ++ post)
  = trimStart pre ++ [96] ++ mid ++ [96] ++ trimEnd post.
Proof.
  unfold trim. rewrite (app_assoc pre), trimStart_app_clean
    by now apply startsClean_last_nonempty.
  rewrite trimStart_snoc by reflexivity. rewrite <- !app_assoc.
  rewrite (app_assoc (trimStart pre)), (app_assoc _ mid).
  rewrite trimEnd_backtick. now rewrite <- !app_assoc.
Qed.

Lemma trim_fences pre mid post :
  trim (pre ++ lit "```" ++ mid ++ lit "```" ++ post)
  = trimStart pre ++ lit "```" ++ mid ++ lit "```" ++ trimEnd post.
Proof.
  rewrite fence_units.
  pose proof (trim_between pre ([96; 96] ++ mid ++ [96; 96]) post) as H.
  cbn [app] in H. rewrite <- !app_assoc in H. cbn [app] in H. exact H.
Qed.

(** The capture of a block whose text has no backtick and is trimmed. *)
Lemma capture_block ws1 body ws2 rest :
  Forall (fun c => isWhiteSpace c = true) ws1 ->
  Forall (fun c => isWhiteSpace c = true) ws2 ->
  Forall (fun c => c <> 96) body -> trimmed body ->
  matchStarLazy (fun _ => true) closing []
    (trimStart (ws1 ++ body ++ ws2 ++ lit "```" ++ rest)) = Some body.
Proof.
  intros H1 H2 Hb [Hs He]. rewrite trimStart_space by exact H1.
  assert (Hclose : startsWith (lit "```") (trimStart (ws2 ++ lit "```" ++ rest))
                   = true).
  { rewrite trimStart_space by exact H2.
    rewrite trimStart_fixed; [apply startsWith_app|].
    rewrite fence_units. reflexivity. }
  destruct body as [|c body'] eqn:Eb.
  - cbn [app]. apply matchStarLazy_here.
    now rewrite (trimStart_fixed (trimStart _)) by apply trimStart_startsClean.
  - rewrite <- Eb in *.
    rewrite trimStart_fixed by (rewrite Eb in Hs |- *; exact Hs).
    rewrite matchStarLazy_skip; [now apply matchStarLazy_here|].
    intros a1 a2 E Hne.
    destruct a2 as [|d a2'] using rev_ind; [congruence|]. clear IHa2'.
    assert (Hd : isWhiteSpace d = false).
    { rewrite E, app_assoc, rev_app_distr in He. exact He. }
    rewrite trimStart_app_clean by now apply startsClean_last_nonempty.
    assert (Hall : Forall (fun c => c <> 96) (trimStart (a2' ++ [d]))).
    { apply trimStart_Forall. rewrite E in Hb. now apply Forall_app in Hb as [_ Hb]. }
    pose proof (startsClean_last_nonempty a2' d Hd) as Hne'.
    destruct (trimStart (a2' ++ [d])) as [|x xs]; [congruence|].
    inversion Hall as [|? ? Hx _]; subst. rewrite fence_units.
    now apply startsWith_other.
Qed.

Lemma startsWith_json_head s :
  hd_error s <> Some 106 -> startsWith (lit "json") s = false.
Proof.
  intros H. rewrite json_units. destruct s as [|c t]; [reflexivity|].
  apply startsWith_other. intros ->. now apply H.
Qed.

(** X20: an answer with the JSON in a code block.  When no backtick comes
    before the block, the block is opened by three backticks, with or
    without the word json, and the text in it has no backtick and neither
    starts nor ends with white space, the parser is given exactly that
    text, whatever surrounds it.  Without the word json the text must not
    start with the letter j. *)
Theorem jsonStr_fenced_block (pre tag ws1 body ws2 post : jsstring) :
  Forall (fun c => c <> 96) pre ->
  tag = lit "json" \/ (tag = [] /\ hd_error (ws1 ++ body) <> Some 106) ->
  Forall (fun c => isWhiteSpace c = true) ws1 ->
  Forall (fun c => isWhiteSpace c = true) ws2 ->
  Forall (fun c => c <> 96) body ->
  trimmed body ->
  jsonStr (pre ++ lit "```" ++ tag ++ ws1 ++ body ++ ws2 ++ lit "```" ++ post)
  = body.
Proof.
  intros Hpre Htag H1 H2 Hb Htr. unfold jsonStr. cbv zeta.
  replace (pre ++ lit "```" ++ tag ++ ws1 ++ body ++ ws2 ++ lit "```" ++ post)
    with (pre ++ lit "```" ++ (tag ++ ws1 ++ body ++ ws2) ++ lit "```" ++ post)
    by now rewrite <- !app_assoc.
  rewrite trim_fences, <- !app_assoc.
  rewrite fenceMatch_skip by now apply trimStart_Forall.
  pose proof (capture_block ws1 body ws2 (trimEnd post) H1 H2 Hb Htr) as Hcap.
  destruct Htag as [-> | [-> Hj]].
  - now rewrite (fenceMatch_at _ body (fenceAt_json _ _ Hcap)).
  - cbn [app]. erewrite fenceMatch_at; [reflexivity|].
    rewrite fenceAt_plain; [exact Hcap|].
    apply startsWith_json_head. rewrite app_assoc.
    destruct (ws1 ++ body) as [|c t] eqn:E; [|exact Hj].
    apply app_eq_nil in E as [-> ->]. cbn [app].
    destruct ws2 as [|w ws2']; cbn [app hd_error].
    + rewrite fence_units. cbn. discriminate.
    + inversion H2 as [|? ? Hw _]; subst. intros [= ->]. discriminate Hw.
Qed.

Lemma jsonStr_fenced_block_witness :
  Forall (fun c => c <> 96) (lit "Here it is:" ++ [10])
  /\ Forall (fun c => c <> 96) jsonBlock
  /\ trimmed jsonBlock
  /\ jsonStr fencedAnswer = jsonBlock.
Proof.
  assert (Hpre : Forall (fun c => c <> 96) (lit "Here it is:" ++ [10]))
    by (apply List.Forall_forall; intros c Hc; vm_compute in Hc;
        intuition (subst; discriminate)).
  assert (Hb : Forall (fun c => c <> 96) jsonBlock)
    by (apply List.Forall_forall; intros c Hc; vm_compute in Hc;
        intuition (subst; discriminate)).
  assert (Htr : trimmed jsonBlock) by (split; reflexivity).
  assert (Hw : Forall (fun c => isWhiteSpace c = true) [10])
    by (constructor; [reflexivity | constructor]).
  exact (conj Hpre (conj Hb (conj Htr
           (jsonStr_fenced_block (lit "Here it is:" ++ [10]) (lit "json") [10]
              jsonBlock [10] [10] Hpre (or_introl eq_refl) Hw Hw Hb Htr)))).
Defined.

(** X21: [searchNovelMetadata] never throws.  It returns the parsed
    metadata with the sources assigned when the provider answers with a
    text that is not empty, the parser accepts the extracted string and the
    assignment succeeds; in every other case, whether the provider, the
    parser or the assignment failed, it returns null. *)
Theorem searchNovelMetadata_never_throws {J : Type}
  (JSON_parse : jsstring -> outcome J)
  (assignSources : J -> list jsstring -> outcome J)
  (generateContent : outcome GenerateContentResponse) :
  exists r,
    searchNovelMetadata JSON_parse assignSources generateContent = Returned r
    /\ forall metadata,
         r = Some metadata
         <-> exists response responseText parsed,
               generateContent = Returned response
               /\ truthy (text response) = Some responseText
               /\ JSON_parse (jsonStr responseText) = Returned parsed
               /\ assignSources parsed
                    (unique match groundingChunks response with
                            | Some chunks => chunkSources chunks
                            | None => []
                            end)
                  = Returned metadata.
Proof.
  unfold searchNovelMetadata.
  destruct generateContent as [response|e]; cbn [bind try_catch].
  - destruct (truthy (text response)) as [responseText|] eqn:Et.
    + destruct (JSON_parse (jsonStr responseText)) as [parsed|e] eqn:Ep;
        cbn [bind try_catch].
      * destruct (assignSources parsed _) as [m|e] eqn:Ea; cbn [bind try_catch].
        -- eexists. split; [reflexivity|]. intros metadata. split.
           ++ intros [= <-]. now exists response, responseText, parsed.
           ++ intros (response' & t' & p' & [= <-] & Ht' & Hp' & Ha').
              rewrite Et in Ht'. injection Ht' as <-.
              rewrite Ep in Hp'. injection Hp' as <-. congruence.
        -- eexists. split; [reflexivity|]. intros metadata. split; [discriminate|].
           intros (response' & t' & p' & [= <-] & Ht' & Hp' & Ha').
           rewrite Et in Ht'. injection Ht' as <-.
           rewrite Ep in Hp'. injection Hp' as <-. congruence.
      * eexists. split; [reflexivity|]. intros metadata. split; [discriminate|].
        intros (response' & t' & p' & [= <-] & Ht' & Hp' & _).
        rewrite Et in Ht'. injection Ht' as <-. congruence.
    + eexists. split; [reflexivity|]. intros metadata. split; [discriminate|].
      intros (response' & t' & p' & [= <-] & Ht' & _). congruence.
  - eexists. split; [reflexivity|]. intros metadata. split; [discriminate|].
    intros (response' & t' & p' & H & _). discriminate H.
Qed.

(** ** Before the crawl (App.tsx, lines 36-112 and 242) *)

Lemma runEffect_armed s : runEffect s = setEffectTimer (armed s) s.
Proof. unfold runEffect, armed. now destruct (crawlingActive s), (appState s). Qed.

Lemma runEffect_idle s :
  crawlingActive s = false -> runEffect s = setEffectTimer None s.
Proof. intros H. unfold runEffect. now rewrite H. Qed.

Lemma setupRun_snoc es e p :
  setupRun (es ++ [e]) p
  = match setupRun es p with Some p1 => setupStep e p1 | None => None end.
Proof.
  revert p. induction es as [|e' es IH]; intros p; cbn [app setupRun].
  - now destruct (setupStep e p).
  - destruct (setupStep e' p); [apply IH | reflexivity].
Qed.

Lemma handleConfigSave_resumed_idle host newConfig sameObject s :
  idle s -> idle (handleConfigSave_resumed host newConfig sameObject s).
Proof.
  intros (Hc & Hp & Hm & Ht & Hl & Hf & Hu & Ha & Hch).
  unfold handleConfigSave_resumed, validateRepo.
  destruct (fetchGET host _ _) as [response|e]; cbn [bind try_catch].
  - destruct (get_ok response).
    + destruct sameObject; [unfold idle; cbn; tauto|].
      rewrite runEffect_idle by (cbn; exact Hc). unfold idle. cbn. tauto.
    + unfold idle. cbn. tauto.
  - unfold idle. cbn. tauto.
Qed.

Lemma handleSearch_resumed_idle settled s :
  idle s -> idle (handleSearch_resumed settled s).
Proof.
  intros (Hc & Hp & Hm & Ht & Hl & Hf & Hu & Ha & Hch).
  unfold handleSearch_resumed. destruct settled as [[result|]|e].
  - rewrite runEffect_idle by (cbn; exact Hc). unfold idle. cbn. tauto.
  - unfold idle. cbn. tauto.
  - unfold idle. cbn. tauto.
Qed.

Lemma setupStep_idle e p p' :
  idle (component p) -> setupStep e p = Some p' -> idle (component p').
Proof.
  intros Hi. pose proof Hi as (Hc & Hp & Hm & Ht & Hl & Hf & Hu & Ha & Hch).
  destruct e as [q|newConfig|k host sameObject| |settled|]; cbn [setupStep].
  - now intros [= <-].
  - intros [= <-]. unfold idle. cbn. tauto.
  - destruct (awaitingValidation p !! k) as [newConfig|]; [|discriminate].
    intros [= <-]. now apply handleConfigSave_resumed_idle.
  - intros [= <-]. unfold handleSearch_called.
    destruct (trim (searchQuery p)); [exact Hi|]. cbn [component].
    rewrite runEffect_idle by (cbn; exact Hc). unfold idle. cbn. tauto.
  - destruct (awaitingSearch p); [discriminate|]. intros [= <-].
    now apply handleSearch_resumed_idle.
  - intros [= <-]. unfold idle. cbn. tauto.
Qed.

Lemma setupRun_idle es p : setupRun es initialPage = Some p -> idle (component p).
Proof.
  revert p. induction es as [|e es IH] using rev_ind; intros p.
  - intros [= <-]. unfold idle. cbn. tauto.
  - rewrite setupRun_snoc. destruct (setupRun es initialPage) as [p1|]; [|discriminate].
    apply setupStep_idle. now apply IH.
Qed.

(** X22: the state in which the first crawl starts.  Whatever is typed,
    submitted and answered before, in whatever order, nothing of a crawl is
    under way; the page is in the setup, search or preview state; and when
    a novel is set, the component's state is the preview of that novel
    under the current configuration, but for the log, the requests sent and
    the page shown.  When no novel is set the queue is empty and Start does
    nothing. *)
Theorem first_crawl_starts_from_preview (es : list SetupEvent) (p : Page) :
  setupRun es initialPage = Some p ->
  (appState (component p) = setup \/ appState (component p) = search
   \/ appState (component p) = preview)
  /\ match novel (component p) with
     | Some result =>
         component p
         = addRequests (requests (component p))
             (setLogs (logs (component p))
                (setAppState (appState (component p))
                   (previewOf (config (component p)) result)))
     | None => chapters (component p) = [] /\ startCrawling (component p) = component p
     end.
Proof.
  intros Hrun.
  destruct (setupRun_idle es p Hrun) as (Hc & Hp & Hm & Ht & Hl & Hf & Hu & Ha & Hch).
  split; [exact Ha|].
  destruct (component p) as [cfg st lg nv chs ca pr mt et lt ft ul rq]. cbn in *.
  destruct nv as [result|]; subst.
  - reflexivity.
  - split; reflexivity.
Qed.

Lemma first_crawl_starts_from_preview_witness :
  setupRun firstSearch initialPage = Some previewPage
  /\ component previewPage
     = addRequests (requests (component previewPage))
         (setLogs (logs (component previewPage))
            (setAppState preview (previewOf DEFAULT_CONFIG twoChapters))).
Proof.
  assert (H : setupRun firstSearch initialPage = Some previewPage)
    by (vm_compute; reflexivity).
  exact (conj H (proj2 (first_crawl_starts_from_preview firstSearch previewPage H))).
Defined.

(** X23: a search that fails.  When the query is not blank and the search
    returns null or throws, the novel found before is gone and the queue is
    empty, although the page shown and the configuration stay as they are:
    in the preview Start then does nothing.  The search is no longer marked
    as under way. *)
Theorem failed_search_clears_novel (p : Page)
  (settled : outcome (option NovelMetadata)) (p2 : Page) :
  trim (searchQuery p) <> [] ->
  settled = Returned None \/ (exists e, settled = Thrown e) ->
  setupRun [SubmitSearch; SearchSettled settled] p = Some p2 ->
  novel (component p2) = None /\ chapters (component p2) = []
  /\ appState (component p2) = appState (component p) /\ config (component p2) = config (component p)
  /\ isSearching p2 = false
  /\ startCrawling (component p2) = component p2.
Proof.
  intros Hq Hfail. cbn [setupRun setupStep]. unfold handleSearch_called.
  destruct (trim (searchQuery p)) as [|c t]; [congruence|].
  cbn [awaitingSearch component]. intros [= <-]. cbn [component isSearching].
  set (a' := handleSearch_resumed settled _).
  assert (Hfields : novel a' = None /\ chapters a' = []
                    /\ appState a' = appState (component p)
                    /\ config a' = config (component p)).
  { unfold a', handleSearch_resumed.
    destruct Hfail as [-> | [e ->]]; rewrite runEffect_armed; cbn;
      now repeat split. }
  destruct Hfields as (Hn & Hc & Ha & Hcfg).
  repeat split; try assumption. unfold startCrawling. now rewrite Hn.
Qed.

Lemma failed_search_clears_novel_witness :
  trim (searchQuery previewPage) <> []
  /\ setupRun [SubmitSearch; SearchSettled (Returned None)] previewPage
     = Some failedSearchPage
  /\ novel (component failedSearchPage) = None
  /\ appState (component failedSearchPage) = preview.
Proof.
  assert (H1 : trim (searchQuery previewPage) <> [])
    by (vm_compute; discriminate).
  assert (H2 : setupRun [SubmitSearch; SearchSettled (Returned None)] previewPage
               = Some failedSearchPage) by (vm_compute; reflexivity).
  pose proof (failed_search_clears_novel previewPage (Returned None)
                failedSearchPage H1 (or_introl eq_refl) H2)
    as (Hn & _ & Ha & _).
  exact (conj H1 (conj H2 (conj Hn Ha))).
Defined.

(** X24: [handleConfigSave] after the validation.  One GET is sent, to the
    repository of the new configuration with its token, and every upload
    under that configuration goes to a URL below that one.  When the GET is
    answered with an ok status the configuration is replaced and the page
    moves to the search; the effect then leaves no tick armed, unless the
    form was submitted without an edit, in which case the timer stays as it
    is.  When the GET is answered otherwise, or fails, the configuration,
    the page and the timer stay as they are.  The novel and the queue are
    never touched. *)
Theorem handleConfigSave_follows_validation (host : Host)
  (newConfig : GitHubConfig) (sameObject : bool) (s : App) :
  requests (handleConfigSave_resumed host newConfig sameObject s)
  = requests s ++ [GET (repoUrl newConfig) (lit "Bearer " ++ token newConfig)]
  /\ (forall path,
        contentsUrl newConfig path
        = repoUrl newConfig ++ lit "/contents/" ++ path)
  /\ ((exists response,
         fetchGET host (repoUrl newConfig) (lit "Bearer " ++ token newConfig)
         = Returned response /\ get_ok response = true) ->
      config (handleConfigSave_resumed host newConfig sameObject s) = newConfig
      /\ appState (handleConfigSave_resumed host newConfig sameObject s) = search
      /\ effectTimer (handleConfigSave_resumed host newConfig sameObject s)
         = if sameObject then effectTimer s else None)
  /\ (~ (exists response,
           fetchGET host (repoUrl newConfig) (lit "Bearer " ++ token newConfig)
           = Returned response /\ get_ok response = true) ->
      config (handleConfigSave_resumed host newConfig sameObject s) = config s
      /\ appState (handleConfigSave_resumed host newConfig sameObject s)
         = appState s
      /\ effectTimer (handleConfigSave_resumed host newConfig sameObject s)
         = effectTimer s)
  /\ novel (handleConfigSave_resumed host newConfig sameObject s) = novel s
  /\ chapters (handleConfigSave_resumed host newConfig sameObject s) = chapters s.
Proof.
  unfold handleConfigSave_resumed, validateRepo.
  split; [|split; [|split; [|split]]].
  - destruct (fetchGET host _ _) as [response|e]; cbn [bind try_catch];
      [destruct (get_ok response), sameObject|];
      rewrite ?runEffect_armed; reflexivity.
  - intros path. unfold contentsUrl, repoUrl. now rewrite <- !app_assoc.
  - intros (response & -> & Hok). cbn [bind try_catch]. rewrite Hok.
    destruct sameObject; [now repeat split|].
    rewrite runEffect_armed. unfold armed. cbn.
    now destruct (crawlingActive s).
  - intros Hno. destruct (fetchGET host _ _) as [response|e]; cbn [bind try_catch].
    + destruct (get_ok response) eqn:Hok; [|now repeat split].
      destruct Hno. now exists response.
    + now repeat split.
  - destruct (fetchGET host _ _) as [response|e]; cbn [bind try_catch];
      [destruct (get_ok response), sameObject|];
      rewrite ?runEffect_armed; now split.
Qed.

Lemma handleConfigSave_follows_validation_witness :
  (exists response,
     fetchGET knownRepoHost (repoUrl DEFAULT_CONFIG)
       (lit "Bearer " ++ token DEFAULT_CONFIG) = Returned response
     /\ get_ok response = true)
  /\ appState
       (handleConfigSave_resumed knownRepoHost DEFAULT_CONFIG true initialApp)
     = search.
Proof.
  assert (H : exists response,
             fetchGET knownRepoHost (repoUrl DEFAULT_CONFIG)
               (lit "Bearer " ++ token DEFAULT_CONFIG) = Returned response
             /\ get_ok response = true)
    by (eexists; split; reflexivity).
  exact (conj H
           (proj1 (proj2
              (proj1 (proj2 (proj2
                 (handleConfigSave_follows_validation knownRepoHost
                    DEFAULT_CONFIG true initialApp))) H)))).
Defined.

(** ** The requests of a crawl (App.tsx, line 176; services file, lines
    142-215) *)







(** ** One writer per chapter (App.tsx, lines 136-207) *)


